(** * HeyTea DIY toolkit: the cup-image rendering pipeline

    A shallow embedding of the image module of the front end
    ([renderToCupCanvas] and the helpers it calls) together with the
    properties its specification states.

    Conventions of the embedding.

    - A JavaScript [number] that takes part in rounded arithmetic (the
      luminance of a pixel, the scale of the fit, a quantization quotient)
      is a binary64 value: Rocq's primitive [float], whose operations are the
      IEEE 754 ones the ECMAScript standard prescribes.
    - A [number] that is an index, a length or a canvas dimension is a [nat];
      the content of a [Uint8ClampedArray] is a [list Z] whose entries lie in
      [0, 255]; a byte count (the size of a blob, the upload budget) is a [Z].
    - The rendering options [threshold] and [sampleDensity] are finite
      numbers.  Every finite binary64 value is a rational number and
      [Math.round], [Math.min] and [Math.max] are exact on them, so these
      options are rationals ([Q]) and their rounded, clamped values integers.
    - The browser (canvas, image decoder, blob encoder) is an environment the
      functions are parameterised by. *)

From Stdlib Require Import ZArith QArith Qround Qabs Qminmax Floats Uint63 Lia Lqa.
From Stdlib Require Import List Permutation Sorted Bool Ascii.
From stdpp Require Import base option list gmap strings pretty.

#[local] Set Warnings "-inexact-float".
#[local] Close Scope Q_scope.

(** ** JavaScript numbers *)

Module JS.
#[local] Open Scope Z_scope.

(** The binary64 value of an integer (exact below 2^53 in absolute value). *)
Definition Z2F (z : Z) : float :=
  if z <? 0 then (- PrimFloat.of_uint63 (Uint63.of_Z (- z)))%float
  else PrimFloat.of_uint63 (Uint63.of_Z z).

(** [Math.round]: the integer nearest to [x], a tie going towards +infinity;
    NaN, the infinities and the zeros are returned as they are, and a
    negative [x] that rounds to zero gives -0. *)
Definition Math_round (x : float) : float :=
  match Prim2SF x with
  | S754_finite s m e =>
      if 0 <=? e then x
      else
        let n := (2 * cond_Zopp s (Zpos m) + 2 ^ (- e)) / 2 ^ (1 - e) in
        if n =? 0 then (if s then (-0)%float else 0%float) else Z2F n
  | _ => x
  end.

(** [Math.min] and [Math.max] of two numbers: NaN when either is NaN, and
    -0 counts as smaller than +0. *)
Definition Math_min (a b : float) : float :=
  if is_nan a || is_nan b then nan
  else if (a <? b)%float then a
  else if (b <? a)%float then b
  else if get_sign a then a else b.

Definition Math_max (a b : float) : float :=
  if is_nan a || is_nan b then nan
  else if (a <? b)%float then b
  else if (b <? a)%float then a
  else if get_sign a then b else a.

(** The conversion a [Uint8ClampedArray] applies to a stored number: NaN
    becomes 0, the value is clamped to [0, 255] and rounded to the nearest
    integer, a tie going to the even one. *)
Definition ToUint8Clamp (x : float) : Z :=
  match Prim2SF x with
  | S754_nan | S754_zero _ | S754_finite true _ _ => 0
  | S754_infinity s => if s then 0 else 255
  | S754_finite false m e =>
      if 0 <=? e then (if 8 <=? e then 255 else Z.min 255 (Zpos m * 2 ^ e))
      else
        let f := Z.shiftr (Zpos m) (- e) in
        let rest := 2 * (Zpos m - f * 2 ^ (- e)) in
        let r := match rest ?= 2 ^ (- e) with
                 | Lt => f
                 | Gt => f + 1
                 | Eq => if Z.even f then f else f + 1
                 end in
        Z.min 255 r
  end.

(** [Math.round] on a finite number given as a rational: [floor (x + 1/2)]. *)
Definition Math_roundQ (x : Q) : Z := Qfloor (x + (1 # 2))%Q.

End JS.

(** ** Loops *)

(** [for (let i = start; i < stop; i += step) body], the state threaded
    through the iterations.  [fuel] bounds the number of iterations; with a
    positive [step], [stop] iterations are always enough (lemma
    [for_loop_fold] below). *)
Fixpoint for_loop {S : Type} (fuel : nat) (i stop step : nat)
    (body : nat -> S -> S) (s : S) : S :=
  match fuel with
  | O => s
  | Datatypes.S fuel' =>
      if i <? stop then for_loop fuel' (i + step) stop step body (body i s)
      else s
  end.

(** The number of iterations of the loop above. *)
Definition iterations (i stop step : nat) : nat := (stop - i + (step - 1)) / step.

(** ** Pixel buffers *)

(** An [ImageData]: RGBA samples, row-major, four entries per pixel. *)
Record ImageData := mkImageData {
  data : list Z;
  width : nat;
  height : nat
}.

Definition wf_image (img : ImageData) : Prop :=
  length (data img) = 4 * (width img * height img).

(** Every entry of a [Uint8ClampedArray] is an integer of [0, 255]. *)
Definition is_channel (v : Z) : Prop := (0 <= v <= 255)%Z.
Definition channels (d : list Z) : Prop := Forall is_channel d.

(** [data[i]] read as a number: an index past the end gives [undefined],
    which arithmetic turns into NaN. *)
Definition load (d : list Z) (i : nat) : float :=
  match d !! i with
  | Some v => JS.Z2F v
  | None => nan
  end.

(** [data[i] = x]: the number is converted as the array prescribes; a store
    past the end is ignored. *)
Definition store (d : list Z) (i : nat) (x : float) : list Z :=
  <[i := JS.ToUint8Clamp x]> d.

(** ** Data model *)

(** An entry of the array [getHalftonePattern] sorts. *)
Record Entry := mkEntry {
  index : nat;
  distance : Q;
  angle : Q
}.

Definition CUP_WIDTH : nat := 596.
Definition CUP_HEIGHT : nat := 832.
Definition MAX_UPLOAD_BYTES : Z := (200 * 1024)%Z.

Inductive ToneMode := binary | sampled | original.
Inductive Fit := contain | cover.
Inductive TargetFormat := png | auto.

Record RenderOptions := mkOptions {
  toneMode : option ToneMode;
  threshold : option Q;
  sampleDensity : option Q;
  fit : Fit;
  maxBytes : option Z;
  targetFormat : option TargetFormat
}.

(** The rectangle the source is drawn into. *)
Record Placement (num : Type) := mkPlacement {
  drawWidth : num;
  drawHeight : num;
  offsetX : num;
  offsetY : num
}.
Arguments mkPlacement {num}.
Arguments drawWidth {num}.
Arguments drawHeight {num}.
Arguments offsetX {num}.
Arguments offsetY {num}.

(** The browser: canvas, context and encoder. *)
Inductive MimeType := image_png | image_jpeg.

Record Blob := mkBlob {
  size : Z;
  type : MimeType
}.

Record HTMLImageElement := mkImage {
  image_width : nat;
  image_height : nat;
  image_bitmap : list Z
}.

Record Browser := mkBrowser {
  (** whether [canvas.getContext('2d')] gives a context *)
  context2d : bool;
  (** the pixels [getImageData] reads from the cleared canvas after
      [ctx.drawImage(image, dx, dy, dw, dh)] *)
  drawImage : HTMLImageElement -> Placement float -> list Z;
  (** [canvas.toBlob] on a canvas holding the given pixels: the blob handed
      to the callback, [None] for [null] *)
  toBlob : list Z -> MimeType -> option float -> option Blob
}.

Inductive Error :=
  | CanvasUnsupported
  | PngOverBudget (kilobytes : Z)
  | ExportFailed.

Inductive Completion (A : Type) :=
  | Return (a : A)
  | Throw (e : Error).
Arguments Return {A}.
Arguments Throw {A}.

(** An entry of the lossy ladder. *)
Record Attempt := mkAttempt {
  attempt_type : MimeType;
  quality : option float
}.

(** What a render leaves behind: the outcome, the canvas and the pattern cache. *)
Record Rendered := mkRendered {
  outcome : Completion Blob;
  final_canvas : list Z;
  final_cache : gmap string (list nat)
}.


(** ** Tone mapping: binary threshold *)

(** The luminance of a pixel as the code computes it, in binary64,
    multiplications first and the sum from left to right. *)
Definition luminance (r g b : float) : float :=
  (r * 0.299 + g * 0.587 + b * 0.114)%float.

(** [Math.max(0, Math.min(255, Math.round(threshold)))]. *)
Definition threshold_limit (threshold : Q) : Z :=
  Z.max 0 (Z.min 255 (JS.Math_roundQ threshold))%Z.

Definition default_threshold : Q := 170%Q.

Definition applyBinaryThreshold_body (limit : Z) (i : nat) (d : list Z) : list Z :=
  let gray := luminance (load d i) (load d (i + 1)) (load d (i + 2)) in
  let value := if (JS.Z2F limit <=? gray)%float then 255%float else 0%float in
  (* data[i] = data[i + 1] = data[i + 2] = value: the rightmost store first *)
  store (store (store d (i + 2) value) (i + 1) value) i value.

Definition applyBinaryThreshold (imageData : ImageData) (threshold : option Q) : ImageData :=
  let limit := threshold_limit (default default_threshold threshold) in
  let d := data imageData in
  mkImageData
    (for_loop (length d) 0 (length d) 4 (applyBinaryThreshold_body limit) d)
    (width imageData) (height imageData).

(** ** Colour quantization *)

(** One channel: [Math.min(255, Math.round(v / divisor) * divisor)]. *)
Definition quantizeChannel (divisor v : float) : float :=
  JS.Math_min 255 (JS.Math_round (v / divisor) * divisor)%float.

Definition quantizeColors_body (divisor : float) (i : nat) (d : list Z) : list Z :=
  let d := store d i (quantizeChannel divisor (load d i)) in
  let d := store d (i + 1) (quantizeChannel divisor (load d (i + 1))) in
  store d (i + 2) (quantizeChannel divisor (load d (i + 2))).

Definition quantizeColors (d : list Z) (step : float) : list Z :=
  let divisor := if (step <=? 0)%float then 1%float else step in
  for_loop (length d) 0 (length d) 4 (quantizeColors_body divisor) d.

(** ** Fitting the source onto the canvas *)

Definition Q_of_nat (n : nat) : Q := inject_Z (Z.of_nat n).


(** The arithmetic the fit is written in.  The code runs it on binary64
    numbers ([float_arith]); [Q_arith] evaluates the same expressions
    without rounding. *)
Class Arith (num : Type) := {
  of_nat : nat -> num;
  sub : num -> num -> num;
  mul : num -> num -> num;
  div : num -> num -> num;
  min2 : num -> num -> num;
  max2 : num -> num -> num
}.

#[export] Instance float_arith : Arith float := {|
  of_nat n := JS.Z2F (Z.of_nat n);
  sub := PrimFloat.sub;
  mul := PrimFloat.mul;
  div := PrimFloat.div;
  min2 := JS.Math_min;
  max2 := JS.Math_max
|}.


Definition fit_scale {num} `{Arith num} (f : Fit) (imageWidth imageHeight : nat) : num :=
  match f with
  | cover => max2 (div (of_nat CUP_WIDTH) (of_nat imageWidth))
                  (div (of_nat CUP_HEIGHT) (of_nat imageHeight))
  | contain => min2 (div (of_nat CUP_WIDTH) (of_nat imageWidth))
                    (div (of_nat CUP_HEIGHT) (of_nat imageHeight))
  end.

Definition placement {num} `{Arith num} (f : Fit) (imageWidth imageHeight : nat)
    : Placement num :=
  let scale := fit_scale f imageWidth imageHeight in
  let drawWidth := mul (of_nat imageWidth) scale in
  let drawHeight := mul (of_nat imageHeight) scale in
  let offsetX := div (sub (of_nat CUP_WIDTH) drawWidth) (of_nat 2) in
  let offsetY := div (sub (of_nat CUP_HEIGHT) drawHeight) (of_nat 2) in
  mkPlacement drawWidth drawHeight offsetX offsetY.

(** ** The size-constrained encoders *)

Definition attempts : list Attempt := [
  mkAttempt image_png None;
  mkAttempt image_jpeg (Some 0.95%float);
  mkAttempt image_jpeg (Some 0.9%float);
  mkAttempt image_jpeg (Some 0.85%float);
  mkAttempt image_jpeg (Some 0.8%float);
  mkAttempt image_jpeg (Some 0.75%float);
  mkAttempt image_jpeg (Some 0.7%float);
  mkAttempt image_jpeg (Some 0.65%float);
  mkAttempt image_jpeg (Some 0.6%float);
  mkAttempt image_jpeg (Some 0.55%float);
  mkAttempt image_jpeg (Some 0.5%float);
  mkAttempt image_jpeg (Some 0.45%float);
  mkAttempt image_jpeg (Some 0.4%float);
  mkAttempt image_jpeg (Some 0.35%float);
  mkAttempt image_jpeg (Some 0.3%float)
].

(** The loop of [exportWithCompression] over the attempts still to make.
    The result is the blob returned from inside the loop, if any, the
    candidate held when the loop ended, and the attempts made, in order. *)
Fixpoint compression_loop (env : Browser) (canvas : list Z) (maxBytes : Z)
    (todo : list Attempt) (candidate : option Blob) (made : list Attempt)
    : option Blob * option Blob * list Attempt :=
  match todo with
  | [] => (None, candidate, made)
  | attempt :: rest =>
      match toBlob env canvas (attempt_type attempt) (quality attempt) with
      | None => compression_loop env canvas maxBytes rest candidate (made ++ [attempt])
      | Some blob =>
          if (size blob <=? maxBytes)%Z then (Some blob, Some blob, made ++ [attempt])
          else compression_loop env canvas maxBytes rest (Some blob) (made ++ [attempt])
      end
  end.

Definition exportWithCompression (env : Browser) (canvas : list Z) (maxBytes : Z)
    : Completion Blob * list Attempt :=
  match compression_loop env canvas maxBytes attempts None [] with
  | (Some blob, _, made) => (Return blob, made)
  | (None, Some candidate, made) => (Return candidate, made)
  | (None, None, made) => (Throw ExportFailed, made)
  end.

Definition steps : list float :=
  [0; 8; 16; 24; 32; 40; 48; 64; 80; 96; 112; 128; 160; 192]%float.

(** The pixels put on the canvas for one quantization step. *)
Definition working_pixels (base : list Z) (step : float) : list Z :=
  if (0 <? step)%float then quantizeColors base step else base.

(** The loop of [exportPngWithQuantization]: the blob returned from inside
    the loop, if any, the fallback held at the end, the canvas as the last
    [putImageData] left it, and the steps encoded, in order. *)
Fixpoint quantization_loop (env : Browser) (base : list Z) (maxBytes : Z)
    (todo : list float) (fallback : option Blob) (canvas : list Z) (made : list float)
    : option Blob * option Blob * list Z * list float :=
  match todo with
  | [] => (None, fallback, canvas, made)
  | step :: rest =>
      let working := working_pixels base step in
      match toBlob env working image_png None with
      | None => quantization_loop env base maxBytes rest fallback working (made ++ [step])
      | Some blob =>
          if (size blob <=? maxBytes)%Z then (Some blob, Some blob, working, made ++ [step])
          else quantization_loop env base maxBytes rest (Some blob) working (made ++ [step])
      end
  end.

Definition exportPngWithQuantization (env : Browser) (canvas : list Z)
    (baseImageData : list Z) (maxBytes : Z) : option Blob * list Z * list float :=
  match quantization_loop env baseImageData maxBytes steps None canvas [] with
  | (Some blob, _, canvas', made) => (Some blob, canvas', made)
  | (None, fallback, canvas', made) =>
      (* return fallback && fallback.size <= maxBytes ? fallback : null *)
      let result :=
        match fallback with
        | Some blob => if (size blob <=? maxBytes)%Z then Some blob else None
        | None => None
        end in
      (result, canvas', made)
  end.

(** ** The halftone pattern *)

Section Pipeline.

(** [Math.atan2] of the host, on the finite arguments it is called with.  Its
    results are finite binary64 values, hence rationals; the sign of the
    difference of two finite binary64 values is the sign of their exact
    difference, so the comparator below is evaluated on rationals. *)
Variable Math_atan2 : Q -> Q -> Q.

(** The entry pushed for the pixel [(x, y)] of a [width] x [height] block.
    The coordinates are halves of integers, so every operation here is exact
    in binary64 as long as the block side stays below 2^25. *)
Definition entry_at (width height x y : nat) : Entry :=
  let centerX := ((Q_of_nat width - 1) / 2)%Q in
  let centerY := ((Q_of_nat height - 1) / 2)%Q in
  let dx := (Q_of_nat x - centerX)%Q in
  let dy := (Q_of_nat y - centerY)%Q in
  mkEntry (y * width + x) (dx * dx + dy * dy)%Q (Math_atan2 dy dx).

Definition halftone_entries (width height : nat) : list Entry :=
  for_loop height 0 height 1 (fun y entries =>
    for_loop width 0 width 1 (fun x entries =>
      entries ++ [entry_at width height x y]) entries) [].

(** The comparator handed to [entries.sort]. *)
Definition compare_entries (a b : Entry) : Q :=
  if Qeq_bool (distance a) (distance b) then (angle a - angle b)%Q
  else (distance a - distance b)%Q.

(** [Array.prototype.sort] with a comparator: a stable sort; an element goes
    after another when the comparator is positive on them.  For a consistent
    comparator every stable sort returns this list. *)
Fixpoint sort_insert {A : Type} (cmp : A -> A -> Q) (x : A) (l : list A) : list A :=
  match l with
  | [] => [x]
  | y :: l' =>
      if Qle_bool (cmp x y) 0 then x :: y :: l' else y :: sort_insert cmp x l'
  end.

Fixpoint Array_sort {A : Type} (cmp : A -> A -> Q) (l : list A) : list A :=
  match l with
  | [] => []
  | x :: l' => sort_insert cmp x (Array_sort cmp l')
  end.

(** A store into a [Uint16Array] keeps the low sixteen bits. *)
Definition ToUint16 (n : nat) : nat := Z.to_nat (Z.of_nat n mod 2 ^ 16).

Definition compute_pattern (width height : nat) : list nat :=
  let entries := Array_sort compare_entries (halftone_entries width height) in
  ToUint16 <$> (index <$> entries).

(** The cache key [`${width}x${height}`]. *)
Definition cache_key (width height : nat) : string :=
  pretty width +:+ "x" +:+ pretty height.

(** [getHalftonePattern]: the cache is module state, threaded here. *)
Definition getHalftonePattern (width height : nat) (cache : gmap string (list nat))
    : list nat * gmap string (list nat) :=
  match cache !! cache_key width height with
  | Some cached => (cached, cache)
  | None =>
      let pattern := compute_pattern width height in
      (pattern, <[cache_key width height := pattern]> cache)
  end.

(** ** Tone mapping: sampled halftone *)

Definition clamp01 (value : float) : float :=
  if (value <? 0)%float then 0%float
  else if (1 <? value)%float then 1%float
  else value.

Definition default_density : Q := 6%Q.

(** [Math.max(2, Math.min(32, Math.round(density)))]. *)
Definition block_size (density : Q) : nat :=
  Z.to_nat (Z.max 2 (Z.min 32 (JS.Math_roundQ density))).

Definition block_graySum (d : list Z) (width x y blockWidth blockHeight : nat) : float :=
  for_loop blockHeight 0 blockHeight 1 (fun offsetY graySum =>
    for_loop blockWidth 0 blockWidth 1 (fun offsetX graySum =>
      let idx := ((y + offsetY) * width + (x + offsetX)) * 4 in
      let gray := luminance (load d idx) (load d (idx + 1)) (load d (idx + 2)) in
      (graySum + gray)%float) graySum) 0%float.

Definition fill_block (width x y blockWidth pixelCount : nat) (whitePixels : float)
    (pattern : list nat) (d : list Z) : list Z :=
  for_loop pixelCount 0 pixelCount 1 (fun order d =>
    match pattern !! order with
    | Some localIndex =>
        let localX := localIndex mod blockWidth in
        let localY := localIndex / blockWidth in
        let idx := ((y + localY) * width + (x + localX)) * 4 in
        let value :=
          if (JS.Z2F (Z.of_nat order) <? whitePixels)%float then 255%float else 0%float in
        let d := store d idx value in
        let d := store d (idx + 1) value in
        store d (idx + 2) value
    | None => d (* no such entry: the index is NaN and the stores are ignored *)
    end) d.

Definition sampled_block (width height blockSize : nat) (bias : float) (x y : nat)
    (st : list Z * gmap string (list nat)) : list Z * gmap string (list nat) :=
  let '(d, cache) := st in
  let blockHeight := blockSize `min` (height - y) in
  let blockWidth := blockSize `min` (width - x) in
  let pixelCount := blockWidth * blockHeight in
  if pixelCount =? 0 then (d, cache)
  else
    let graySum := block_graySum d width x y blockWidth blockHeight in
    let grayValue := (graySum / JS.Z2F (Z.of_nat pixelCount))%float in
    let normalized := clamp01 (grayValue / 255 - bias)%float in
    let whitePixels := JS.Math_round (normalized * JS.Z2F (Z.of_nat pixelCount))%float in
    let '(pattern, cache) := getHalftonePattern blockWidth blockHeight cache in
    (fill_block width x y blockWidth pixelCount whitePixels pattern d, cache).

Definition applySampledMonochrome (imageData : ImageData) (density threshold : option Q)
    (cache : gmap string (list nat)) : ImageData * gmap string (list nat) :=
  let blockSize := block_size (default default_density density) in
  let limit := threshold_limit (default default_threshold threshold) in
  let bias := ((JS.Z2F limit - 170) / 255)%float in
  let w := width imageData in
  let h := height imageData in
  let '(d, cache) :=
    for_loop h 0 h blockSize (fun y st =>
      for_loop w 0 w blockSize (fun x st => sampled_block w h blockSize bias x y st) st)
      (data imageData, cache) in
  (mkImageData d w h, cache).

(** ** The pipeline *)

Definition tone_map (options : RenderOptions) (imageData : ImageData)
    (cache : gmap string (list nat)) : ImageData * gmap string (list nat) :=
  match default binary (toneMode options) with
  | original => (imageData, cache)
  | binary => (applyBinaryThreshold imageData (threshold options), cache)
  | sampled =>
      applySampledMonochrome imageData (sampleDensity options) (threshold options) cache
  end.

Definition renderToCupCanvas (env : Browser) (canvas : list Z) (image : HTMLImageElement)
    (options : RenderOptions) (cache : gmap string (list nat)) : Rendered :=
  if negb (context2d env) then mkRendered (Throw CanvasUnsupported) canvas cache
  else
    let place : Placement float :=
      placement (fit options) (image_width image) (image_height image) in
    let drawn := drawImage env image place in
    let '(toned, cache) := tone_map options (mkImageData drawn CUP_WIDTH CUP_HEIGHT) cache in
    (* getImageData after putImageData: the canvas gives back the pixels put *)
    let baseImageData := data toned in
    let maxBytes := default MAX_UPLOAD_BYTES (maxBytes options) in
    match targetFormat options with
    | Some png =>
        let '(result, canvas', _) :=
          exportPngWithQuantization env baseImageData baseImageData maxBytes in
        match result with
        | Some blob => mkRendered (Return blob) canvas' cache
        | None =>
            mkRendered (Throw (PngOverBudget (JS.Math_roundQ (maxBytes # 1024)))) canvas' cache
        end
    | _ =>
        mkRendered (fst (exportWithCompression env baseImageData maxBytes)) baseImageData cache
    end.

End Pipeline.

(** ** The address of the backend *)

(** A JavaScript string: its UTF-16 code units. *)
Definition code_units := list N.

(** White space and line terminators, the code points [String.prototype.trim]
    removes: TAB, LF, VT, FF, CR, SP, NBSP, the other space separators of
    Unicode, LS, PS and the byte order mark. *)
Definition is_white_space (c : N) : bool :=
  ((9 <=? c) && (c <=? 13) || (c =? 32) || (c =? 160) || (c =? 5760) ||
   (8192 <=? c) && (c <=? 8202) || (c =? 8232) || (c =? 8233) || (c =? 8239) ||
   (c =? 8287) || (c =? 12288) || (c =? 65279))%N.

Fixpoint trim_start (s : code_units) : code_units :=
  match s with
  | c :: s' => if is_white_space c then trim_start s' else s
  | [] => []
  end.

(** [s.trim()]. *)
Definition String_trim (s : code_units) : code_units :=
  rev (trim_start (rev (trim_start s))).

Definition slash : N := 47%N.

(** [s.replace(/\/$/, '')]: a slash at the very end of the string, if there
    is one, is removed. *)
Definition strip_slash (s : code_units) : code_units :=
  match last s with
  | Some c => if (c =? slash)%N then removelast s else s
  | None => s
  end.

(** What [resolveApiRoot] reads: [import.meta.env.VITE_API_BASE], undefined
    or a string, and [window.location.origin] where there is a window. *)
Record Environment := mkEnvironment {
  VITE_API_BASE : option code_units;
  window_origin : option code_units
}.

(** A string is truthy when it is not empty. *)
Definition truthy (s : code_units) : bool :=
  match s with [] => false | _ => true end.

Definition resolveApiRoot (e : Environment) : code_units :=
  let envBase := strip_slash (String_trim (if VITE_API_BASE e is Some s then
                                             (if truthy s then s else []) else [])) in
  if truthy envBase then envBase
  else match window_origin e with
       | Some origin => strip_slash origin
       | None => []
       end.

(** The text [/api]. *)
Definition api_path : code_units := [47; 97; 112; 105]%N.

Definition BACKEND_API_BASE (e : Environment) : code_units :=
  let apiRoot := resolveApiRoot e in
  if truthy apiRoot then apiRoot ++ api_path else api_path.

(** * The vocabulary of the properties *)

(** ** Sample hosts *)

(** A rational stand-in for [Math.atan2] with the same order: the position
    of the direction [(dx, dy)] on the unit diamond, from -2 (just above
    -pi) through 0 (the positive x axis) to 2 (pi). *)
Definition diamond_angle (dy dx : Q) : Q :=
  if Qeq_bool dx 0 && Qeq_bool dy 0 then 0%Q
  else
    let t := (Qabs dy / (Qabs dx + Qabs dy))%Q in
    if Qle_bool 0 dy then (if Qle_bool 0 dx then t else 2 - t)%Q
    else (if Qle_bool 0 dx then - t else t - 2)%Q.

(** A browser whose encoder answers every request with a blob of [n] bytes
    and draws nothing. *)
Definition flat_browser (n : Z) : Browser :=
  mkBrowser true (fun _ _ => []) (fun _ t _ => Some (mkBlob n t)).

Definition plain_options (format : option TargetFormat) (bytes : option Z) : RenderOptions :=
  mkOptions (Some original) None None contain bytes format.

Definition no_image : HTMLImageElement := mkImage 1 1 [].

(** ** Encoders *)

(** What the encoder answers to an attempt on the given canvas. *)
Definition produced (env : Browser) (canvas : list Z) (a : Attempt) : option Blob :=
  toBlob env canvas (attempt_type a) (quality a).

(** An answer that does not end a ladder: no blob, or one over the budget. *)
Definition over_budget (maxBytes : Z) (o : option Blob) : Prop :=
  forall blob, o = Some blob -> (maxBytes < size blob)%Z.

(** The candidate held after the attempts [todo], none of which ended the loop. *)
Definition candidate_after (env : Browser) (canvas : list Z) (todo : list Attempt)
    (candidate : option Blob) : option Blob :=
  foldl (fun c a => match produced env canvas a with Some blob => Some blob | None => c end)
    candidate todo.

(** What the encoder answers for one quantization step. *)
Definition png_of (env : Browser) (base : list Z) (step : float) : option Blob :=
  toBlob env (working_pixels base step) image_png None.

(** The pixels handed to the encoders: the drawn image, tone-mapped. *)
Definition base_pixels (Math_atan2 : Q -> Q -> Q) (env : Browser) (image : HTMLImageElement)
    (options : RenderOptions) (cache : gmap string (list nat)) : list Z :=
  let place : Placement float :=
    placement (fit options) (image_width image) (image_height image) in
  let drawn := mkImageData (drawImage env image place) CUP_WIDTH CUP_HEIGHT in
  data (tone_map Math_atan2 options drawn cache).1.

Definition budget (options : RenderOptions) : Z :=
  default MAX_UPLOAD_BYTES (maxBytes options).

(** ** Numbers *)

(** The sign of a rounded value is the sign that was asked for. *)
Definition sf_nonneg (x : spec_float) : bool :=
  match x with
  | S754_zero _ | S754_infinity false | S754_finite false _ _ => true
  | _ => false
  end.

(** [f] holds on [0], ..., [n - 1]. *)
Fixpoint check_below (n : nat) (f : Z -> bool) : bool :=
  match n with
  | O => true
  | Datatypes.S k => f (Z.of_nat k) && check_below k f
  end.

(** ** Pixel loops *)

(** The shape of the loop bodies of [applyBinaryThreshold] and
    [quantizeColors]: the three colour entries of the pixel at [i] are
    replaced by values computed from them. *)
Definition update_pixel (f : float -> float -> float -> Z * Z * Z) (i : nat) (d : list Z)
    : list Z :=
  let '(r, g, b) := f (load d i) (load d (i + 1)) (load d (i + 2)) in
  <[i := r]> (<[i + 1 := g]> (<[i + 2 := b]> d)).

(** Pixel [p] of [out] holds what [f] computes from pixel [p] of [d]. *)
Definition pixel_done (f : float -> float -> float -> Z * Z * Z) (d out : list Z) (p : nat)
    : Prop :=
  let '(r, g, b) := f (load d (4 * p)) (load d (4 * p + 1)) (load d (4 * p + 2)) in
  out !! (4 * p) = Some r /\ out !! (4 * p + 1) = Some g /\ out !! (4 * p + 2) = Some b.

(** An 8-bit buffer of a given length. *)
Definition bytes_of (len : nat) (d : list Z) : Prop := length d = len /\ channels d.

(** The value the three colour entries of a pixel are set to. *)
Definition threshold_value (limit : Z) (r g b : float) : Z :=
  if (JS.Z2F limit <=? luminance r g b)%float then 255%Z else 0%Z.




(** The nearest multiple of [s] to [v], a tie going up, clamped to 255. *)
Definition nearest_multiple (s v : Z) : Z := Z.min 255 ((2 * v + s) / (2 * s) * s).

(** What [quantizeColors] stores for a colour entry read as [v]. *)
Definition quantized (divisor : float) (v : float) : Z :=
  JS.ToUint8Clamp (quantizeChannel divisor v).

(** ** The halftone pattern *)

(** A string free of the separator of the cache key. *)
Fixpoint digits_only (s : string) : Prop :=
  match s with
  | EmptyString => True
  | String c s' => c <> "x"%char /\ digits_only s'
  end.

(** Ascending by distance, ties broken by ascending angle. *)
Definition entry_le (a b : Entry) : Prop :=
  (distance a < distance b)%Q \/ (distance a == distance b /\ angle a <= angle b)%Q.

(** The entry of the pixel with block-local index [i]. *)
Definition pixel_entry (Math_atan2 : Q -> Q -> Q) (w h i : nat) : Entry :=
  entry_at Math_atan2 w h (i `mod` w) (i / w).

(** Every cached pattern is the pattern of its shape. *)
Definition cache_ok (Math_atan2 : Q -> Q -> Q) (cache : gmap string (list nat)) : Prop :=
  forall w h p, cache !! cache_key w h = Some p -> p = compute_pattern Math_atan2 w h.

(** ** Sampled halftone *)

(** An entry holding 0 or 255. *)
Definition tone (o : option Z) : Prop := o = Some 0%Z \/ o = Some 255%Z.

(** The three colour entries of pixel [p] hold 0 or 255. *)
Definition painted (d : list Z) (p : nat) : Prop :=
  forall c, c < 3 -> tone (d !! (p * 4 + c)).

(** [d'] comes from [d] by stores of 0 or 255 into colour entries. *)
Definition refines (d d' : list Z) : Prop :=
  length d' = length d /\
  (forall j, j `mod` 4 = 3 -> d' !! j = d !! j) /\
  (forall j, tone (d !! j) -> tone (d' !! j)).

(** One iteration of the walk over the pattern. *)
Definition fill_step (width x y blockWidth : nat) (whitePixels : float) (pattern : list nat)
    (d : list Z) (order : nat) : list Z :=
  match pattern !! order with
  | Some localIndex =>
      let p := (y + localIndex / blockWidth) * width + (x + localIndex `mod` blockWidth) in
      let value :=
        if (JS.Z2F (Z.of_nat order) <? whitePixels)%float then 255%float else 0%float in
      store (store (store d (p * 4) value) (p * 4 + 1) value) (p * 4 + 2) value
  | None => d
  end.

(** The state of the block loops: the buffer and the pattern cache. *)
Definition state_ok (Math_atan2 : Q -> Q -> Q) (len : nat)
    (st : list Z * gmap string (list nat)) : Prop :=
  length st.1 = len /\ cache_ok Math_atan2 st.2.

Definition state_refines (st st' : list Z * gmap string (list nat)) : Prop :=
  refines st.1 st'.1.

(** One row of blocks, and all the rows. *)
Definition sampled_row (Math_atan2 : Q -> Q -> Q) (width height blockSize : nat) (bias : float)
    (y : nat) (st : list Z * gmap string (list nat))
    : list Z * gmap string (list nat) :=
  for_loop width 0 width blockSize
    (fun x st => sampled_block Math_atan2 width height blockSize bias x y st) st.

Definition sampled_rows (Math_atan2 : Q -> Q -> Q) (width height blockSize : nat) (bias : float)
    (st : list Z * gmap string (list nat))
    : list Z * gmap string (list nat) :=
  for_loop height 0 height blockSize
    (fun y st => sampled_row Math_atan2 width height blockSize bias y st) st.

(** ** The fit *)


(** ** The sampled halftone, pixel by pixel *)

(** The place of the block-local index [i] in a pattern. *)
Fixpoint position (i : nat) (l : list nat) : nat :=
  match l with
  | [] => 0
  | a :: l' => if decide (a = i) then 0 else Datatypes.S (position i l')
  end.

(** The number of white pixels [applySampledMonochrome] computes for the
    block of [bw] x [bh] pixels at [(x, y)] of the buffer [d]. *)
Definition block_whitePixels (d : list Z) (width x y bw bh : nat) (bias : float) : float :=
  let pixelCount := bw * bh in
  let graySum := block_graySum d width x y bw bh in
  let grayValue := (graySum / JS.Z2F (Z.of_nat pixelCount))%float in
  let normalized := clamp01 (grayValue / 255 - bias)%float in
  JS.Math_round (normalized * JS.Z2F (Z.of_nat pixelCount))%float.

(** The value stored for the pixel that comes at [order] in the pattern. *)
Definition tone_value (whitePixels : float) (order : nat) : Z :=
  if (JS.Z2F (Z.of_nat order) <? whitePixels)%float then 255%Z else 0%Z.

(** The value of the colour entries of the pixel [(px, py)] after the block
    at [(x, y)] has been filled: white when the pixel comes in the pattern
    of the block before the white pixels are used up. *)
Definition block_value (Math_atan2 : Q -> Q -> Q) (d : list Z) (width height blockSize : nat)
    (bias : float) (x y px py : nat) : Z :=
  let bw := blockSize `min` (width - x) in
  let bh := blockSize `min` (height - y) in
  tone_value (block_whitePixels d width x y bw bh bias)
    (position ((py - y) * bw + (px - x)) (compute_pattern Math_atan2 bw bh)).

Definition halftone_value (Math_atan2 : Q -> Q -> Q) (d : list Z) (width height blockSize : nat)
    (bias : float) (px py : nat) : Z :=
  block_value Math_atan2 d width height blockSize bias
    (px / blockSize * blockSize) (py / blockSize * blockSize) px py.

(** The pixel a block-local index stands for. *)
Definition block_pixel (width x y blockWidth localIndex : nat) : nat :=
  (y + localIndex / blockWidth) * width + (x + localIndex `mod` blockWidth).

(** The entries of the pixels of the block of side [blockSize] at [(x, y)],
    and those of the band of rows it lies in. *)
Definition in_block (width x y blockSize j : nat) : Prop :=
  x <= (j / 4) `mod` width < x + blockSize /\ y <= (j / 4) / width < y + blockSize.

Definition in_band (width y blockSize j : nat) : Prop :=
  y <= (j / 4) / width < y + blockSize.

(** [d'] has the entries of [d] in the region [R]. *)
Definition agree_on (R : nat -> Prop) (d d' : list Z) : Prop :=
  length d' = length d /\ forall j, R j -> d' !! j = d !! j.

Definition state_agree (R : nat -> Prop) (st st' : list Z * gmap string (list nat)) : Prop :=
  agree_on R st.1 st'.1.

(** The squared distance of the pixel [(x, y)] of a [w] x [h] block to the
    centre of the block. *)
Definition centre_distance (w h x y : nat) : Q :=
  ((Q_of_nat x - (Q_of_nat w - 1) / 2) * (Q_of_nat x - (Q_of_nat w - 1) / 2) +
   (Q_of_nat y - (Q_of_nat h - 1) / 2) * (Q_of_nat y - (Q_of_nat h - 1) / 2))%Q.

(** The luminance of a white pixel, and the sum of [n] of them as
    [applySampledMonochrome] accumulates it. *)
Definition white_luminance : float := luminance 255 255 255.

Definition white_sum (n : nat) : float := Nat.iter n (fun s => (s + white_luminance)%float) 0%float.

(** The number of white pixels computed for a block from the sum of its
    luminances. *)
Definition whitePixels_of (graySum : float) (pixelCount : nat) (bias : float) : float :=
  JS.Math_round
    (clamp01 (graySum / JS.Z2F (Z.of_nat pixelCount) / 255 - bias) *
     JS.Z2F (Z.of_nat pixelCount))%float.

(** For the blocks of [n + 1], ..., [n + fuel] white pixels the last place of
    the pattern is still below the number of white pixels. *)
Fixpoint white_blocks (fuel n : nat) (sum : float) : bool :=
  match fuel with
  | O => true
  | Datatypes.S fuel' =>
      let sum' := (sum + white_luminance)%float in
      (JS.Z2F (Z.of_nat n) <? whitePixels_of sum' (Datatypes.S n) ((170 - 170) / 255))%float &&
      white_blocks fuel' (Datatypes.S n) sum'
  end.

(** ** Black-and-white buffers *)

(** Every colour entry of the [n] pixels of [d] is 0 or 255. *)
Definition two_tone (d : list Z) (n : nat) : Prop :=
  forall p c, p < n -> c < 3 -> d !! (4 * p + c) = Some 0%Z \/ d !! (4 * p + c) = Some 255%Z.

(** What a quantization step of the ladder makes of a white entry. *)
Definition white_after (step : float) : Z :=
  if (0 <? step)%float then quantized step 255 else 255%Z.

(** ** Texts *)

(** A text of white space only. *)
Definition blank (s : code_units) : Prop := forallb is_white_space s = true.

(** A text that is not empty and neither begins nor ends with white space. *)
Definition trimmed (s : code_units) : Prop :=
  match head s, last s with
  | Some a, Some b => is_white_space a = false /\ is_white_space b = false
  | _, _ => False
  end.


(** ** Grey pixels *)

(** The luminance the code computes for the grey level [v] is below [v]. *)
Definition luminance_short (v : Z) : bool :=
  (luminance (JS.Z2F v) (JS.Z2F v) (JS.Z2F v) <? JS.Z2F v)%float.

(** The grey levels at or above the limit [T], as the code sees them. *)
Definition grey_passes (T v : Z) : bool :=
  (T <? v)%Z || ((T =? v)%Z && negb (luminance_short v)).

(** * Properties *)

(** ** Facts about loops *)

Section Loops.
Context {S : Type}.
Implicit Types (body : nat -> S -> S) (s : S).

Lemma foldl_ext {B} (f g : S -> B -> S) (l : list B) s :
  (forall a b, f a b = g a b) -> foldl f s l = foldl g s l.
Proof.
  intros E. revert s. induction l as [| x l IH]; intros s; simpl; [done |].
  by rewrite E, IH.
Qed.

Lemma iterations_done i stop step : (stop <= i) -> (0 < step) -> iterations i stop step = 0.
Proof.
  intros Hi Hs. unfold iterations.
  replace (stop - i) with 0 by lia. apply Nat.div_small. lia.
Qed.

Lemma iterations_step i stop step :
  (i < stop) -> (0 < step) ->
  iterations i stop step = Datatypes.S (iterations (i + step) stop step).
Proof.
  intros Hi Hs. unfold iterations.
  destruct (le_lt_dec (i + step) stop) as [Hle | Hlt].
  - replace (stop - i + (step - 1)) with ((stop - (i + step) + (step - 1)) + 1 * step) by lia.
    rewrite Nat.div_add by lia. lia.
  - replace (stop - (i + step)) with 0 by lia.
    rewrite (Nat.div_small (0 + (step - 1))) by lia.
    replace (stop - i + (step - 1)) with ((stop - i - 1) + 1 * step) by lia.
    rewrite Nat.div_add by lia. rewrite Nat.div_small by lia. reflexivity.
Qed.

(** With enough fuel the loop is the fold of its body over the indices
    [i], [i + step], [i + 2 * step], ... below [stop]. *)
Lemma for_loop_fold fuel i stop step body s :
  (0 < step) -> (iterations i stop step <= fuel) ->
  for_loop fuel i stop step body s =
  foldl (fun acc k => body (i + k * step) acc) s (seq 0 (iterations i stop step)).
Proof.
  intros Hstep. revert i s.
  induction fuel as [| fuel IH]; intros i s Hfuel.
  - replace (iterations i stop step) with 0 by lia. reflexivity.
  - simpl. destruct (Nat.ltb_spec i stop) as [Hlt | Hge].
    + rewrite (iterations_step i stop step) in * by assumption.
      rewrite IH by lia. simpl.
      rewrite <- fmap_S_seq, foldl_fmap. rewrite Nat.add_0_r.
      apply foldl_ext. intros a k. f_equal. lia.
    + rewrite iterations_done by assumption. reflexivity.
Qed.

Lemma iterations_le i stop step : (0 < step) -> (iterations i stop step <= stop).
Proof.
  intros Hs. unfold iterations.
  destruct (Nat.eq_dec stop 0) as [-> | Hne].
  - simpl. rewrite Nat.div_small; lia.
  - apply Nat.Div0.div_le_upper_bound. nia.
Qed.

(** More fuel than needed changes nothing: the loop has ended by then. *)
Lemma for_loop_fuel fuel fuel' i stop step body s :
  (0 < step) -> (iterations i stop step <= fuel) -> (iterations i stop step <= fuel') ->
  for_loop fuel i stop step body s = for_loop fuel' i stop step body s.
Proof. intros. by rewrite !for_loop_fold. Qed.

(** A property kept by the body is kept by the loop. *)
Lemma for_loop_invariant (P : S -> Prop) fuel i stop step body s :
  (forall j t, P t -> P (body j t)) -> P s -> P (for_loop fuel i stop step body s).
Proof.
  intros Hbody. revert i s. induction fuel as [| fuel IH]; intros i s Hs; simpl; [done |].
  destruct (i <? stop); auto.
Qed.
End Loops.

(** ** The lossy ladder *)

Section Encoders.
Variable env : Browser.
Variable canvas : list Z.
Variable maxBytes : Z.

Lemma candidate_after_cons a todo candidate :
  candidate_after env canvas (a :: todo) candidate =
  candidate_after env canvas todo
    (match produced env canvas a with Some blob => Some blob | None => candidate end).
Proof. reflexivity. Qed.

Lemma compression_loop_exhausted todo candidate made :
  Forall (fun a => over_budget maxBytes (produced env canvas a)) todo ->
  compression_loop env canvas maxBytes todo candidate made =
  (None, candidate_after env canvas todo candidate, made ++ todo).
Proof.
  intros Hall. revert candidate made.
  induction Hall as [| a todo Ha _ IH]; intros candidate made.
  - simpl. by rewrite app_nil_r.
  - rewrite candidate_after_cons. simpl. fold (produced env canvas a).
    destruct (produced env canvas a) as [blob |] eqn:E.
    + specialize (Ha blob eq_refl). destruct (Z.leb_spec (size blob) maxBytes); [lia |].
      rewrite IH. by rewrite <- app_assoc.
    + rewrite IH. by rewrite <- app_assoc.
Qed.

Lemma compression_loop_first_fit before a after blob candidate made :
  Forall (fun a => over_budget maxBytes (produced env canvas a)) before ->
  produced env canvas a = Some blob -> (size blob <= maxBytes)%Z ->
  compression_loop env canvas maxBytes (before ++ a :: after) candidate made =
  (Some blob, Some blob, made ++ before ++ [a]).
Proof.
  intros Hall Ha Hfit. revert candidate made.
  induction Hall as [| a' todo Ha' _ IH]; intros candidate made; simpl.
  - fold (produced env canvas a). rewrite Ha.
    destruct (Z.leb_spec (size blob) maxBytes); [done | lia].
  - fold (produced env canvas a'). destruct (produced env canvas a') as [blob' |] eqn:E.
    + specialize (Ha' blob' eq_refl). destruct (Z.leb_spec (size blob') maxBytes); [lia |].
      rewrite IH. by rewrite <- app_assoc.
    + rewrite IH. by rewrite <- app_assoc.
Qed.

Lemma candidate_after_none todo :
  Forall (fun a => produced env canvas a = None) todo ->
  candidate_after env canvas todo None = None.
Proof.
  unfold candidate_after. induction 1 as [| a todo Ha _ IH]; simpl; [done |]. by rewrite Ha.
Qed.

Lemma candidate_after_last before a after blob candidate :
  produced env canvas a = Some blob -> Forall (fun a => produced env canvas a = None) after ->
  candidate_after env canvas (before ++ a :: after) candidate = Some blob.
Proof.
  intros Ha Hafter. unfold candidate_after. rewrite foldl_app. simpl. rewrite Ha.
  generalize (Some blob) as c. induction Hafter as [| a' after Ha' _ IH]; intros c; simpl; [done |].
  rewrite Ha'. apply IH.
Qed.

Lemma candidate_after_some todo candidate :
  candidate_after env canvas todo candidate = None ->
  Forall (fun a => produced env canvas a = None) todo.
Proof.
  revert candidate. induction todo as [| a todo IH]; intros candidate; [constructor |].
  unfold candidate_after. simpl. destruct (produced env canvas a) as [blob |] eqn:E.
  - intros H. exfalso. revert H. generalize blob. clear. 
    induction todo as [| a' todo IH]; intros blob; simpl; [done |].
    destruct (produced env canvas a'); apply IH.
  - intros H. constructor; [done |]. by apply (IH candidate).
Qed.

Lemma compression_loop_candidate todo blob made :
  (compression_loop env canvas maxBytes todo (Some blob) made).1.2 <> None.
Proof.
  revert blob made. induction todo as [| a todo IH]; intros blob made; simpl; [done |].
  destruct (toBlob env canvas _ _) as [blob' |]; [| apply IH].
  destruct (size blob' <=? maxBytes)%Z; [done | apply IH].
Qed.

Lemma compression_loop_nothing todo made made' :
  compression_loop env canvas maxBytes todo None made = (None, None, made') ->
  Forall (fun a => produced env canvas a = None) todo.
Proof.
  revert made. induction todo as [| a todo IH]; intros made; simpl; [constructor |].
  fold (produced env canvas a). destruct (produced env canvas a) as [blob |] eqn:E.
  - destruct (size blob <=? maxBytes)%Z; [done |].
    intros H. pose proof (compression_loop_candidate todo blob (made ++ [a])) as Hc.
    rewrite H in Hc. done.
  - intros H. constructor; [done | by eapply IH].
Qed.

End Encoders.

Lemma split_at {A} (l : list A) k a :
  l !! k = Some a -> l = take k l ++ a :: drop (Datatypes.S k) l.
Proof. intros H. by rewrite take_drop_middle. Qed.

Lemma Forall_take_lookup {A} (P : A -> Prop) (l : list A) k :
  (forall j a, j < k -> l !! j = Some a -> P a) -> Forall P (take k l).
Proof.
  intros H. apply Forall_lookup. intros j a Hj.
  apply lookup_take_Some in Hj as [Hj Hlt]. eauto.
Qed.

Lemma Forall_drop_lookup {A} (P : A -> Prop) (l : list A) k :
  (forall j a, k <= j -> l !! j = Some a -> P a) -> Forall P (drop k l).
Proof.
  intros H. apply Forall_lookup. intros j a Hj.
  rewrite lookup_drop in Hj. apply (H (k + j)); [lia | done].
Qed.

(** C2. The lossy ladder tries PNG and then JPEG at the qualities 0.95, 0.9,
    ..., 0.3, in this order; the first blob within the budget is returned
    and no later attempt is made; when every produced blob is over the
    budget the last one produced is returned after all fifteen attempts; an
    error is thrown exactly when no attempt produced a blob. *)
Theorem exportWithCompression_ladder (env : Browser) (canvas : list Z) (maxBytes : Z) :
  attempts =
    mkAttempt image_png None ::
    ((fun q => mkAttempt image_jpeg (Some q)) <$>
       [0.95; 0.9; 0.85; 0.8; 0.75; 0.7; 0.65; 0.6; 0.55; 0.5; 0.45; 0.4; 0.35; 0.3]%float)
  /\ (forall k a blob,
        attempts !! k = Some a ->
        produced env canvas a = Some blob -> (size blob <= maxBytes)%Z ->
        (forall j a', j < k -> attempts !! j = Some a' ->
                      over_budget maxBytes (produced env canvas a')) ->
        exportWithCompression env canvas maxBytes =
          (Return blob, take (Datatypes.S k) attempts))
  /\ (forall k a blob,
        (forall a', a' ∈ attempts -> over_budget maxBytes (produced env canvas a')) ->
        attempts !! k = Some a -> produced env canvas a = Some blob ->
        (forall j a', k < j -> attempts !! j = Some a' -> produced env canvas a' = None) ->
        exportWithCompression env canvas maxBytes = (Return blob, attempts))
  /\ ((forall a, a ∈ attempts -> produced env canvas a = None) ->
      exportWithCompression env canvas maxBytes = (Throw ExportFailed, attempts))
  /\ (forall e, fst (exportWithCompression env canvas maxBytes) = Throw e ->
      forall a, a ∈ attempts -> produced env canvas a = None).
Proof.
  split; [reflexivity |]. split; [| split; [| split]].
  - intros k a blob Hk Ha Hfit Hbefore. unfold exportWithCompression.
    rewrite (split_at attempts k a Hk) at 1.
    rewrite (compression_loop_first_fit env canvas maxBytes _ a _ blob); [| | done | done].
    + by rewrite (take_S_r _ _ a).
    + by apply Forall_take_lookup.
  - intros k a blob Hall Hk Ha Hafter. unfold exportWithCompression.
    rewrite compression_loop_exhausted by (by apply Forall_forall).
    rewrite (split_at attempts k a Hk) at 1.
    rewrite (candidate_after_last env canvas _ a _ blob); [done | done |].
    apply Forall_drop_lookup. intros j a' Hj. apply Hafter. lia.
  - intros Hnone. unfold exportWithCompression.
    rewrite compression_loop_exhausted.
    + rewrite candidate_after_none; [done |]. by apply Forall_forall.
    + apply Forall_forall. intros a Ha blob Hb. rewrite Hnone in Hb; [done |]. done.
  - intros e He a Ha. unfold exportWithCompression in He.
    destruct (compression_loop env canvas maxBytes attempts None [])
      as [[returned candidate] made] eqn:E.
    destruct returned as [blob |]; [done |]. destruct candidate as [blob |]; [done |].
    apply compression_loop_nothing in E. by eapply Forall_forall in E.
Qed.

(** ** The lossless ladder *)

Section PngLadder.
Variable env : Browser.
Variable base : list Z.
Variable maxBytes : Z.

Lemma quantization_loop_first_fit before step after blob fallback canvas made :
  Forall (fun s => over_budget maxBytes (png_of env base s)) before ->
  png_of env base step = Some blob -> (size blob <= maxBytes)%Z ->
  quantization_loop env base maxBytes (before ++ step :: after) fallback canvas made =
  (Some blob, Some blob, working_pixels base step, made ++ before ++ [step]).
Proof.
  intros Hall Hs Hfit. revert fallback canvas made.
  induction Hall as [| s' todo Hs' _ IH]; intros fallback canvas made; simpl.
  - fold (png_of env base step). rewrite Hs.
    destruct (Z.leb_spec (size blob) maxBytes); [done | lia].
  - fold (png_of env base s'). destruct (png_of env base s') as [blob' |] eqn:E.
    + specialize (Hs' blob' eq_refl). destruct (Z.leb_spec (size blob') maxBytes); [lia |].
      rewrite IH. by rewrite <- app_assoc.
    + rewrite IH. by rewrite <- app_assoc.
Qed.

Lemma quantization_loop_exhausted todo fallback canvas made :
  Forall (fun s => over_budget maxBytes (png_of env base s)) todo ->
  over_budget maxBytes fallback ->
  exists fallback' canvas',
    quantization_loop env base maxBytes todo fallback canvas made =
      (None, fallback', canvas', made ++ todo) /\
    over_budget maxBytes fallback'.
Proof.
  intros Hall. revert fallback canvas made.
  induction Hall as [| s todo Hs _ IH]; intros fallback canvas made Hfb; simpl.
  - exists fallback, canvas. by rewrite app_nil_r.
  - fold (png_of env base s). destruct (png_of env base s) as [blob |] eqn:E.
    + pose proof (Hs blob eq_refl). destruct (Z.leb_spec (size blob) maxBytes); [lia |].
      destruct (IH (Some blob) (working_pixels base s) (made ++ [s])) as (fb & cv & -> & Hover).
      { by intros ? [= <-]. }
      exists fb, cv. by rewrite <- app_assoc.
    + destruct (IH fallback (working_pixels base s) (made ++ [s]) Hfb) as (fb & cv & -> & Hover).
      exists fb, cv. by rewrite <- app_assoc.
Qed.

Lemma quantization_loop_returned todo fallback canvas made blob :
  (quantization_loop env base maxBytes todo fallback canvas made).1.1.1 = Some blob ->
  (size blob <= maxBytes)%Z.
Proof.
  revert fallback canvas made.
  induction todo as [| s todo IH]; intros fallback canvas made; simpl; [done |].
  destruct (toBlob env _ _ _) as [blob' |]; [| apply IH].
  destruct (Z.leb_spec (size blob') maxBytes); [| apply IH].
  simpl. by intros [= <-].
Qed.

Lemma exportPng_within canvas blob :
  (exportPngWithQuantization env canvas base maxBytes).1.1 = Some blob ->
  (size blob <= maxBytes)%Z.
Proof.
  unfold exportPngWithQuantization.
  pose proof (quantization_loop_returned steps None canvas [] ) as Hret.
  destruct (quantization_loop env base maxBytes steps None canvas [])
    as [[[returned fallback] cv] made].
  destruct returned as [b |]; simpl.
  - intros [= <-]. by apply Hret.
  - destruct fallback as [b |]; [| done].
    destruct (Z.leb_spec (size b) maxBytes); [| done]. by intros [= <-].
Qed.

Lemma exportPng_exhausted canvas :
  (forall s, s ∈ steps -> over_budget maxBytes (png_of env base s)) ->
  (exportPngWithQuantization env canvas base maxBytes).1.1 = None /\
  (exportPngWithQuantization env canvas base maxBytes).2 = steps.
Proof.
  intros Hall. unfold exportPngWithQuantization.
  destruct (quantization_loop_exhausted steps None canvas []) as (fb & cv & -> & Hover).
  { by apply Forall_forall. }
  { by intros ?. }
  simpl. split; [| done]. destruct fb as [b |]; [| done].
  pose proof (Hover b eq_refl). by destruct (Z.leb_spec (size b) maxBytes); [lia |].
Qed.

End PngLadder.

(** ** The pipeline and its encoders *)

Section Render.
Variable Math_atan2 : Q -> Q -> Q.
Variable env : Browser.
Variable canvas : list Z.
Variable image : HTMLImageElement.
Variable options : RenderOptions.
Variable cache : gmap string (list nat).

Lemma renderToCupCanvas_png :
  context2d env = true -> targetFormat options = Some png ->
  outcome (renderToCupCanvas Math_atan2 env canvas image options cache) =
  let base := base_pixels Math_atan2 env image options cache in
  match (exportPngWithQuantization env base base (budget options)).1.1 with
  | Some blob => Return blob
  | None => Throw (PngOverBudget (JS.Math_roundQ (budget options # 1024)))
  end.
Proof.
  intros Hctx Hfmt. unfold renderToCupCanvas, base_pixels, budget. rewrite Hctx, Hfmt. simpl.
  destruct (tone_map _ _ _ _) as [toned cache']. simpl.
  destruct (exportPngWithQuantization _ _ _ _) as [[result cv] made]. simpl.
  by destruct result.
Qed.

Lemma renderToCupCanvas_lossy :
  context2d env = true -> targetFormat options <> Some png ->
  outcome (renderToCupCanvas Math_atan2 env canvas image options cache) =
  (exportWithCompression env (base_pixels Math_atan2 env image options cache) (budget options)).1.
Proof.
  intros Hctx Hfmt. unfold renderToCupCanvas, base_pixels, budget. rewrite Hctx. simpl.
  destruct (tone_map _ _ _ _) as [toned cache']. simpl.
  destruct (targetFormat options) as [[|] |]; done.
Qed.

Lemma renderToCupCanvas_no_context :
  context2d env = false ->
  outcome (renderToCupCanvas Math_atan2 env canvas image options cache) = Throw CanvasUnsupported.
Proof. intros Hctx. unfold renderToCupCanvas. by rewrite Hctx. Qed.

End Render.


(** ** The byte budget of a render *)

Lemma ladder_split (env : Browser) (canvas : list Z) (maxBytes : Z) (todo : list Attempt) :
  Forall (fun a => over_budget maxBytes (produced env canvas a)) todo \/
  exists before a after blob,
    todo = before ++ a :: after /\
    Forall (fun a => over_budget maxBytes (produced env canvas a)) before /\
    produced env canvas a = Some blob /\ (size blob <= maxBytes)%Z.
Proof.
  induction todo as [| a todo IH]; [left; constructor |].
  destruct (produced env canvas a) as [blob |] eqn:E.
  - destruct (Z.leb_spec (size blob) maxBytes) as [Hfit | Hover].
    + right. exists [], a, todo, blob. repeat split; [constructor | done | done].
    + destruct IH as [Hall | (before & a' & after & blob' & -> & Hb & Ha' & Hfit)].
      * left. constructor; [| done]. intros b Hb. rewrite E in Hb. injection Hb as <-. lia.
      * right. exists (a :: before), a', after, blob'. repeat split; try done.
        constructor; [| done]. intros b Hb'. rewrite E in Hb'. injection Hb' as <-. lia.
  - destruct IH as [Hall | (before & a' & after & blob' & -> & Hb & Ha' & Hfit)].
    + left. constructor; [| done]. intros b Hb. by rewrite E in Hb.
    + right. exists (a :: before), a', after, blob'. repeat split; try done.
      constructor; [| done]. intros b Hb'. by rewrite E in Hb'.
Qed.

Lemma exportWithCompression_returned (env : Browser) (canvas : list Z) (maxBytes : Z) blob :
  (exportWithCompression env canvas maxBytes).1 = Return blob ->
  (size blob <= maxBytes)%Z \/
  ((forall a, a ∈ attempts -> over_budget maxBytes (produced env canvas a)) /\
   candidate_after env canvas attempts None = Some blob).
Proof.
  unfold exportWithCompression.
  destruct (ladder_split env canvas maxBytes attempts)
    as [Hall | (before & a & after & blob' & Heq & Hb & Ha & Hfit)].
  - rewrite compression_loop_exhausted by done.
    destruct (candidate_after env canvas attempts None) as [c |] eqn:E; [| done].
    simpl. intros [= <-]. right. split; [| done]. by apply Forall_forall.
  - rewrite Heq.
    rewrite (compression_loop_first_fit env canvas maxBytes before a after blob') by done.
    simpl. intros [= <-]. by left.
Qed.

(** C1, as the code has it.  A render that returns a blob returns one within
    the budget, except on the lossy path when every blob the encoder
    produced is over the budget: the blob returned is then the last one
    produced, over the budget. *)
Theorem renderToCupCanvas_budget (Math_atan2 : Q -> Q -> Q) (env : Browser) (canvas : list Z)
    (image : HTMLImageElement) (options : RenderOptions) (cache : gmap string (list nat))
    (blob : Blob) :
  outcome (renderToCupCanvas Math_atan2 env canvas image options cache) = Return blob ->
  (size blob <= budget options)%Z \/
  (targetFormat options <> Some png /\
   (forall a, a ∈ attempts ->
      over_budget (budget options)
        (produced env (base_pixels Math_atan2 env image options cache) a)) /\
   candidate_after env (base_pixels Math_atan2 env image options cache) attempts None = Some blob /\
   (budget options < size blob)%Z).
Proof.
  destruct (context2d env) eqn:Hctx.
  2: { by rewrite renderToCupCanvas_no_context. }
  assert (Hcases : targetFormat options = Some png \/ targetFormat options <> Some png).
  { destruct (targetFormat options) as [[|] |]; [by left | by right | by right]. }
  destruct Hcases as [Hpng | Hlossy].
  - rewrite renderToCupCanvas_png by done. simpl.
    destruct (exportPngWithQuantization _ _ _ _).1.1 as [b |] eqn:E; [| done].
    intros [= <-]. left. by eapply exportPng_within.
  - rewrite renderToCupCanvas_lossy by done.
    intros H. apply exportWithCompression_returned in H as [Hfit | [Hall Hlast]]; [by left |].
    destruct (Z.le_gt_cases (size blob) (budget options)); [by left |].
    right. repeat split; done.
Qed.

Lemma renderToCupCanvas_budget_witness :
  (size (mkBlob 1000 image_png) <= budget (plain_options None None))%Z \/
  (targetFormat (plain_options None None) <> Some png /\
   (forall a, a ∈ attempts ->
      over_budget (budget (plain_options None None))
        (produced (flat_browser 1000)
           (base_pixels diamond_angle (flat_browser 1000) no_image (plain_options None None) ∅) a)) /\
   candidate_after (flat_browser 1000)
     (base_pixels diamond_angle (flat_browser 1000) no_image (plain_options None None) ∅)
     attempts None = Some (mkBlob 1000 image_png) /\
   (budget (plain_options None None) < size (mkBlob 1000 image_png))%Z).
Proof.
  apply (renderToCupCanvas_budget diamond_angle (flat_browser 1000) [] no_image
           (plain_options None None) ∅ (mkBlob 1000 image_png)).
  vm_compute. reflexivity.
Defined.

(** C1 as stated fails: on the lossy path a render can return a blob larger
    than the budget (here 300000 bytes against the default 204800). *)
Lemma renderToCupCanvas_over_budget :
  ~ (forall (Math_atan2 : Q -> Q -> Q) env canvas image options cache blob,
       outcome (renderToCupCanvas Math_atan2 env canvas image options cache) = Return blob ->
       (size blob <= budget options)%Z).
Proof.
  intros H.
  specialize (H diamond_angle (flat_browser 300000) [] no_image (plain_options None None) ∅
                (mkBlob 300000 image_jpeg)).
  assert (Hrun : outcome (renderToCupCanvas diamond_angle (flat_browser 300000) [] no_image
                            (plain_options None None) ∅) = Return (mkBlob 300000 image_jpeg)).
  { vm_compute. reflexivity. }
  specialize (H Hrun). vm_compute in H. by apply H.
Qed.

(** ** Facts about binary64 arithmetic *)

Section Binary64.

Lemma shr_1_nonneg mrs : (0 <= shr_m mrs)%Z -> (0 <= shr_m (shr_1 mrs))%Z.
Proof. destruct mrs as [[| [p | p |] | p] r s]; simpl; lia. Qed.

Lemma iter_pos_shr_nonneg n mrs :
  (0 <= shr_m mrs)%Z -> (0 <= shr_m (SpecFloat.iter_pos shr_1 n mrs))%Z.
Proof.
  revert mrs. induction n as [n IH | n IH |]; intros mrs H; simpl.
  - apply IH, IH, shr_1_nonneg, H.
  - apply IH, IH, H.
  - apply shr_1_nonneg, H.
Qed.

Lemma shr_nonneg mrs e n : (0 <= shr_m mrs)%Z -> (0 <= shr_m (shr mrs e n).1)%Z.
Proof. destruct n; simpl; auto using iter_pos_shr_nonneg. Qed.

Lemma shr_fexp_nonneg m e l : (0 <= m)%Z -> (0 <= shr_m (shr_fexp prec emax m e l).1)%Z.
Proof.
  intros H. unfold shr_fexp. apply shr_nonneg.
  destruct l as [| []]; simpl; lia.
Qed.

Lemma round_nearest_even_nonneg m l : (0 <= m)%Z -> (0 <= round_nearest_even m l)%Z.
Proof.
  intros H. destruct l as [| []]; simpl; try lia. destruct (Z.even m); lia.
Qed.

Lemma binary_round_aux_nonneg m e l :
  (0 <= m)%Z -> sf_nonneg (binary_round_aux prec emax false m e l) = true.
Proof.
  intros H. unfold binary_round_aux.
  pose proof (shr_fexp_nonneg m e l H) as H1.
  destruct (shr_fexp prec emax m e l) as [mrs' e'].
  pose proof (shr_fexp_nonneg (round_nearest_even (shr_m mrs') (loc_of_shr_record mrs')) e' loc_Exact
                (round_nearest_even_nonneg _ _ H1)) as H2.
  destruct (shr_fexp prec emax _ e' loc_Exact) as [mrs'' e''].
  simpl in H2. destruct (shr_m mrs''); [done | | lia].
  by destruct (Z.leb e'' _).
Qed.

Lemma SFadd_nonneg x y :
  sf_nonneg x = true -> sf_nonneg y = true -> sf_nonneg (SF64add x y) = true.
Proof.
  destruct x as [[] | [] | | [] mx ex], y as [[] | [] | | [] my ey]; try done.
  intros _ _. unfold SF64add, SFadd. simpl cond_Zopp.
  unfold binary_normalize.
  destruct (Z.add _ _) as [| m | m] eqn:E; [done | | lia].
  unfold binary_round.
  destruct (shl_align m _ _) as [mz ez]. by apply binary_round_aux_nonneg.
Qed.

Lemma leb_zero_nonneg x : (0 <=? x)%float = sf_nonneg (Prim2SF x).
Proof.
  rewrite FloatAxioms.leb_spec. change (Prim2SF 0) with (S754_zero false).
  by destruct (Prim2SF x) as [[] | [] | | [] m e].
Qed.

Lemma add_nonneg x y :
  (0 <=? x)%float = true -> (0 <=? y)%float = true -> (0 <=? x + y)%float = true.
Proof. rewrite !leb_zero_nonneg, FloatAxioms.add_spec. apply SFadd_nonneg. Qed.

End Binary64.

(** ** Checking a property of every byte *)

Lemma check_below_spec n f z :
  check_below n f = true -> (0 <= z < Z.of_nat n)%Z -> f z = true.
Proof.
  induction n as [| k IH]; simpl; [lia |].
  intros [Hk Hrest]%andb_true_iff Hz.
  destruct (decide (z = Z.of_nat k)) as [-> | Hne]; [done |]. apply IH; [done | lia].
Qed.

Lemma check_channel f z : check_below 256 f = true -> is_channel z -> f z = true.
Proof. intros H Hz. apply (check_below_spec 256 f z H). unfold is_channel in Hz. lia. Qed.

(** ** Loops over the pixels of a buffer *)

Section PixelLoop.
Variable f : float -> float -> float -> Z * Z * Z.
Variable d : list Z.
Variable n : nat.
Hypothesis Hlen : length d = 4 * n.

Lemma update_pixel_length i l : length (update_pixel f i l) = length l.
Proof. unfold update_pixel. destruct (f _ _ _) as [[r g] b]. by rewrite !length_insert. Qed.

Lemma pixel_fold m :
  m <= n ->
  let out := foldl (fun acc k => update_pixel f (0 + k * 4) acc) d (seq 0 m) in
  length out = length d /\
  (forall p, p < m -> pixel_done f d out p) /\
  (forall j, 4 * m <= j \/ j mod 4 = 3 -> out !! j = d !! j).
Proof.
  induction m as [| m IH]; intros Hm.
  - simpl. split; [done |]. split; [lia | done].
  - destruct IH as (IHlen & IHdone & IHrest); [lia |].
    cbv zeta. rewrite seq_S, foldl_snoc. rewrite !Nat.add_0_l.
    set (cur := foldl _ d (seq 0 m)) in *.
    assert (Hload : forall j, 4 * m <= j -> load cur j = load d j).
    { intros j Hj. unfold load. by rewrite IHrest by (left; lia). }
    split; [by rewrite update_pixel_length |].
    unfold update_pixel. rewrite !Hload by lia.
    replace (m * 4) with (4 * m) by lia.
    unfold pixel_done in *.
    split.
    + intros p Hp. destruct (decide (p = m)) as [-> | Hne].
      * destruct (f _ _ _) as [[r g] b].
        rewrite list_lookup_insert_eq by (rewrite !length_insert; lia).
        rewrite list_lookup_insert_ne by lia.
        rewrite list_lookup_insert_eq by (rewrite !length_insert; lia).
        rewrite !list_lookup_insert_ne by lia.
        rewrite list_lookup_insert_eq by lia.
        done.
      * specialize (IHdone p ltac:(lia)).
        destruct (f (load d (4 * m)) _ _) as [[r g] b].
        destruct (f (load d (4 * p)) _ _) as [[r' g'] b'].
        rewrite !list_lookup_insert_ne by lia. done.
    + intros j Hj. destruct (f _ _ _) as [[r g] b].
      assert (j <> 4 * m /\ j <> 4 * m + 1 /\ j <> 4 * m + 2) as (? & ? & ?).
      { destruct Hj as [Hj | Hj]; [lia |].
        pose proof (Nat.div_mod_eq j 4). lia. }
      rewrite !list_lookup_insert_ne by lia. apply IHrest.
      destruct Hj; [left; lia | by right].
Qed.

Lemma iterations_pixels : iterations 0 (4 * n) 4 = n.
Proof.
  unfold iterations. replace (4 * n - 0 + (4 - 1)) with (3 + n * 4) by lia.
  rewrite Nat.div_add by lia. reflexivity.
Qed.

(** The loop visits every pixel once and leaves the alpha entries alone. *)
Lemma pixel_loop body :
  (forall i l, body i l = update_pixel f i l) ->
  let out := for_loop (length d) 0 (length d) 4 body d in
  length out = length d /\
  (forall p, p < n -> pixel_done f d out p) /\
  (forall p, out !! (4 * p + 3) = d !! (4 * p + 3)).
Proof.
  intros Hbody. cbv zeta. rewrite Hlen.
  rewrite for_loop_fold by (rewrite ?iterations_pixels; lia).
  rewrite iterations_pixels.
  rewrite (foldl_ext _ (fun acc k => update_pixel f (0 + k * 4) acc)) by (intros; apply Hbody).
  destruct (pixel_fold n (le_n n)) as (H1 & H2 & H3). rewrite <- Hlen.
  split; [done |]. split; [done |].
  intros p. apply H3. right.
  rewrite Nat.add_comm, Nat.mul_comm, Nat.Div0.mod_add. reflexivity.
Qed.

End PixelLoop.

(** ** Binary threshold *)

Lemma applyBinaryThreshold_body_update limit i d :
  applyBinaryThreshold_body limit i d =
  update_pixel (fun r g b => let v := threshold_value limit r g b in (v, v, v)) i d.
Proof.
  unfold applyBinaryThreshold_body, update_pixel, store, threshold_value.
  by destruct (_ <=? _)%float.
Qed.

Lemma threshold_limit_range t : (0 <= threshold_limit t <= 255)%Z.
Proof. unfold threshold_limit. lia. Qed.



Lemma wf_pixel_split n j : j < 4 * n -> exists p c, p < n /\ c < 4 /\ j = 4 * p + c.
Proof.
  intros Hj. exists (j / 4), (j mod 4).
  pose proof (Nat.div_mod_eq j 4). pose proof (Nat.mod_upper_bound j 4). 
  split; [apply Nat.Div0.div_lt_upper_bound; lia | lia].
Qed.

(** The output of binary threshold, pixel by pixel. *)
Lemma applyBinaryThreshold_pixels (img : ImageData) (threshold : option Q) :
  wf_image img ->
  let out := applyBinaryThreshold img threshold in
  let T := threshold_limit (default default_threshold threshold) in
  (width out = width img /\ height out = height img /\ wf_image out)
  /\ (forall p, p < width img * height img ->
        let v := threshold_value T (load (data img) (4 * p)) (load (data img) (4 * p + 1))
                   (load (data img) (4 * p + 2)) in
        data out !! (4 * p) = Some v /\
        data out !! (4 * p + 1) = Some v /\
        data out !! (4 * p + 2) = Some v /\
        data out !! (4 * p + 3) = data img !! (4 * p + 3)).
Proof.
  intros Hwf. cbv zeta. unfold wf_image in *.
  destruct (pixel_loop _ (data img) _ Hwf
              (applyBinaryThreshold_body (threshold_limit (default default_threshold threshold)))
              (applyBinaryThreshold_body_update _)) as (Hlen & Hdone & Halpha).
  unfold applyBinaryThreshold. cbn [data width height].
  split; [by rewrite Hlen |].
  intros p Hp. specialize (Hdone p Hp). unfold pixel_done in Hdone.
  destruct Hdone as (H0 & H1 & H2). by rewrite H0, H1, H2, Halpha.
Qed.




(** *** Idempotence *)

Lemma products_nonneg v :
  is_channel v ->
  (0 <=? JS.Z2F v * 0.299)%float = true /\
  (0 <=? JS.Z2F v * 0.587)%float = true /\
  (0 <=? JS.Z2F v * 0.114)%float = true.
Proof.
  intros Hv.
  assert (H : check_below 256 (fun v =>
            (0 <=? JS.Z2F v * 0.299)%float && (0 <=? JS.Z2F v * 0.587)%float &&
            (0 <=? JS.Z2F v * 0.114)%float) = true) by (vm_compute; reflexivity).
  apply check_channel with (z := v) in H; [| done].
  by apply andb_true_iff in H as [[? ?]%andb_true_iff ?].
Qed.

(** The luminance of a pixel of an 8-bit buffer is never negative (nor NaN). *)
Lemma luminance_nonneg r g b :
  is_channel r -> is_channel g -> is_channel b ->
  (0 <=? luminance (JS.Z2F r) (JS.Z2F g) (JS.Z2F b))%float = true.
Proof.
  intros Hr Hg Hb. unfold luminance.
  destruct (products_nonneg r Hr) as (Hr' & _ & _).
  destruct (products_nonneg g Hg) as (_ & Hg' & _).
  destruct (products_nonneg b Hb) as (_ & _ & Hb').
  by repeat apply add_nonneg.
Qed.

Lemma white_stays_white limit :
  (0 <= limit <= 255)%Z -> threshold_value limit 255 255 255 = 255%Z.
Proof.
  intros H.
  assert (Hc : check_below 256 (fun l => (threshold_value l 255 255 255 =? 255)%Z) = true)
    by (vm_compute; reflexivity).
  apply check_below_spec with (z := limit) in Hc; lia.
Qed.

Lemma black_stays_black limit :
  (1 <= limit <= 255)%Z -> threshold_value limit 0 0 0 = 0%Z.
Proof.
  intros H.
  assert (Hc : check_below 256 (fun l => (l =? 0)%Z || (threshold_value l 0 0 0 =? 0)%Z) = true)
    by (vm_compute; reflexivity).
  apply check_below_spec with (z := limit) in Hc; lia.
Qed.

Lemma threshold_value_cases limit r g b :
  threshold_value limit r g b = 0%Z \/ threshold_value limit r g b = 255%Z.
Proof. unfold threshold_value. destruct (_ <=? _)%float; auto. Qed.

Lemma load_channel (d : list Z) i v : d !! i = Some v -> load d i = JS.Z2F v.
Proof. unfold load. by intros ->. Qed.

(** Thresholding a thresholded pixel gives the same pixel. *)
Lemma threshold_value_twice limit r g b :
  (0 <= limit <= 255)%Z -> is_channel r -> is_channel g -> is_channel b ->
  let v := threshold_value limit (JS.Z2F r) (JS.Z2F g) (JS.Z2F b) in
  threshold_value limit (JS.Z2F v) (JS.Z2F v) (JS.Z2F v) = v.
Proof.
  intros Hl Hr Hg Hb. cbv zeta.
  unfold threshold_value at 2 3 4 5.
  destruct (JS.Z2F limit <=? _)%float eqn:E.
  - by apply white_stays_white.
  - destruct (decide (limit = 0%Z)) as [-> | Hne].
    + change (JS.Z2F 0) with 0%float in E. by rewrite (luminance_nonneg r g b) in E.
    + apply black_stays_black. lia.
Qed.

(** C6. After binary threshold every colour entry is 0 or 255, and applying
    it again with the same threshold changes nothing. *)
Theorem applyBinaryThreshold_idempotent (img : ImageData) (threshold : option Q) :
  wf_image img -> channels (data img) ->
  let out := applyBinaryThreshold img threshold in
  (forall p c, p < width img * height img -> c < 3 ->
     data out !! (4 * p + c) = Some 0%Z \/ data out !! (4 * p + c) = Some 255%Z)
  /\ applyBinaryThreshold out threshold = out.
Proof.
  intros Hwf Hch. cbv zeta.
  destruct (applyBinaryThreshold_pixels img threshold Hwf) as ((Hw & Hh & Hwf') & Hpix).
  destruct (applyBinaryThreshold_pixels _ threshold Hwf') as ((Hw2 & Hh2 & Hwf2) & Hpix2).
  set (out := applyBinaryThreshold img threshold) in *.
  set (T := threshold_limit (default default_threshold threshold)) in *.
  cbv zeta in Hpix, Hpix2. split.
  - intros p c Hp Hc. destruct (Hpix p Hp) as (H0 & H1 & H2 & _).
    unfold tone in *.
    assert (c = 0 \/ c = 1 \/ c = 2) as [-> | [-> | ->]] by lia;
      rewrite ?Nat.add_0_r, ?H0, ?H1, ?H2;
      destruct (threshold_value_cases T (load (data img) (4 * p)) (load (data img) (4 * p + 1))
                  (load (data img) (4 * p + 2))) as [-> | ->]; auto.
  - set (out2 := applyBinaryThreshold out threshold) in *.
    assert (Hdata : data out2 = data out).
    { apply list_eq. intros j.
      destruct (decide (j < 4 * (width img * height img))) as [Hj | Hj].
      2: { unfold wf_image in *.
           rewrite !lookup_ge_None_2; [done | |]; rewrite ?Hw, ?Hh, ?Hw2, ?Hh2 in *; lia. }
      destruct (wf_pixel_split _ j Hj) as (p & c & Hp & Hc & ->).
      destruct (Hpix p Hp) as (H0 & H1 & H2 & H3).
      destruct (Hpix2 p ltac:(by rewrite Hw, Hh)) as (G0 & G1 & G2 & G3).
      assert (Hsome : forall c, c < 3 ->
                exists v, data img !! (4 * p + c) = Some v /\ is_channel v).
      { intros c' Hc'. destruct (lookup_lt_is_Some_2 (data img) (4 * p + c')) as [v Hv].
        - unfold wf_image in Hwf. lia.
        - exists v. split; [done |]. eapply Forall_lookup_1; eauto. }
      destruct (Hsome 0 ltac:(lia)) as (r & Hr & Hcr). rewrite Nat.add_0_r in Hr.
      destruct (Hsome 1 ltac:(lia)) as (g & Hg & Hcg).
      destruct (Hsome 2 ltac:(lia)) as (b & Hb & Hcb).
      rewrite (load_channel _ _ _ Hr), (load_channel _ _ _ Hg), (load_channel _ _ _ Hb) in *.
      rewrite (load_channel _ _ _ H0), (load_channel _ _ _ H1), (load_channel _ _ _ H2) in *.
      pose proof (threshold_value_twice T r g b (threshold_limit_range _) Hcr Hcg Hcb) as Htw.
      cbv zeta in Htw. 
      assert (c = 0 \/ c = 1 \/ c = 2 \/ c = 3) as [-> | [-> | [-> | ->]]] by lia;
        rewrite ?Nat.add_0_r; congruence. }
    destruct out2 as [d2 w2 h2], out as [d1 w1 h1]. simpl in *. congruence.
Qed.

Lemma applyBinaryThreshold_idempotent_witness :
  let img := mkImageData [200; 200; 200; 9; 1; 1; 1; 7]%Z 2 1 in
  applyBinaryThreshold (applyBinaryThreshold img (Some 170%Q)) (Some 170%Q) =
  applyBinaryThreshold img (Some 170%Q).
Proof.
  intros img.
  destruct (applyBinaryThreshold_idempotent img (Some 170%Q)) as [_ H].
  - reflexivity.
  - repeat constructor; unfold is_channel; lia.
  - exact H.
Defined.

(** ** Colour quantization *)

Lemma load_insert_ne (d : list Z) i j x : i <> j -> load (<[i := x]> d) j = load d j.
Proof. intros H. unfold load. by rewrite list_lookup_insert_ne. Qed.

Lemma quantizeColors_body_update divisor i d :
  quantizeColors_body divisor i d =
  update_pixel (fun r g b => (quantized divisor r, quantized divisor g, quantized divisor b)) i d.
Proof.
  unfold quantizeColors_body, update_pixel, store, quantized.
  rewrite !load_insert_ne by lia.
  rewrite (list_insert_insert_ne _ (i + 2) (i + 1)) by lia.
  rewrite (list_insert_insert_ne _ (i + 2) i) by lia.
  by rewrite (list_insert_insert_ne _ (i + 1) i) by lia.
Qed.

(** In binary64, on the bytes and for every integer step of 1..255, the
    quotient rounds as the exact quotient does. *)
Lemma quantized_integer s v :
  (0 < s <= 255)%Z -> is_channel v ->
  quantized (JS.Z2F s) (JS.Z2F v) = nearest_multiple s v.
Proof.
  intros Hs Hv.
  assert (H : check_below 256 (fun s => (s =? 0)%Z ||
            check_below 256 (fun v =>
              (quantized (JS.Z2F s) (JS.Z2F v) =? nearest_multiple s v)%Z)) = true)
    by (vm_compute; reflexivity).
  apply check_below_spec with (z := s) in H; [| lia].
  apply orb_true_iff in H as [H | H]; [lia |].
  apply check_channel with (z := v) in H; [lia | done].
Qed.

Lemma step_positive s : (0 < s <= 255)%Z -> (JS.Z2F s <=? 0)%float = false.
Proof.
  intros Hs.
  assert (H : check_below 256 (fun s => (s =? 0)%Z || negb (JS.Z2F s <=? 0)%float) = true)
    by (vm_compute; reflexivity).
  apply check_below_spec with (z := s) in H; [| lia].
  apply orb_true_iff in H as [H | H]; [lia |]. by apply negb_true_iff.
Qed.



Section Quantize.
Variable d : list Z.
Variable n : nat.
Hypothesis Hlen : length d = 4 * n.

Lemma quantizeColors_pixels step :
  let divisor := if (step <=? 0)%float then 1%float else step in
  let out := quantizeColors d step in
  length out = length d /\
  (forall p c, p < n -> c < 3 ->
     out !! (4 * p + c) = Some (quantized divisor (load d (4 * p + c)))) /\
  (forall p, out !! (4 * p + 3) = d !! (4 * p + 3)).
Proof.
  cbv zeta. unfold quantizeColors.
  destruct (pixel_loop _ d n Hlen _ (quantizeColors_body_update
              (if (step <=? 0)%float then 1%float else step))) as (H1 & H2 & H3).
  split; [done |]. split; [| done].
  intros p c Hp Hc. destruct (H2 p Hp) as (G0 & G1 & G2).
  assert (c = 0 \/ c = 1 \/ c = 2) as [-> | [-> | ->]] by lia; rewrite ?Nat.add_0_r; done.
Qed.

End Quantize.



(** ** Out-of-range options *)










(** ** The halftone pattern *)

(** *** The cache key *)

Lemma pretty_N_go_digits x s : digits_only s -> digits_only (pretty_N_go x s).
Proof.
  revert s. induction (N.lt_wf_0 x) as [x _ IH]; intros s Hs.
  assert (x = 0 \/ 0 < x)%N as [-> | Hpos] by lia; [by rewrite pretty_N_go_0 |].
  rewrite pretty_N_go_step by done. apply IH; [by apply N.div_lt |].
  split; [| done]. unfold pretty_N_char. by repeat case_match.
Qed.

Lemma pretty_nat_digits (n : nat) : digits_only (pretty n).
Proof.
  unfold pretty, pretty_nat, pretty, pretty_N.
  case_decide; [by split | by apply pretty_N_go_digits].
Qed.

Lemma separator_split a a' b b' :
  digits_only a -> digits_only a' ->
  a +:+ String "x" b = a' +:+ String "x" b' -> a = a' /\ b = b'.
Proof.
  revert a'. induction a as [| c a IH]; intros [| c' a'] Ha Ha'; simpl.
  - by intros [= ->].
  - intros [= <- _]. by destruct Ha'.
  - intros [= -> _]. by destruct Ha.
  - intros [= -> H]. destruct Ha as [_ Ha], Ha' as [_ Ha'].
    destruct (IH a' Ha Ha' H) as [-> ->]. done.
Qed.

Lemma cache_key_inj w h w' h' : cache_key w h = cache_key w' h' -> w = w' /\ h = h'.
Proof.
  unfold cache_key. intros H.
  apply separator_split in H as [Hw Hh]; try apply pretty_nat_digits.
  split; by apply (inj pretty).
Qed.

(** *** The entries *)

Section Pattern.
Variable Math_atan2 : Q -> Q -> Q.

Lemma for_loop_unit {S : Type} n (body : nat -> S -> S) s :
  for_loop n 0 n 1 body s = foldl (fun acc k => body k acc) s (seq 0 n).
Proof.
  assert (Hn : iterations 0 n 1 = n).
  { unfold iterations. rewrite Nat.sub_0_r, Nat.add_0_r. apply Nat.div_1_r. }
  rewrite for_loop_fold by lia. rewrite Hn.
  apply foldl_ext. intros a k. f_equal. lia.
Qed.

Lemma foldl_push {A B} (f : B -> A) (l : list B) (acc : list A) :
  foldl (fun acc x => acc ++ [f x]) acc l = acc ++ (f <$> l).
Proof.
  revert acc. induction l as [| x l IH]; intros acc; simpl; [by rewrite app_nil_r |].
  rewrite IH. by rewrite <- app_assoc.
Qed.

Lemma foldl_append {A B} (f : B -> list A) (l : list B) (acc : list A) :
  foldl (fun acc x => acc ++ f x) acc l = acc ++ mjoin (f <$> l).
Proof.
  revert acc. induction l as [| x l IH]; intros acc; simpl; [by rewrite app_nil_r |].
  rewrite IH. by rewrite <- app_assoc.
Qed.

(** The entries are pushed row by row. *)
Lemma halftone_entries_rows w h :
  halftone_entries Math_atan2 w h =
  mjoin ((fun y => (fun x => entry_at Math_atan2 w h x y) <$> seq 0 w) <$> seq 0 h).
Proof.
  unfold halftone_entries. rewrite for_loop_unit.
  rewrite (foldl_ext _ (fun acc y => acc ++ ((fun x => entry_at Math_atan2 w h x y) <$> seq 0 w))).
  - by rewrite foldl_append.
  - intros acc y. rewrite for_loop_unit. apply foldl_push.
Qed.

Lemma rows_indices w h :
  mjoin ((fun y => (fun x => y * w + x) <$> seq 0 w) <$> seq 0 h) = seq 0 (h * w).
Proof.
  induction h as [| h IH]; [done |].
  rewrite seq_S, fmap_app, join_app, IH. simpl. rewrite app_nil_r.
  rewrite fmap_add_seq, Nat.add_0_r.
  replace (w + h * w) with (h * w + w) by lia. by rewrite seq_app.
Qed.

Lemma fmap_mjoin {A B} (f : A -> B) (ls : list (list A)) :
  f <$> mjoin ls = mjoin (fmap f <$> ls).
Proof. induction ls as [| l ls IH]; simpl; [done |]. by rewrite fmap_app, IH. Qed.

Lemma halftone_entries_indices w h :
  index <$> halftone_entries Math_atan2 w h = seq 0 (w * h).
Proof.
  rewrite halftone_entries_rows, (Nat.mul_comm w h), <- rows_indices.
  rewrite fmap_mjoin, <- list_fmap_compose. f_equal.
  apply list_fmap_ext. intros _ y _. simpl. rewrite <- list_fmap_compose.
  by apply list_fmap_ext.
Qed.

(** Every entry is the entry of its own pixel. *)
Lemma halftone_entries_at w h e :
  e ∈ halftone_entries Math_atan2 w h ->
  e = entry_at Math_atan2 w h (index e `mod` w) (index e / w) /\ index e < w * h.
Proof.
  rewrite halftone_entries_rows. intros He.
  apply list_elem_of_join in He as (row & He & Hrow).
  apply list_elem_of_fmap in Hrow as (y & -> & Hy).
  apply list_elem_of_fmap in He as (x & -> & Hx).
  apply elem_of_seq in Hx, Hy. simpl.
  assert (Hmod : (y * w + x) `mod` w = x).
  { rewrite Nat.add_comm, Nat.Div0.mod_add. apply Nat.mod_small. lia. }
  assert (Hdiv : (y * w + x) / w = y).
  { rewrite Nat.add_comm, Nat.div_add by lia. rewrite Nat.div_small; lia. }
  rewrite Hmod, Hdiv. split; [done | nia].
Qed.

End Pattern.

(** *** The sort *)

Section Sorting.
Context {A : Type}.
Variable cmp : A -> A -> Q.
Variable R : A -> A -> Prop.
Hypothesis cmp_le : forall x y, Qle_bool (cmp x y) 0 = true -> R x y.
Hypothesis cmp_gt : forall x y, Qle_bool (cmp x y) 0 = false -> R y x.

Lemma sort_insert_perm x l : sort_insert cmp x l ≡ₚ x :: l.
Proof.
  induction l as [| y l IH]; simpl; [done |].
  destruct (Qle_bool (cmp x y) 0); [done |]. rewrite IH. apply perm_swap.
Qed.

Lemma Array_sort_perm l : Array_sort cmp l ≡ₚ l.
Proof.
  induction l as [| x l IH]; simpl; [done |]. by rewrite sort_insert_perm, IH.
Qed.

Lemma sort_insert_HdRel a x l : R a x -> HdRel R a l -> HdRel R a (sort_insert cmp x l).
Proof.
  intros Hax Hal. destruct l as [| y l]; simpl; [by constructor |].
  destruct (Qle_bool (cmp x y) 0); constructor; [done |]. by inversion Hal.
Qed.

Lemma sort_insert_sorted x l : Sorted R l -> Sorted R (sort_insert cmp x l).
Proof.
  induction 1 as [| y l Hl IH Hhd]; simpl; [by repeat constructor |].
  destruct (Qle_bool (cmp x y) 0) eqn:E.
  - constructor; [by constructor | constructor; by apply cmp_le].
  - constructor; [done |]. apply sort_insert_HdRel; [by apply cmp_gt | done].
Qed.

Lemma Array_sort_sorted l : Sorted R (Array_sort cmp l).
Proof. induction l as [| x l IH]; simpl; [constructor | by apply sort_insert_sorted]. Qed.

End Sorting.

Lemma compare_entries_le a b : Qle_bool (compare_entries a b) 0 = true -> entry_le a b.
Proof.
  unfold compare_entries, entry_le. rewrite Qle_bool_iff.
  destruct (Qeq_bool (distance a) (distance b)) eqn:E.
  - apply Qeq_bool_iff in E. intros H. right. split; [done | lra].
  - apply Qeq_bool_neq in E. intros H. left. lra.
Qed.

Lemma compare_entries_gt a b : Qle_bool (compare_entries a b) 0 = false -> entry_le b a.
Proof.
  unfold compare_entries, entry_le. intros H.
  assert (Hgt : ~ (compare_entries a b <= 0)%Q).
  { intros Hle. apply Qle_bool_iff in Hle. unfold compare_entries in Hle. congruence. }
  unfold compare_entries in Hgt.
  destruct (Qeq_bool (distance a) (distance b)) eqn:E.
  - apply Qeq_bool_iff in E. right. split; lra.
  - left. lra.
Qed.

#[local] Instance entry_le_trans : Transitive entry_le.
Proof.
  intros a b c [H1 | [H1 H1']] [H2 | [H2 H2']]; unfold entry_le;
    [left | left | left | right]; lra.
Qed.

Lemma StronglySorted_fmap {A B} (R : A -> A -> Prop) (f : A -> B) (g : B -> A) (l : list A) :
  (forall e, e ∈ l -> e = g (f e)) ->
  StronglySorted R l -> StronglySorted (fun i j => R (g i) (g j)) (f <$> l).
Proof.
  intros Hg. induction 1 as [| a l Hl IH Hall]; simpl; [constructor |].
  constructor.
  - apply IH. intros e He. apply Hg. by right.
  - apply Forall_fmap, Forall_forall. intros e He. simpl.
    rewrite <- (Hg a) by left. rewrite <- (Hg e) by (by right).
    rewrite Forall_forall in Hall. by apply Hall.
Qed.

(** *** The pattern and its cache *)

Section PatternSpec.
Variable Math_atan2 : Q -> Q -> Q.

Lemma ToUint16_small i : (Z.of_nat i < 65536)%Z -> ToUint16 i = i.
Proof. intros H. unfold ToUint16. rewrite Z.mod_small by lia. lia. Qed.

Lemma sorted_entries_perm w h :
  Array_sort compare_entries (halftone_entries Math_atan2 w h) ≡ₚ
  halftone_entries Math_atan2 w h.
Proof. apply Array_sort_perm. Qed.

Lemma compute_pattern_indices w h :
  (Z.of_nat (w * h) <= 65536)%Z ->
  compute_pattern Math_atan2 w h =
  index <$> Array_sort compare_entries (halftone_entries Math_atan2 w h).
Proof.
  intros Hsize. unfold compute_pattern.
  rewrite <- (list_fmap_id (index <$> _)) at 2.
  apply list_fmap_ext. intros _ i Hi%list_elem_of_lookup_2. simpl.
  apply list_elem_of_fmap in Hi as (e & -> & He).
  rewrite sorted_entries_perm in He. apply halftone_entries_at in He as [_ He].
  apply ToUint16_small. lia.
Qed.

Lemma compute_pattern_perm w h :
  (Z.of_nat (w * h) <= 65536)%Z -> compute_pattern Math_atan2 w h ≡ₚ seq 0 (w * h).
Proof.
  intros Hsize. rewrite compute_pattern_indices by done.
  rewrite sorted_entries_perm. by rewrite halftone_entries_indices.
Qed.

Lemma compute_pattern_sorted w h :
  (Z.of_nat (w * h) <= 65536)%Z ->
  StronglySorted (fun i j => entry_le (pixel_entry Math_atan2 w h i) (pixel_entry Math_atan2 w h j))
    (compute_pattern Math_atan2 w h).
Proof.
  intros Hsize. rewrite compute_pattern_indices by done.
  apply StronglySorted_fmap.
  - intros e He. rewrite sorted_entries_perm in He. by apply halftone_entries_at in He as [He _].
  - apply Sorted_StronglySorted; [apply entry_le_trans |].
    apply Array_sort_sorted; [apply compare_entries_le | apply compare_entries_gt].
Qed.

Lemma getHalftonePattern_ok w h cache :
  cache_ok Math_atan2 cache ->
  (getHalftonePattern Math_atan2 w h cache).1 = compute_pattern Math_atan2 w h /\
  cache_ok Math_atan2 (getHalftonePattern Math_atan2 w h cache).2.
Proof.
  intros Hok. unfold getHalftonePattern.
  destruct (cache !! cache_key w h) as [p |] eqn:E; simpl.
  - split; [by apply Hok | done].
  - split; [done |]. intros w' h' p.
    destruct (decide (cache_key w h = cache_key w' h')) as [Heq | Hne].
    + rewrite Heq, lookup_insert_eq. apply cache_key_inj in Heq as [-> ->]. congruence.
    + rewrite lookup_insert_ne by done. apply Hok.
Qed.


Lemma cache_ok_empty : cache_ok Math_atan2 ∅.
Proof. intros w h p. by rewrite lookup_empty. Qed.

End PatternSpec.



(** The pattern of the 3 x 3 block, the angles taken from [diamond_angle],
    which orders directions as [Math.atan2] does: the centre, the four edge
    pixels clockwise from the top one, then the four corners. *)
Example pattern_3x3 : compute_pattern diamond_angle 3 3 = [4; 1; 5; 7; 3; 0; 2; 8; 6].
Proof. vm_compute. reflexivity. Qed.

(** ** Sampled halftone *)

(** *** Stores of black and white *)

Lemma refines_refl d : refines d d.
Proof. by repeat split. Qed.

Lemma refines_trans d1 d2 d3 : refines d1 d2 -> refines d2 d3 -> refines d1 d3.
Proof.
  intros (L1 & A1 & T1) (L2 & A2 & T2). repeat split.
  - congruence.
  - intros j Hj. by rewrite A2, A1.
  - auto.
Qed.


Lemma store_refines d idx (white : bool) :
  idx `mod` 4 <> 3 ->
  refines d (store d idx (if white then 255%float else 0%float)).
Proof.
  intros Hidx. unfold store.
  assert (Hv : tone (Some (JS.ToUint8Clamp (if white then 255%float else 0%float)))).
  { destruct white; [right | left]; reflexivity. }
  repeat split.
  - apply length_insert.
  - intros j Hj. apply list_lookup_insert_ne. congruence.
  - intros j Hj. destruct (decide (idx = j)) as [<- | Hne].
    + destruct (decide (idx < length d)).
      * by rewrite list_lookup_insert_eq.
      * by rewrite list_insert_ge by lia.
    + by rewrite list_lookup_insert_ne.
Qed.

Lemma store_tone d idx (white : bool) :
  idx < length d -> tone (store d idx (if white then 255%float else 0%float) !! idx).
Proof.
  intros Hidx. unfold store. rewrite list_lookup_insert_eq by done.
  destruct white; [right | left]; reflexivity.
Qed.

(** The three stores of one iteration of the pattern walk. *)
Lemma paint_pixel d p (white : bool) :
  let value := if white then 255%float else 0%float in
  let d' := store (store (store d (p * 4) value) (p * 4 + 1) value) (p * 4 + 2) value in
  refines d d' /\ (p * 4 + 2 < length d -> painted d' p).
Proof.
  cbv zeta.
  assert (H0 : (p * 4) `mod` 4 <> 3) by (rewrite Nat.Div0.mod_mul; lia).
  assert (H1 : (p * 4 + 1) `mod` 4 <> 3).
  { rewrite Nat.add_comm, Nat.Div0.mod_add. simpl. lia. }
  assert (H2 : (p * 4 + 2) `mod` 4 <> 3).
  { rewrite Nat.add_comm, Nat.Div0.mod_add. simpl. lia. }
  pose proof (store_refines d (p * 4) white H0) as R0.
  pose proof (store_refines (store d (p * 4) (if white then 255%float else 0%float))
                (p * 4 + 1) white H1) as R1.
  pose proof (store_refines (store (store d (p * 4) (if white then 255%float else 0%float))
                (p * 4 + 1) (if white then 255%float else 0%float)) (p * 4 + 2) white H2) as R2.
  split; [eauto using refines_trans |].
  intros Hlen c Hc.
  assert (c = 0 \/ c = 1 \/ c = 2) as [-> | [-> | ->]] by lia.
  - rewrite Nat.add_0_r. destruct R2 as (_ & _ & T2), R1 as (_ & _ & T1).
    apply T2, T1, store_tone. lia.
  - destruct R2 as (_ & _ & T2), R0 as (L0 & _). apply T2, store_tone. lia.
  - destruct R1 as (L1 & _), R0 as (L0 & _). apply store_tone. lia.
Qed.

(** *** A loop whose steps only refine the state *)

Section Cover.
Context {S K : Type}.
Variable F : S -> K -> S.
Variable Inv : S -> Prop.
Variable Ref : S -> S -> Prop.
Hypothesis Ref_refl : forall s, Ref s s.
Hypothesis Ref_trans : forall s1 s2 s3, Ref s1 s2 -> Ref s2 s3 -> Ref s1 s3.
Hypothesis step : forall s k, Inv s -> Inv (F s k) /\ Ref s (F s k).

Lemma foldl_refines ks s : Inv s -> Inv (foldl F s ks) /\ Ref s (foldl F s ks).
Proof.
  revert s. induction ks as [| k ks IH]; intros s Hs; simpl; [auto |].
  destruct (step s k Hs) as [Hi Hr]. destruct (IH _ Hi) as [Hi' Hr']. eauto.
Qed.


End Cover.

(** *** One block *)

Section Block.
Variable Math_atan2 : Q -> Q -> Q.
Variables width height : nat.

Lemma fill_block_fold x y blockWidth pixelCount whitePixels pattern d :
  fill_block width x y blockWidth pixelCount whitePixels pattern d =
  foldl (fill_step width x y blockWidth whitePixels pattern) d (seq 0 pixelCount).
Proof.
  unfold fill_block. rewrite for_loop_unit. apply foldl_ext.
  intros acc order. unfold fill_step. by destruct (pattern !! order).
Qed.

Lemma fill_step_refines x y blockWidth whitePixels pattern d order :
  refines d (fill_step width x y blockWidth whitePixels pattern d order).
Proof.
  unfold fill_step. destruct (pattern !! order) as [li |]; [| apply refines_refl].
  apply paint_pixel.
Qed.

Lemma fill_block_refines x y blockWidth pixelCount whitePixels pattern d :
  refines d (fill_block width x y blockWidth pixelCount whitePixels pattern d).
Proof.
  rewrite fill_block_fold.
  apply (foldl_refines _ (fun _ => True) refines refines_refl refines_trans); [| done].
  intros s k _. split; [done | apply fill_step_refines].
Qed.


Lemma sampled_block_refines blockSize bias x y st :
  state_ok Math_atan2 (4 * (width * height)) st ->
  state_ok Math_atan2 (4 * (width * height))
    (sampled_block Math_atan2 width height blockSize bias x y st) /\
  state_refines st (sampled_block Math_atan2 width height blockSize bias x y st).
Proof.
  destruct st as [d cache]. intros [Hlen Hok]. simpl in Hlen, Hok.
  unfold sampled_block.
  destruct (_ =? 0) eqn:E; [split; [done | apply refines_refl] |].
  destruct (getHalftonePattern_ok Math_atan2 (blockSize `min` (width - x))
              (blockSize `min` (height - y)) cache Hok) as [Hpat Hok'].
  destruct (getHalftonePattern _ _ _ _) as [pattern cache'].
  pose proof (fill_block_refines x y (blockSize `min` (width - x))
                (blockSize `min` (width - x) * (blockSize `min` (height - y)))
                (JS.Math_round
                   (clamp01
                      (block_graySum d width x y (blockSize `min` (width - x))
                         (blockSize `min` (height - y)) /
                       JS.Z2F (Z.of_nat (blockSize `min` (width - x) * (blockSize `min` (height - y)))) /
                       255 - bias) *
                    JS.Z2F (Z.of_nat (blockSize `min` (width - x) * (blockSize `min` (height - y))))))
                pattern d) as Hr.
  split; [| exact Hr]. split; [| done]. simpl. destruct Hr as [-> _]. done.
Qed.


End Block.

(** *** The blocks tile the canvas *)

Lemma block_of_pixel n blockSize p :
  0 < blockSize -> p < n ->
  p / blockSize ∈ seq 0 (iterations 0 n blockSize) /\
  0 + p / blockSize * blockSize <= p < 0 + p / blockSize * blockSize + blockSize.
Proof.
  intros Hbs Hp. split.
  - apply elem_of_seq. split; [lia |]. unfold iterations. simpl.
    assert (H : (p + blockSize) / blockSize <= (n - 0 + (blockSize - 1)) / blockSize)
      by (apply Nat.Div0.div_le_mono; lia).
    replace (p + blockSize) with (p + 1 * blockSize) in H by lia.
    rewrite Nat.div_add in H by lia. lia.
  - pose proof (Nat.div_mod_eq p blockSize) as Hdm.
    pose proof (Nat.mod_upper_bound p blockSize ltac:(lia)). lia.
Qed.

Section Tiling.
Variable Math_atan2 : Q -> Q -> Q.
Variables width height blockSize : nat.
Variable bias : float.
Hypothesis blockSize_pos : 0 < blockSize.
Hypothesis blockSize_max : blockSize <= 32.

Lemma sampled_row_fold y st :
  sampled_row Math_atan2 width height blockSize bias y st =
  foldl (fun st k => sampled_block Math_atan2 width height blockSize bias (0 + k * blockSize) y st)
    st (seq 0 (iterations 0 width blockSize)).
Proof.
  unfold sampled_row. apply for_loop_fold; [done |]. by apply iterations_le.
Qed.

Lemma state_refines_refl st : state_refines st st.
Proof. apply refines_refl. Qed.

Lemma state_refines_trans st1 st2 st3 :
  state_refines st1 st2 -> state_refines st2 st3 -> state_refines st1 st3.
Proof. apply refines_trans. Qed.

Lemma sampled_row_refines y st :
  state_ok Math_atan2 (4 * (width * height)) st ->
  state_ok Math_atan2 (4 * (width * height))
    (sampled_row Math_atan2 width height blockSize bias y st) /\
  state_refines st (sampled_row Math_atan2 width height blockSize bias y st).
Proof.
  rewrite sampled_row_fold.
  apply (foldl_refines _ _ state_refines state_refines_refl state_refines_trans).
  intros s k Hs. by apply sampled_block_refines.
Qed.


Lemma sampled_rows_fold st :
  sampled_rows Math_atan2 width height blockSize bias st =
  foldl (fun st k => sampled_row Math_atan2 width height blockSize bias (0 + k * blockSize) st)
    st (seq 0 (iterations 0 height blockSize)).
Proof.
  unfold sampled_rows. apply for_loop_fold; [done |]. by apply iterations_le.
Qed.

Lemma sampled_rows_refines st :
  state_ok Math_atan2 (4 * (width * height)) st ->
  state_ok Math_atan2 (4 * (width * height))
    (sampled_rows Math_atan2 width height blockSize bias st) /\
  state_refines st (sampled_rows Math_atan2 width height blockSize bias st).
Proof.
  rewrite sampled_rows_fold.
  apply (foldl_refines _ _ state_refines state_refines_refl state_refines_trans).
  intros s k Hs. by apply sampled_row_refines.
Qed.


End Tiling.

Lemma block_size_range density : 0 < block_size density <= 32.
Proof. unfold block_size. lia. Qed.

Lemma applySampledMonochrome_rows Math_atan2 img density threshold cache :
  applySampledMonochrome Math_atan2 img density threshold cache =
  let st := sampled_rows Math_atan2 (width img) (height img)
              (block_size (default default_density density))
              ((JS.Z2F (threshold_limit (default default_threshold threshold)) - 170) / 255)%float
              (data img, cache) in
  (mkImageData st.1 (width img) (height img), st.2).
Proof.
  unfold applySampledMonochrome, sampled_rows, sampled_row. cbv zeta.
  by destruct (for_loop _ _ _ _ _ _) as [d cache'].
Qed.



(** ** Fitting the source onto the canvas *)



Lemma Qmult_div_cancel a b : (0 < b)%Q -> (b * (a / b) == a)%Q.
Proof. intros H. apply Qmult_div_r. lra. Qed.

Lemma Qdiv_le_cross a b c d :
  (0 < b)%Q -> (0 < d)%Q -> (a / b <= c / d)%Q -> (d * (a / b) <= c)%Q.
Proof.
  intros Hb Hd H. rewrite <- (Qmult_div_cancel c d Hd).
  apply Qmult_le_l; [done | done].
Qed.



(** ** The buffers stay 8-bit *)

Lemma ToUint8Clamp_channel x : is_channel (JS.ToUint8Clamp x).
Proof.
  unfold is_channel, JS.ToUint8Clamp.
  destruct (Prim2SF x) as [s | [] | | [] m e]; try lia.
  destruct (0 <=? e)%Z.
  - destruct (8 <=? e)%Z; [lia |]. pose proof (Z.pow_nonneg 2 e). lia.
  - pose proof (Z.shiftr_nonneg (Z.pos m) (- e)) as [_ Hs]. specialize (Hs ltac:(lia)).
    destruct (_ ?= _)%Z; [destruct (Z.even _) | |]; lia.
Qed.

Lemma store_channels d i x : channels d -> channels (store d i x).
Proof.
  intros Hd. unfold store, channels. apply Forall_insert; [done | apply ToUint8Clamp_channel].
Qed.

Lemma store_length d i x : length (store d i x) = length d.
Proof. apply length_insert. Qed.

Lemma store_bytes len d i x : bytes_of len d -> bytes_of len (store d i x).
Proof. intros [Hl Hc]. split; [by rewrite store_length | by apply store_channels]. Qed.

Lemma quantizeColors_bytes len d step : bytes_of len d -> bytes_of len (quantizeColors d step).
Proof.
  intros Hd. unfold quantizeColors. apply for_loop_invariant; [| done].
  intros j t Ht. unfold quantizeColors_body. by repeat apply store_bytes.
Qed.






(** ** The order of binary64 numbers *)

Section FloatOrder.

Lemma SFcompare_antisym x y : SFcompare y x = CompOpp <$> SFcompare x y.
Proof.
  destruct x as [[] | [] | | [] mx ex], y as [[] | [] | | [] my ey]; simpl; try done;
    rewrite (Z.compare_antisym ey ex); destruct (ey ?= ex)%Z; simpl; try done;
    fold (Pos.compare mx my); fold (Pos.compare my mx);
    rewrite (Pos.compare_antisym my mx); by destruct (my ?= mx)%positive.
Qed.

Lemma SFcompare_trans x y z c :
  SFcompare x y = Some c -> SFcompare y z = Some c -> SFcompare x z = Some c.
Proof.
  destruct x as [[] | [] | | [] mx ex], y as [[] | [] | | [] my ey],
    z as [[] | [] | | [] mz ez]; simpl; try congruence;
    fold (Pos.compare mx my); fold (Pos.compare my mz); fold (Pos.compare mx mz);
    destruct (Z.compare_spec ex ey), (Z.compare_spec ey ez), (Z.compare_spec ex ez);
    try lia; simpl; try congruence;
    destruct (Pos.compare_spec mx my), (Pos.compare_spec my mz), (Pos.compare_spec mx mz);
    try lia; simpl; congruence.
Qed.

Lemma SFcompare_Eq_l x y z : SFcompare x y = Some Eq -> SFcompare x z = SFcompare y z.
Proof.
  destruct x as [[] | [] | | [] mx ex], y as [[] | [] | | [] my ey],
    z as [[] | [] | | [] mz ez]; simpl; try congruence;
    fold (Pos.compare mx my); fold (Pos.compare my mz); fold (Pos.compare mx mz);
    destruct (Z.compare_spec ex ey); try congruence;
    destruct (Pos.compare_spec mx my); simpl; try congruence; by subst.
Qed.

Lemma SFcompare_Eq_r x y z : SFcompare y z = Some Eq -> SFcompare x y = SFcompare x z.
Proof.
  intros H. rewrite (SFcompare_antisym y x), (SFcompare_antisym z x). f_equal.
  symmetry. apply SFcompare_Eq_l. rewrite SFcompare_antisym, H. done.
Qed.

Lemma ltb_trans x y z :
  (x <? y)%float = true -> (y <? z)%float = true -> (x <? z)%float = true.
Proof.
  rewrite !FloatAxioms.ltb_spec. unfold SFltb.
  destruct (SFcompare (Prim2SF x) (Prim2SF y)) as [[] |] eqn:E1; try done.
  destruct (SFcompare (Prim2SF y) (Prim2SF z)) as [[] |] eqn:E2; try done.
  by rewrite (SFcompare_trans _ _ _ _ E1 E2).
Qed.

Lemma leb_trans x y z :
  (x <=? y)%float = true -> (y <=? z)%float = true -> (x <=? z)%float = true.
Proof.
  rewrite !FloatAxioms.leb_spec. unfold SFleb.
  destruct (SFcompare (Prim2SF x) (Prim2SF y)) as [[] |] eqn:E1; try done;
    destruct (SFcompare (Prim2SF y) (Prim2SF z)) as [[] |] eqn:E2; try done; intros _ _.
  - by rewrite (SFcompare_trans _ _ _ _ E1 E2).
  - by rewrite (SFcompare_Eq_l _ _ _ E1), E2.
  - by rewrite <- (SFcompare_Eq_r _ _ _ E2), E1.
  - by rewrite (SFcompare_trans _ _ _ _ E1 E2).
Qed.

Lemma ltb_leb_trans x y z :
  (x <? y)%float = true -> (y <=? z)%float = true -> (x <? z)%float = true.
Proof.
  rewrite !FloatAxioms.ltb_spec, FloatAxioms.leb_spec. unfold SFltb, SFleb.
  destruct (SFcompare (Prim2SF x) (Prim2SF y)) as [[] |] eqn:E1; try done;
    destruct (SFcompare (Prim2SF y) (Prim2SF z)) as [[] |] eqn:E2; try done; intros _ _.
  - by rewrite <- (SFcompare_Eq_r _ _ _ E2), E1.
  - by rewrite (SFcompare_trans _ _ _ _ E1 E2).
Qed.

Lemma leb_ltb_trans x y z :
  (x <=? y)%float = true -> (y <? z)%float = true -> (x <? z)%float = true.
Proof.
  rewrite !FloatAxioms.ltb_spec, FloatAxioms.leb_spec. unfold SFltb, SFleb.
  destruct (SFcompare (Prim2SF x) (Prim2SF y)) as [[] |] eqn:E1; try done;
    destruct (SFcompare (Prim2SF y) (Prim2SF z)) as [[] |] eqn:E2; try done; intros _ _.
  - by rewrite (SFcompare_Eq_l _ _ _ E1), E2.
  - by rewrite (SFcompare_trans _ _ _ _ E1 E2).
Qed.

Lemma ltb_leb x y : (x <? y)%float = true -> (x <=? y)%float = true.
Proof.
  rewrite FloatAxioms.ltb_spec, FloatAxioms.leb_spec. unfold SFltb, SFleb.
  by destruct (SFcompare _ _) as [[] |].
Qed.

(** Two numbers that are not NaN are comparable. *)
Lemma ltb_false_leb x y :
  is_nan x = false -> is_nan y = false -> (x <? y)%float = false -> (y <=? x)%float = true.
Proof.
  unfold is_nan. rewrite !FloatAxioms.eqb_spec, FloatAxioms.ltb_spec, FloatAxioms.leb_spec.
  unfold SFeqb, SFltb, SFleb. rewrite (SFcompare_antisym (Prim2SF x) (Prim2SF y)).
  destruct (Prim2SF x) as [[] | [] | | [] mx ex], (Prim2SF y) as [[] | [] | | [] my ey];
    simpl; try done;
    destruct (ex ?= ey)%Z; simpl; try done;
    by destruct (Pos.compare_cont Eq mx my).
Qed.

Lemma ltb_irrefl x : (x <? x)%float = false.
Proof.
  rewrite FloatAxioms.ltb_spec. unfold SFltb.
  destruct (SFcompare _ _) as [[] |] eqn:E; try done.
  pose proof (SFcompare_antisym (Prim2SF x) (Prim2SF x)) as H. rewrite E in H. done.
Qed.

End FloatOrder.

(** ** [clamp01] *)

Lemma leb_ltb_false x y : (x <=? y)%float = true -> (y <? x)%float = false.
Proof.
  rewrite FloatAxioms.ltb_spec, FloatAxioms.leb_spec. unfold SFltb, SFleb.
  rewrite (SFcompare_antisym (Prim2SF x) (Prim2SF y)).
  by destruct (SFcompare _ _) as [[] |].
Qed.

Lemma clamp01_inside v :
  (0 <=? v)%float = true -> (v <=? 1)%float = true -> clamp01 v = v.
Proof.
  intros H0 H1. unfold clamp01. by rewrite (leb_ltb_false _ _ H0), (leb_ltb_false _ _ H1).
Qed.

Lemma clamp01_range v :
  is_nan v = false -> (0 <=? clamp01 v)%float = true /\ (clamp01 v <=? 1)%float = true.
Proof.
  intros Hv. unfold clamp01.
  destruct (v <? 0)%float eqn:E0; [by split |].
  destruct (1 <? v)%float eqn:E1; [by split |].
  split; by apply ltb_false_leb.
Qed.

Lemma is_nan_Prim2SF v : is_nan v = true -> Prim2SF v = S754_nan.
Proof.
  unfold is_nan. rewrite FloatAxioms.eqb_spec. unfold SFeqb.
  destruct (Prim2SF v) as [[] | [] | | [] m e]; simpl; try done;
    rewrite Z.compare_refl; fold (Pos.compare m m); by rewrite Pos.compare_refl.
Qed.

Lemma ltb_nan_l v x : is_nan v = true -> (v <? x)%float = false.
Proof. intros H. by rewrite FloatAxioms.ltb_spec, (is_nan_Prim2SF v H). Qed.

Lemma ltb_nan_r v x : is_nan v = true -> (x <? v)%float = false.
Proof.
  intros H. rewrite FloatAxioms.ltb_spec, (is_nan_Prim2SF v H).
  unfold SFltb. by destruct (Prim2SF x) as [[] | [] | | [] m e].
Qed.

(** [clamp01] never leaves the unit interval: a number comes back within
    [0, 1], unchanged when it was there already, and NaN comes back as NaN;
    clamping twice is clamping once. *)
Theorem clamp01_spec (v : float) :
  (is_nan v = false ->
     (0 <=? clamp01 v)%float = true /\ (clamp01 v <=? 1)%float = true)
  /\ (is_nan v = true -> clamp01 v = v)
  /\ ((0 <=? v)%float = true -> (v <=? 1)%float = true -> clamp01 v = v)
  /\ ((v <? 0)%float = true -> clamp01 v = 0%float)
  /\ ((1 <? v)%float = true -> clamp01 v = 1%float)
  /\ clamp01 (clamp01 v) = clamp01 v.
Proof.
  split; [apply clamp01_range |]. split; [| split; [apply clamp01_inside | split; [| split]]].
  - intros H. unfold clamp01. by rewrite (ltb_nan_l v 0 H), (ltb_nan_r v 1 H).
  - intros H. unfold clamp01. by rewrite H.
  - intros H. unfold clamp01. rewrite H. destruct (v <? 0)%float eqn:E; [| done].
    pose proof (ltb_trans _ _ _ H E) as C. vm_compute in C. discriminate.
  - destruct (is_nan v) eqn:Hn.
    + assert (E : clamp01 v = v).
      { unfold clamp01. by rewrite (ltb_nan_l v 0 Hn), (ltb_nan_r v 1 Hn). }
      by rewrite !E.
    + destruct (clamp01_range v Hn). by apply clamp01_inside.
Qed.

(** ** The sampled halftone, pixel by pixel *)

Lemma foldl_ext_in {A B} (f g : A -> B -> A) (l : list B) a :
  (forall a b, b ∈ l -> f a b = g a b) -> foldl f a l = foldl g a l.
Proof.
  revert a. induction l as [| x l IH]; intros a H; simpl; [done |].
  rewrite H by apply list_elem_of_here. apply IH. intros a' b Hb. apply H. by apply list_elem_of_further.
Qed.

Lemma position_lookup i l : i ∈ l -> l !! position i l = Some i.
Proof.
  induction l as [| a l IH]; intros Hin; [by apply elem_of_nil in Hin |].
  simpl. destruct (decide (a = i)) as [-> | Hne]; [done |].
  apply elem_of_cons in Hin as [-> | Hin]; [done | by apply IH].
Qed.

Lemma position_NoDup i l o : NoDup l -> l !! o = Some i -> position i l = o.
Proof.
  intros Hnd Ho.
  assert (Hin : i ∈ l) by (by eapply list_elem_of_lookup_2).
  eapply NoDup_lookup; [done | by apply position_lookup | done].
Qed.

Lemma agree_on_refl R d : agree_on R d d.
Proof. by split. Qed.

Lemma agree_on_trans R d1 d2 d3 : agree_on R d1 d2 -> agree_on R d2 d3 -> agree_on R d1 d3.
Proof.
  intros [L1 A1] [L2 A2]. split; [congruence |]. intros j Hj. by rewrite A2, A1.
Qed.

Lemma agree_on_weaken (R R' : nat -> Prop) d d' :
  (forall j, R' j -> R j) -> agree_on R d d' -> agree_on R' d d'.
Proof. intros H [L A]. split; [done |]. auto. Qed.

(** *** A loop whose steps leave a region alone *)

Section Local.
Context {S K : Type}.
Variable F : S -> K -> S.
Variable Inv : S -> Prop.
Variable Ref : S -> S -> Prop.
Hypothesis Ref_refl : forall s, Ref s s.
Hypothesis Ref_trans : forall s1 s2 s3, Ref s1 s2 -> Ref s2 s3 -> Ref s1 s3.

Lemma foldl_local ks s :
  (forall s k, k ∈ ks -> Inv s -> Inv (F s k) /\ Ref s (F s k)) ->
  Inv s -> Inv (foldl F s ks) /\ Ref s (foldl F s ks).
Proof.
  revert s. induction ks as [| k ks IH]; intros s Hstep Hs; simpl; [auto |].
  destruct (Hstep s k (list_elem_of_here _ _) Hs) as [Hi Hr].
  destruct (IH (F s k)) as [Hi' Hr']; [| done | eauto].
  intros s' k' Hk'. apply Hstep. by apply list_elem_of_further.
Qed.

End Local.

(** What the steps before and after the one at [k0] leave alone is what
    that step made of it. *)
Lemma foldl_at {S K} (F : S -> K -> S) (Inv : S -> Prop) (Ref : S -> S -> Prop) ks k0 s :
  (forall s, Ref s s) -> (forall s1 s2 s3, Ref s1 s2 -> Ref s2 s3 -> Ref s1 s3) ->
  NoDup ks -> k0 ∈ ks ->
  (forall s k, Inv s -> Inv (F s k)) ->
  (forall s k, k ∈ ks -> k <> k0 -> Inv s -> Ref s (F s k)) ->
  Inv s ->
  exists s1, Inv s1 /\ Ref s s1 /\ Ref (F s1 k0) (foldl F s ks).
Proof.
  intros Hrefl Htrans Hnd Hin Hinv Hstep Hs.
  apply list_elem_of_split in Hin as (l1 & l2 & ->).
  apply NoDup_app in Hnd as (_ & Hl1 & Hnd2). apply NoDup_cons in Hnd2 as [Hl2 _].
  rewrite foldl_app. simpl.
  destruct (foldl_local F Inv Ref Hrefl Htrans l1 s) as [Hi1 Hr1]; [| done |].
  { intros s' k Hk Hs'. split; [by apply Hinv |]. apply Hstep; [| | done].
    - apply elem_of_app. by left.
    - intros ->. apply (Hl1 k0 Hk). apply list_elem_of_here. }
  exists (foldl F s l1). split; [done |]. split; [done |].
  destruct (foldl_local F Inv Ref Hrefl Htrans l2 (F (foldl F s l1) k0)) as [_ Hr2]; [| | done].
  - intros s' k Hk Hs'. split; [by apply Hinv |]. apply Hstep; [| | done].
    + apply elem_of_app. right. by apply list_elem_of_further.
    + by intros ->.
  - by apply Hinv.
Qed.

(** *** The walk over the pattern, entry by entry *)

Lemma entry_pixel p c : c < 4 -> (p * 4 + c) / 4 = p /\ (p * 4 + c) `mod` 4 = c.
Proof.
  intros Hc. split.
  - rewrite Nat.add_comm, Nat.div_add by lia. rewrite Nat.div_small; lia.
  - rewrite Nat.add_comm, Nat.Div0.mod_add. by apply Nat.mod_small.
Qed.

Lemma store_lookup_ne d i j x : i <> j -> store d i x !! j = d !! j.
Proof. intros H. unfold store. by rewrite list_lookup_insert_ne. Qed.

Lemma store_lookup_eq d i x : i < length d -> store d i x !! i = Some (JS.ToUint8Clamp x).
Proof. intros H. unfold store. by rewrite list_lookup_insert_eq. Qed.

Section Walk.
Variables width x y blockWidth : nat.
Variable whitePixels : float.
Variable pattern : list nat.
Variable d : list Z.

Local Abbreviation step := (fill_step width x y blockWidth whitePixels pattern).
Local Abbreviation pix := (block_pixel width x y blockWidth).
Local Abbreviation value := (tone_value whitePixels).

Hypothesis pix_inj : forall o1 o2 l1 l2,
  pattern !! o1 = Some l1 -> pattern !! o2 = Some l2 -> pix l1 = pix l2 -> o1 = o2.

Lemma fill_step_length s order : length (step s order) = length s.
Proof.
  unfold fill_step. destruct (pattern !! order); [| done]. by rewrite !store_length.
Qed.

Lemma fill_step_other s order j :
  (forall li, pattern !! order = Some li -> j / 4 <> pix li \/ j `mod` 4 = 3) ->
  step s order !! j = s !! j.
Proof.
  intros H. unfold fill_step. destruct (pattern !! order) as [li |]; [| done].
  assert (Hne : forall c, c < 3 -> pix li * 4 + c <> j).
  { intros c Hc <-. destruct (entry_pixel (pix li) c ltac:(lia)) as [E1 E2].
    destruct (H li eq_refl) as [H' | H']; [by rewrite E1 in H' | rewrite E2 in H'; lia]. }
  pose proof (Hne 0 ltac:(lia)). pose proof (Hne 1 ltac:(lia)). pose proof (Hne 2 ltac:(lia)).
  unfold block_pixel in *. by rewrite !store_lookup_ne by lia.
Qed.

Lemma fill_step_pixel s order li c :
  pattern !! order = Some li -> c < 3 -> pix li * 4 + c < length s ->
  step s order !! (pix li * 4 + c) = Some (value order).
Proof.
  intros Hli Hc Hlen. unfold fill_step. rewrite Hli.
  fold (block_pixel width x y blockWidth li).
  set (v := if (JS.Z2F (Z.of_nat order) <? whitePixels)%float then 255%float else 0%float).
  assert (Hv : JS.ToUint8Clamp v = value order).
  { unfold v, tone_value. by destruct (_ <? _)%float. }
  rewrite <- Hv.
  assert (c = 0 \/ c = 1 \/ c = 2) as [-> | [-> | ->]] by lia.
  - rewrite Nat.add_0_r. rewrite !store_lookup_ne by lia. apply store_lookup_eq. lia.
  - rewrite store_lookup_ne by lia. apply store_lookup_eq. rewrite store_length. lia.
  - apply store_lookup_eq. rewrite !store_length. lia.
Qed.

Lemma fill_fold_exact m :
  let out := foldl step d (seq 0 m) in
  length out = length d /\
  (forall order li c, order < m -> pattern !! order = Some li -> c < 3 ->
     pix li * 4 + c < length d -> out !! (pix li * 4 + c) = Some (value order)) /\
  (forall j, (forall order li, order < m -> pattern !! order = Some li ->
                j / 4 <> pix li \/ j `mod` 4 = 3) ->
     out !! j = d !! j).
Proof.
  induction m as [| m IH]; [by repeat split; try lia |].
  destruct IH as (IHlen & IHin & IHout). cbv zeta.
  rewrite seq_S, foldl_snoc. simpl. set (cur := foldl step d (seq 0 m)) in *.
  split; [by rewrite fill_step_length |]. split.
  - intros order li c Horder Hli Hc Hlen.
    destruct (decide (order = m)) as [-> | Hne].
    + apply fill_step_pixel; [done | done | by rewrite IHlen].
    + rewrite fill_step_other; [apply IHin; [lia | done | done | done] |].
      intros li' Hli'. left. destruct (entry_pixel (pix li) c ltac:(lia)) as [-> _].
      intros Heq. apply Hne. by eapply pix_inj.
  - intros j Hj. rewrite fill_step_other; [apply IHout |].
    + intros order li Horder. apply Hj. lia.
    + intros li. apply Hj. lia.
Qed.

End Walk.

(** *** One block, exactly *)

Lemma block_pixel_coords width x y bw bh li :
  li < bw * bh -> x + bw <= width ->
  block_pixel width x y bw li `mod` width = x + li `mod` bw /\
  block_pixel width x y bw li / width = y + li / bw /\
  li `mod` bw < bw /\ li / bw < bh.
Proof.
  intros Hli Hx. assert (Hbw : 0 < bw) by nia.
  pose proof (Nat.mod_upper_bound li bw ltac:(lia)) as Hm.
  assert (Hd : li / bw < bh) by (apply Nat.Div0.div_lt_upper_bound; lia).
  unfold block_pixel. repeat split; [| | done | done].
  - rewrite (Nat.add_comm (_ * width)), Nat.Div0.mod_add. apply Nat.mod_small. lia.
  - rewrite (Nat.add_comm (_ * width)), Nat.div_add by lia. rewrite Nat.div_small; lia.
Qed.

Lemma block_pixel_local width x y bw px py :
  0 < bw -> x <= px < x + bw -> y <= py ->
  block_pixel width x y bw ((py - y) * bw + (px - x)) = py * width + px.
Proof.
  intros Hbw Hx Hy. unfold block_pixel.
  rewrite (Nat.add_comm (_ * bw)), Nat.div_add by lia. rewrite Nat.div_small by lia.
  rewrite Nat.Div0.mod_add. rewrite Nat.mod_small by lia.
  replace (y + (0 + (py - y))) with py by lia. replace (x + (px - x)) with px by lia. done.
Qed.

Lemma pixel_coords width px py : px < width -> (py * width + px) `mod` width = px /\
  (py * width + px) / width = py.
Proof.
  intros H. split.
  - rewrite (Nat.add_comm (_ * width)), Nat.Div0.mod_add. by apply Nat.mod_small.
  - rewrite (Nat.add_comm (_ * width)), Nat.div_add by lia. rewrite Nat.div_small; lia.
Qed.

(** The sum of a block reads the colour entries of the block only. *)
Lemma block_graySum_local d d' width x y bw bh :
  (forall ox oy c, ox < bw -> oy < bh -> c < 3 ->
     d' !! (((y + oy) * width + (x + ox)) * 4 + c) = d !! (((y + oy) * width + (x + ox)) * 4 + c)) ->
  block_graySum d' width x y bw bh = block_graySum d width x y bw bh.
Proof.
  intros H. unfold block_graySum. rewrite !for_loop_unit.
  apply foldl_ext_in. intros s oy Hoy%elem_of_seq. rewrite !for_loop_unit.
  apply foldl_ext_in. intros s' ox Hox%elem_of_seq. cbv zeta.
  pose proof (H ox oy 0 ltac:(lia) ltac:(lia) ltac:(lia)) as H0. rewrite Nat.add_0_r in H0.
  pose proof (H ox oy 1 ltac:(lia) ltac:(lia) ltac:(lia)) as H1.
  pose proof (H ox oy 2 ltac:(lia) ltac:(lia) ltac:(lia)) as H2.
  unfold load. by rewrite H0, H1, H2.
Qed.

Section BlockExact.
Variable Math_atan2 : Q -> Q -> Q.
Variables width height blockSize : nat.
Variable bias : float.
Hypothesis blockSize_max : blockSize <= 32.

Lemma block_value_local d d' x y px py :
  x <= width -> agree_on (in_block width x y blockSize) d d' ->
  block_value Math_atan2 d' width height blockSize bias x y px py =
  block_value Math_atan2 d width height blockSize bias x y px py.
Proof.
  intros Hx [_ Hag]. unfold block_value, block_whitePixels. cbv zeta.
  rewrite (block_graySum_local d d'); [done |].
  intros ox oy c Hox Hoy Hc. apply Hag. unfold in_block.
  destruct (entry_pixel ((y + oy) * width + (x + ox)) c ltac:(lia)) as [-> _].
  destruct (pixel_coords width (x + ox) (y + oy) ltac:(lia)) as [-> ->]. lia.
Qed.

Lemma sampled_block_exact x y st :
  state_ok Math_atan2 (4 * (width * height)) st ->
  let out := (sampled_block Math_atan2 width height blockSize bias x y st).1 in
  agree_on (fun j => ~ in_block width x y blockSize j) st.1 out /\
  (forall px py c,
     x <= px < x + blockSize -> px < width -> y <= py < y + blockSize -> py < height -> c < 3 ->
     out !! ((py * width + px) * 4 + c) =
     Some (block_value Math_atan2 st.1 width height blockSize bias x y px py)).
Proof.
  destruct st as [d cache]. intros [Hlen Hok]. cbn [fst snd] in *. cbv zeta.
  unfold sampled_block.
  set (bw := blockSize `min` (width - x)). set (bh := blockSize `min` (height - y)).
  destruct (bw * bh =? 0) eqn:E.
  { apply Nat.eqb_eq in E. cbn [fst]. split; [apply agree_on_refl |].
    intros px py c Hx Hpx Hy Hpy Hc. exfalso. unfold bw, bh in E. nia. }
  apply Nat.eqb_neq in E.
  assert (Hxw : x + bw <= width) by (unfold bw in *; nia).
  destruct (getHalftonePattern_ok Math_atan2 bw bh cache Hok) as [Hpat _].
  destruct (getHalftonePattern _ _ _ _) as [pattern cache']. cbn [fst] in *. subst pattern.
  fold (block_whitePixels d width x y bw bh bias).
  set (W := block_whitePixels d width x y bw bh bias).
  set (pattern := compute_pattern Math_atan2 bw bh).
  assert (Hperm : pattern ≡ₚ seq 0 (bw * bh)).
  { apply compute_pattern_perm. unfold bw, bh. nia. }
  assert (Hnd : NoDup pattern) by (rewrite Hperm; apply NoDup_seq).
  assert (Hlt : forall o li, pattern !! o = Some li -> li < bw * bh).
  { intros o li Ho. apply list_elem_of_lookup_2 in Ho. rewrite Hperm in Ho.
    apply elem_of_seq in Ho. lia. }
  assert (Hplen : length pattern = bw * bh).
  { apply Permutation_length in Hperm. by rewrite length_seq in Hperm. }
  rewrite fill_block_fold.
  destruct (fill_fold_exact width x y bw W pattern d) with (m := bw * bh)
    as (Hl & Hin & Hout).
  { intros o1 o2 l1 l2 H1 H2 Heq.
    destruct (block_pixel_coords width x y bw bh l1 (Hlt _ _ H1) Hxw) as (A1 & A2 & _).
    destruct (block_pixel_coords width x y bw bh l2 (Hlt _ _ H2) Hxw) as (B1 & B2 & _).
    rewrite Heq in A1, A2.
    assert (l1 = l2).
    { pose proof (Nat.div_mod_eq l1 bw). pose proof (Nat.div_mod_eq l2 bw). nia. }
    subst l2. eapply NoDup_lookup; eauto. }
  split; [split; [done |] |].
  - intros j Hj. apply Hout. intros order li Horder Hli.
    destruct (decide (j / 4 = block_pixel width x y bw li)) as [Heq | Hne]; [| by left].
    exfalso. apply Hj. unfold in_block. rewrite Heq.
    destruct (block_pixel_coords width x y bw bh li (Hlt _ _ Hli) Hxw) as (-> & -> & ? & ?).
    unfold bw, bh in *. lia.
  - intros px py c Hx Hpx Hy Hpy Hc.
    assert (Hbw : px - x < bw) by (unfold bw; lia).
    assert (Hbh : py - y < bh) by (unfold bh; lia).
    set (li := (py - y) * bw + (px - x)).
    assert (Hli : li ∈ pattern). { rewrite Hperm. apply elem_of_seq. unfold li. nia. }
    pose proof (position_lookup li pattern Hli) as Hpos.
    assert (Horder : position li pattern < bw * bh).
    { apply lookup_lt_Some in Hpos. lia. }
    rewrite <- (block_pixel_local width x y bw px py) by lia. fold li.
    rewrite (Hin _ li c Horder Hpos Hc).
    + unfold block_value. cbv zeta. by fold bw bh li W pattern.
    + unfold li. rewrite (block_pixel_local width x y bw px py) by lia. nia.
Qed.

End BlockExact.

(** *** The blocks do not disturb each other *)

Lemma block_start blockSize p :
  0 < blockSize -> p / blockSize * blockSize <= p < p / blockSize * blockSize + blockSize.
Proof.
  intros H. pose proof (Nat.div_mod_eq p blockSize).
  pose proof (Nat.mod_upper_bound p blockSize ltac:(lia)). lia.
Qed.

Lemma other_block blockSize k k0 q :
  k <> k0 -> k0 * blockSize <= q < k0 * blockSize + blockSize ->
  ~ (k * blockSize <= q < k * blockSize + blockSize).
Proof. intros Hne H1 H2. apply Hne. nia. Qed.

Section TilingExact.
Variable Math_atan2 : Q -> Q -> Q.
Variables width height blockSize : nat.
Variable bias : float.
Hypothesis blockSize_pos : 0 < blockSize.
Hypothesis blockSize_max : blockSize <= 32.

Local Abbreviation ok := (state_ok Math_atan2 (4 * (width * height))).
Local Abbreviation block := (sampled_block Math_atan2 width height blockSize bias).
Local Abbreviation row := (sampled_row Math_atan2 width height blockSize bias).
Local Abbreviation rows := (sampled_rows Math_atan2 width height blockSize bias).

Lemma state_agree_refl R st : state_agree R st st.
Proof. apply agree_on_refl. Qed.

Lemma state_agree_trans R st1 st2 st3 :
  state_agree R st1 st2 -> state_agree R st2 st3 -> state_agree R st1 st3.
Proof. apply agree_on_trans. Qed.

Lemma sampled_row_exact y st :
  ok st ->
  let out := (row y st).1 in
  ok (row y st) /\
  agree_on (fun j => ~ in_band width y blockSize j) st.1 out /\
  (forall px py c,
     px < width -> y <= py < y + blockSize -> py < height -> c < 3 ->
     out !! ((py * width + px) * 4 + c) =
     Some (block_value Math_atan2 st.1 width height blockSize bias
             (px / blockSize * blockSize) y px py)).
Proof.
  intros Hst. cbv zeta. split; [by apply sampled_row_refines |].
  rewrite sampled_row_fold by done. split.
  - apply (foldl_local _ ok (state_agree (fun j => ~ in_band width y blockSize j))
             (state_agree_refl _) (state_agree_trans _)); [| done].
    intros s k _ Hs. split; [by apply sampled_block_refines |].
    destruct (sampled_block_exact Math_atan2 width height blockSize bias blockSize_max
                (0 + k * blockSize) y s Hs) as [Hag _].
    eapply agree_on_weaken; [| exact Hag]. intros j Hj [_ Hin]. by apply Hj.
  - intros px py c Hpx Hy Hpy Hc.
    destruct (block_of_pixel width blockSize px blockSize_pos Hpx) as [Hin Hx].
    set (k0 := px / blockSize) in *.
    set (R := in_block width (0 + k0 * blockSize) y blockSize).
    destruct (foldl_at (fun st k => block (0 + k * blockSize) y st) ok (state_agree R)
                (seq 0 (iterations 0 width blockSize)) k0 st)
      as (s1 & Hs1 & Hr1 & Hr2).
    + apply state_agree_refl.
    + apply state_agree_trans.
    + apply NoDup_seq.
    + done.
    + intros s k Hs. by apply sampled_block_refines.
    + intros s k _ Hne Hs.
      destruct (sampled_block_exact Math_atan2 width height blockSize bias blockSize_max
                  (0 + k * blockSize) y s Hs) as [Hag _].
      eapply agree_on_weaken; [| exact Hag]. intros j [Hjx _] [Hjx' _].
      by apply (other_block blockSize k k0 ((j / 4) `mod` width)).
    + done.
    + destruct (sampled_block_exact Math_atan2 width height blockSize bias blockSize_max
                  (0 + k0 * blockSize) y s1 Hs1) as [_ Hval].
      destruct Hr2 as [_ Hr2]. rewrite Hr2.
      * rewrite Hval by done. f_equal. simpl.
        apply block_value_local; [done | lia | exact Hr1].
      * unfold R, in_block. destruct (entry_pixel (py * width + px) c ltac:(lia)) as [-> _].
        destruct (pixel_coords width px py Hpx) as [-> ->]. lia.
Qed.

Lemma sampled_rows_exact st :
  ok st ->
  let out := (rows st).1 in
  forall px py c,
    px < width -> py < height -> c < 3 ->
    out !! ((py * width + px) * 4 + c) =
    Some (halftone_value Math_atan2 st.1 width height blockSize bias px py).
Proof.
  intros Hst. cbv zeta. intros px py c Hpx Hpy Hc. rewrite sampled_rows_fold by done.
  destruct (block_of_pixel height blockSize py blockSize_pos Hpy) as [Hin Hy].
  set (k0 := py / blockSize) in *.
  set (R := in_band width (0 + k0 * blockSize) blockSize).
  destruct (foldl_at (fun st k => row (0 + k * blockSize) st) ok (state_agree R)
              (seq 0 (iterations 0 height blockSize)) k0 st)
    as (s1 & Hs1 & Hr1 & Hr2).
  - apply state_agree_refl.
  - apply state_agree_trans.
  - apply NoDup_seq.
  - done.
  - intros s k Hs. by apply sampled_row_refines.
  - intros s k _ Hne Hs.
    destruct (sampled_row_exact (0 + k * blockSize) s Hs) as (_ & Hag & _).
    eapply agree_on_weaken; [| exact Hag]. intros j Hj Hj'.
    by apply (other_block blockSize k k0 ((j / 4) / width)).
  - done.
  - destruct (sampled_row_exact (0 + k0 * blockSize) s1 Hs1) as (_ & _ & Hval).
    destruct Hr2 as [_ Hr2]. rewrite Hr2.
    + rewrite Hval by done. f_equal. unfold halftone_value. fold k0. simpl.
      apply block_value_local; [done | | ].
      * pose proof (block_start blockSize px blockSize_pos). lia.
      * eapply agree_on_weaken; [| exact Hr1]. intros j [_ Hj]. exact Hj.
    + unfold R, in_band. destruct (entry_pixel (py * width + px) c ltac:(lia)) as [-> _].
      destruct (pixel_coords width px py Hpx) as [_ ->]. lia.
Qed.

End TilingExact.

(** *** The whole image *)

Lemma pixel_of_index width p : 0 < width -> p = p / width * width + p `mod` width.
Proof. intros H. pose proof (Nat.div_mod_eq p width). lia. Qed.

Lemma applySampledMonochrome_pixels (Math_atan2 : Q -> Q -> Q) (img : ImageData)
    (density threshold : option Q) (cache : gmap string (list nat)) :
  wf_image img -> cache_ok Math_atan2 cache ->
  let out := (applySampledMonochrome Math_atan2 img density threshold cache).1 in
  let blockSize := block_size (default default_density density) in
  let bias := ((JS.Z2F (threshold_limit (default default_threshold threshold)) - 170) / 255)%float in
  forall px py c, px < width img -> py < height img -> c < 3 ->
    data out !! ((py * width img + px) * 4 + c) =
    Some (halftone_value Math_atan2 (data img) (width img) (height img) blockSize bias px py).
Proof.
  intros Hwf Hok. rewrite applySampledMonochrome_rows. cbv zeta. cbn [fst data width height].
  destruct (block_size_range (default default_density density)) as [Hpos Hmax].
  intros px py c Hpx Hpy Hc.
  by apply (sampled_rows_exact Math_atan2 (width img) (height img) _ _ Hpos Hmax
              (data img, cache)).
Qed.



(** *** The blocks are independent *)

(** The blocks of the sampled halftone are independent of each other and of
    the alpha entries: two images of the same size whose colour entries agree
    on the block of a pixel give that pixel the same colour, whatever they
    hold elsewhere and whatever their caches. *)
Theorem applySampledMonochrome_local (Math_atan2 : Q -> Q -> Q) (img img' : ImageData)
    (density threshold : option Q) (cache cache' : gmap string (list nat)) :
  wf_image img -> wf_image img' -> width img' = width img -> height img' = height img ->
  cache_ok Math_atan2 cache -> cache_ok Math_atan2 cache' ->
  let out := (applySampledMonochrome Math_atan2 img density threshold cache).1 in
  let out' := (applySampledMonochrome Math_atan2 img' density threshold cache').1 in
  let blockSize := block_size (default default_density density) in
  forall px py c, px < width img -> py < height img -> c < 3 ->
    (forall qx qy k, qx < width img -> qy < height img -> k < 3 ->
       qx / blockSize = px / blockSize -> qy / blockSize = py / blockSize ->
       data img' !! ((qy * width img + qx) * 4 + k) =
       data img !! ((qy * width img + qx) * 4 + k)) ->
    data out' !! ((py * width img + px) * 4 + c) = data out !! ((py * width img + px) * 4 + c).
Proof.
  intros Hwf Hwf' Hw Hh Hok Hok'. cbv zeta. intros px py c Hpx Hpy Hc Hagree.
  pose proof (applySampledMonochrome_pixels Math_atan2 img density threshold cache Hwf Hok) as P.
  pose proof (applySampledMonochrome_pixels Math_atan2 img' density threshold cache' Hwf' Hok')
    as P'.
  cbv zeta in P, P'. rewrite Hw, Hh in P'. rewrite P, P' by done. f_equal.
  destruct (block_size_range (default default_density density)) as [Hpos Hmax].
  set (bs := block_size (default default_density density)) in *.
  unfold halftone_value, block_value, block_whitePixels. cbv zeta.
  pose proof (block_start bs px Hpos) as Bx. pose proof (block_start bs py Hpos) as By.
  set (x := px / bs * bs) in *. set (y := py / bs * bs) in *.
  rewrite (block_graySum_local (data img) (data img')); [done |].
  intros ox oy k Hox Hoy Hk. apply Hagree; try lia.
  - unfold x. rewrite Nat.add_comm, Nat.div_add by lia.
    rewrite Nat.div_small; lia.
  - unfold y. rewrite Nat.add_comm, Nat.div_add by lia.
    rewrite Nat.div_small; lia.
Qed.

Lemma applySampledMonochrome_local_witness :
  let img := mkImageData [250; 250; 250; 9; 1; 1; 1; 7]%Z 2 1 in
  let img' := mkImageData [250; 250; 250; 0; 1; 1; 1; 0]%Z 2 1 in
  data (applySampledMonochrome diamond_angle img' None None ∅).1 !! 0 =
  data (applySampledMonochrome diamond_angle img None None ∅).1 !! 0.
Proof.
  intros img img'.
  apply (applySampledMonochrome_local diamond_angle img img' None None ∅ ∅ eq_refl eq_refl
           eq_refl eq_refl (cache_ok_empty _) (cache_ok_empty _) 0 0 0);
    try (simpl; lia).
  intros qx qy k Hqx Hqy Hk _ _. simpl in Hqx, Hqy.
  assert (qy = 0) as -> by lia.
  assert (qx = 0 \/ qx = 1) as [-> | ->] by lia;
    assert (k = 0 \/ k = 1 \/ k = 2) as [-> | [-> | ->]] by lia; reflexivity.
Defined.

(** *** The pattern cache is transparent *)

Lemma applySampledMonochrome_alpha (Math_atan2 : Q -> Q -> Q) (img : ImageData)
    (density threshold : option Q) (cache : gmap string (list nat)) :
  wf_image img -> cache_ok Math_atan2 cache ->
  let out := (applySampledMonochrome Math_atan2 img density threshold cache).1 in
  length (data out) = length (data img) /\ width out = width img /\ height out = height img /\
  forall p, data out !! (p * 4 + 3) = data img !! (p * 4 + 3).
Proof.
  intros Hwf Hok. rewrite applySampledMonochrome_rows. cbv zeta. cbn [fst data width height].
  destruct (block_size_range (default default_density density)) as [Hpos Hmax].
  destruct (sampled_rows_refines Math_atan2 (width img) (height img) _
              ((JS.Z2F (threshold_limit (default default_threshold threshold)) - 170) / 255)%float
              Hpos (data img, cache)) as [_ (Hlen & Halpha & _)]; [done |].
  repeat split; [done |]. intros p. apply Halpha.
  by destruct (entry_pixel p 3 ltac:(lia)) as [_ ->].
Qed.

Lemma getHalftonePattern_grows Math_atan2 w h (cache : gmap string (list nat)) :
  cache ⊆ (getHalftonePattern Math_atan2 w h cache).2.
Proof.
  unfold getHalftonePattern. destruct (cache !! cache_key w h) eqn:E; [done |].
  by apply insert_subseteq.
Qed.

Lemma sampled_block_grows Math_atan2 width height blockSize bias x y st :
  st.2 ⊆ (sampled_block Math_atan2 width height blockSize bias x y st).2.
Proof.
  destruct st as [d cache]. unfold sampled_block. destruct (_ =? 0); [done |].
  pose proof (getHalftonePattern_grows Math_atan2 (blockSize `min` (width - x))
                (blockSize `min` (height - y)) cache) as H.
  by destruct (getHalftonePattern _ _ _ _) as [pattern cache'].
Qed.

Lemma for_loop_grows {K} `{Countable K} {A B} (body : nat -> B * gmap K A -> B * gmap K A)
    fuel i stop step st :
  (forall j s, s.2 ⊆ (body j s).2) -> st.2 ⊆ (for_loop fuel i stop step body st).2.
Proof.
  intros Hbody. revert i st. induction fuel as [| fuel IH]; intros i st; simpl; [done |].
  destruct (i <? stop); [| done]. etrans; [apply Hbody | apply IH].
Qed.

Lemma applySampledMonochrome_grows Math_atan2 img density threshold
    (cache : gmap string (list nat)) :
  cache ⊆ (applySampledMonochrome Math_atan2 img density threshold cache).2.
Proof.
  unfold applySampledMonochrome. cbv zeta.
  match goal with
  | |- context [for_loop ?f ?i ?s ?st ?body ?init] =>
      assert (init.2 ⊆ (for_loop f i s st body init).2) as Hloop
  end.
  { apply for_loop_grows. intros y st. apply for_loop_grows. intros x st'.
    apply sampled_block_grows. }
  by destruct (for_loop _ _ _ _ _ _) as [d c].
Qed.

(** The image the sampled halftone returns does not depend on what the
    pattern cache holds, as long as the cache was filled by
    [getHalftonePattern]: memoization changes the cost, not the result.  The
    cache itself only grows: no entry is removed or replaced. *)
Theorem applySampledMonochrome_cache_transparent (Math_atan2 : Q -> Q -> Q) (img : ImageData)
    (density threshold : option Q) (cache : gmap string (list nat)) :
  wf_image img -> cache_ok Math_atan2 cache ->
  (applySampledMonochrome Math_atan2 img density threshold cache).1 =
  (applySampledMonochrome Math_atan2 img density threshold ∅).1
  /\ cache ⊆ (applySampledMonochrome Math_atan2 img density threshold cache).2
  /\ cache_ok Math_atan2 (applySampledMonochrome Math_atan2 img density threshold cache).2.
Proof.
  intros Hwf Hok. split; [| split; [apply applySampledMonochrome_grows |]].
  2: { rewrite applySampledMonochrome_rows. cbv zeta. cbn [snd].
       destruct (block_size_range (default default_density density)) as [Hpos Hmax].
       by destruct (sampled_rows_refines Math_atan2 (width img) (height img) _
              ((JS.Z2F (threshold_limit (default default_threshold threshold)) - 170) / 255)%float
              Hpos (data img, cache)) as [[_ ?] _]. }
  pose proof (cache_ok_empty Math_atan2) as Hok0.
  destruct (applySampledMonochrome_alpha Math_atan2 img density threshold cache Hwf Hok)
    as (L1 & W1 & H1 & A1).
  destruct (applySampledMonochrome_alpha Math_atan2 img density threshold ∅ Hwf Hok0)
    as (L2 & W2 & H2 & A2).
  pose proof (applySampledMonochrome_pixels Math_atan2 img density threshold cache Hwf Hok) as P1.
  pose proof (applySampledMonochrome_pixels Math_atan2 img density threshold ∅ Hwf Hok0) as P2.
  cbv zeta in *.
  destruct (applySampledMonochrome Math_atan2 img density threshold cache).1 as [d1 w1 h1].
  destruct (applySampledMonochrome Math_atan2 img density threshold ∅).1 as [d2 w2 h2].
  cbn [data width height] in *. subst w1 h1 w2 h2. f_equal.
  apply list_eq. intros j. unfold wf_image in Hwf.
  destruct (decide (j < 4 * (width img * height img))) as [Hj | Hj].
  2: { rewrite !lookup_ge_None_2; [done | lia | lia]. }
  destruct (wf_pixel_split _ j Hj) as (p & c & Hp & Hc & ->).
  replace (4 * p + c) with (p * 4 + c) by lia.
  destruct (decide (c = 3)) as [-> | Hc3]; [by rewrite A1, A2 |].
  assert (Hw : 0 < width img) by nia.
  rewrite (pixel_of_index (width img) p Hw).
  rewrite P1, P2; [done | | | | | |]; try lia; try (by apply Nat.mod_upper_bound; lia);
    apply Nat.Div0.div_lt_upper_bound; lia.
Qed.

Lemma applySampledMonochrome_cache_transparent_witness :
  let img := mkImageData [200; 100; 50; 9; 1; 1; 1; 7; 255; 255; 255; 3]%Z 3 1 in
  let cache := (getHalftonePattern diamond_angle 3 1 ∅).2 in
  (applySampledMonochrome diamond_angle img None None cache).1 =
  (applySampledMonochrome diamond_angle img None None ∅).1.
Proof.
  intros img cache.
  destruct (applySampledMonochrome_cache_transparent diamond_angle img None None cache)
    as [H _]; [reflexivity | | exact H].
  apply getHalftonePattern_ok, cache_ok_empty.
Defined.

(** *** The dot grows from the centre *)

Lemma Z2F_lt_succ k : k < 1024 -> (JS.Z2F (Z.of_nat k) <? JS.Z2F (Z.of_nat (Datatypes.S k)))%float = true.
Proof.
  intros Hk.
  assert (H : check_below 1024 (fun z => (JS.Z2F z <? JS.Z2F (z + 1))%float) = true)
    by (vm_compute; reflexivity).
  apply check_below_spec with (z := Z.of_nat k) in H; [| lia].
  by replace (Z.of_nat (Datatypes.S k)) with (Z.of_nat k + 1)%Z by lia.
Qed.

Lemma Z2F_lt a b :
  a < b -> b <= 1024 -> (JS.Z2F (Z.of_nat a) <? JS.Z2F (Z.of_nat b))%float = true.
Proof.
  intros Hab Hb. induction b as [| b IH]; [lia |].
  destruct (decide (a = b)) as [-> | Hne]; [apply Z2F_lt_succ; lia |].
  eapply ltb_trans; [apply IH; lia | apply Z2F_lt_succ; lia].
Qed.

Lemma tone_value_earlier W o1 o2 :
  o1 <= o2 -> o2 <= 1024 -> tone_value W o2 = 255%Z -> tone_value W o1 = 255%Z.
Proof.
  intros Ho Hmax. unfold tone_value.
  destruct (JS.Z2F (Z.of_nat o2) <? W)%float eqn:E2; [| done]. intros _.
  destruct (decide (o1 = o2)) as [-> | Hne]; [by rewrite E2 |].
  by rewrite (ltb_trans _ _ _ (Z2F_lt o1 o2 ltac:(lia) Hmax) E2).
Qed.

Lemma StronglySorted_lookup_lt {A} (R : A -> A -> Prop) (l : list A) o1 o2 a b :
  StronglySorted R l -> o1 < o2 -> l !! o1 = Some a -> l !! o2 = Some b -> R a b.
Proof.
  intros Hs. revert o1 o2. induction Hs as [| x l Hs IH Hall]; intros o1 o2 Hlt H1 H2; [done |].
  destruct o2 as [| o2]; [lia |]. destruct o1 as [| o1].
  - injection H1 as <-. eapply Forall_forall; [exact Hall |]. by eapply list_elem_of_lookup_2.
  - eapply (IH o1 o2); [lia | done | done].
Qed.

Lemma entry_at_distance Math_atan2 w h x y :
  distance (entry_at Math_atan2 w h x y) = centre_distance w h x y.
Proof. reflexivity. Qed.

(** In a pattern a pixel nearer the centre of the block comes first. *)
Lemma position_nearer Math_atan2 w h lx ly lx' ly' :
  (Z.of_nat (w * h) <= 65536)%Z -> lx < w -> ly < h -> lx' < w -> ly' < h ->
  (centre_distance w h lx ly < centre_distance w h lx' ly')%Q ->
  position (ly * w + lx) (compute_pattern Math_atan2 w h) <
  position (ly' * w + lx') (compute_pattern Math_atan2 w h).
Proof.
  intros Hsize Hlx Hly Hlx' Hly' Hd.
  pose proof (compute_pattern_perm Math_atan2 w h Hsize) as Hperm.
  pose proof (compute_pattern_sorted Math_atan2 w h Hsize) as Hsort.
  set (pattern := compute_pattern Math_atan2 w h) in *.
  assert (Hin : forall x y, x < w -> y < h -> y * w + x ∈ pattern).
  { intros x y Hx Hy. rewrite Hperm. apply elem_of_seq. nia. }
  pose proof (position_lookup _ _ (Hin lx ly Hlx Hly)) as H1.
  pose proof (position_lookup _ _ (Hin lx' ly' Hlx' Hly')) as H2.
  assert (Hentry : forall x y, x < w ->
            pixel_entry Math_atan2 w h (y * w + x) = entry_at Math_atan2 w h x y).
  { intros x y Hx. unfold pixel_entry. by destruct (pixel_coords w x y Hx) as [-> ->]. }
  destruct (Nat.lt_trichotomy (position (ly * w + lx) pattern)
              (position (ly' * w + lx') pattern)) as [Hlt | [Heq | Hgt]]; [done | |]; exfalso.
  - rewrite Heq in H1. rewrite H1 in H2. injection H2 as H2.
    assert (lx = lx' /\ ly = ly') as [-> ->].
    { pose proof (pixel_coords w lx ly Hlx) as [A1 A2].
      pose proof (pixel_coords w lx' ly' Hlx') as [B1 B2]. rewrite H2 in A1, A2. lia. }
    by apply Qlt_irrefl in Hd.
  - pose proof (StronglySorted_lookup_lt _ _ _ _ _ _ Hsort Hgt H2 H1) as Hle.
    cbv beta in Hle. rewrite !Hentry in Hle by done.
    unfold entry_le in Hle. rewrite !entry_at_distance in Hle.
    destruct Hle as [Hle | [Hle _]]; lra.
Qed.

(** Within a block the white pixels gather round the centre: when a pixel
    of the output is white, every pixel of its block that lies nearer the
    centre of the block is white as well. *)
Theorem applySampledMonochrome_disc (Math_atan2 : Q -> Q -> Q) (img : ImageData)
    (density threshold : option Q) (cache : gmap string (list nat)) :
  wf_image img -> cache_ok Math_atan2 cache ->
  let out := (applySampledMonochrome Math_atan2 img density threshold cache).1 in
  let blockSize := block_size (default default_density density) in
  forall px py qx qy c c',
    px < width img -> py < height img -> qx < width img -> qy < height img ->
    c < 3 -> c' < 3 ->
    px / blockSize = qx / blockSize -> py / blockSize = qy / blockSize ->
    let x := px / blockSize * blockSize in
    let y := py / blockSize * blockSize in
    let bw := blockSize `min` (width img - x) in
    let bh := blockSize `min` (height img - y) in
    (centre_distance bw bh (qx - x) (qy - y) < centre_distance bw bh (px - x) (py - y))%Q ->
    data out !! ((py * width img + px) * 4 + c) = Some 255%Z ->
    data out !! ((qy * width img + qx) * 4 + c') = Some 255%Z.
Proof.
  intros Hwf Hok. cbv zeta.
  intros px py qx qy c c' Hpx Hpy Hqx Hqy Hc Hc' Hbx Hby Hd.
  rewrite !(applySampledMonochrome_pixels Math_atan2 img density threshold cache Hwf Hok)
    by done.
  destruct (block_size_range (default default_density density)) as [Hpos Hmax].
  set (bs := block_size (default default_density density)) in *.
  unfold halftone_value, block_value. rewrite <- Hbx, <- Hby.
  pose proof (block_start bs px Hpos) as Bpx. pose proof (block_start bs py Hpos) as Bpy.
  pose proof (block_start bs qx Hpos) as Bqx. pose proof (block_start bs qy Hpos) as Bqy.
  rewrite <- Hbx in Bqx. rewrite <- Hby in Bqy.
  set (x := px / bs * bs) in *. set (y := py / bs * bs) in *.
  set (bw := bs `min` (width img - x)) in *. set (bh := bs `min` (height img - y)) in *.
  intros [= Hwhite]. f_equal.
  assert (Hsize : (Z.of_nat (bw * bh) <= 65536)%Z) by (unfold bw, bh; nia).
  assert (Hlt : position ((qy - y) * bw + (qx - x)) (compute_pattern Math_atan2 bw bh) <
                position ((py - y) * bw + (px - x)) (compute_pattern Math_atan2 bw bh)).
  { apply position_nearer; try done; unfold bw, bh; lia. }
  eapply tone_value_earlier; [| | exact Hwhite]; [lia |].
  assert (Hin : (py - y) * bw + (px - x) ∈ compute_pattern Math_atan2 bw bh).
  { rewrite compute_pattern_perm by done. apply elem_of_seq. unfold bw, bh. nia. }
  apply position_lookup, lookup_lt_Some in Hin.
  pose proof (compute_pattern_perm Math_atan2 bw bh Hsize) as Hlen%Permutation_length.
  rewrite length_seq in Hlen. unfold bw, bh in *. nia.
Qed.

Lemma applySampledMonochrome_disc_witness :
  let img := mkImageData [250; 250; 250; 9; 1; 1; 1; 7; 255; 255; 255; 3]%Z 3 1 in
  data (applySampledMonochrome diamond_angle img None None ∅).1 !! 4 = Some 255%Z.
Proof.
  intros img.
  apply (applySampledMonochrome_disc diamond_angle img None None ∅ eq_refl
           (cache_ok_empty _) 2 0 1 0 0 0); try (simpl; lia); vm_compute; reflexivity.
Defined.

(** *** Flat images *)

Lemma foldl_const {A B} (f : A -> A) (l : list B) a :
  foldl (fun s _ => f s) a l = Nat.iter (length l) f a.
Proof.
  revert a. induction l as [| x l IH]; intros a; simpl; [done |].
  rewrite IH. clear IH. induction (length l) as [| n IHn]; simpl; [done | by rewrite IHn].
Qed.

Lemma iter_mul {A} (f : A -> A) n m a : Nat.iter n (Nat.iter m f) a = Nat.iter (m * n) f a.
Proof.
  induction n as [| n IH]; simpl.
  - by rewrite Nat.mul_0_r.
  - rewrite IH. replace (m * Datatypes.S n) with (m + m * n) by lia. by rewrite Nat.iter_add.
Qed.

(** The sum of a block whose pixels all have the luminance [L]. *)
Lemma block_graySum_uniform d width x y bw bh L :
  (forall ox oy, ox < bw -> oy < bh ->
     let idx := ((y + oy) * width + (x + ox)) * 4 in
     luminance (load d idx) (load d (idx + 1)) (load d (idx + 2)) = L) ->
  block_graySum d width x y bw bh = Nat.iter (bw * bh) (fun s => (s + L)%float) 0%float.
Proof.
  intros H. unfold block_graySum. rewrite for_loop_unit.
  rewrite (foldl_ext_in _ (fun s _ => Nat.iter bw (fun s => (s + L)%float) s)).
  - rewrite foldl_const, length_seq. apply iter_mul.
  - intros s oy Hoy%elem_of_seq. rewrite for_loop_unit.
    rewrite (foldl_ext_in _ (fun s _ => (s + L)%float)).
    + by rewrite foldl_const, length_seq.
    + intros s' ox Hox%elem_of_seq. cbv zeta. f_equal. apply H; lia.
Qed.

Lemma block_whitePixels_of d width x y bw bh bias :
  block_whitePixels d width x y bw bh bias =
  whitePixels_of (block_graySum d width x y bw bh) (bw * bh) bias.
Proof. reflexivity. Qed.

Lemma white_blocks_spec fuel n sum k :
  white_blocks fuel n sum = true -> 0 < k <= fuel ->
  (JS.Z2F (Z.of_nat (n + k - 1)) <?
   whitePixels_of (Nat.iter k (fun s => (s + white_luminance)%float) sum) (n + k)
     ((170 - 170) / 255))%float = true.
Proof.
  revert n sum k. induction fuel as [| fuel IH]; intros n sum k Hc Hk; [lia |].
  simpl in Hc. apply andb_true_iff in Hc as [Hhere Hrest].
  destruct k as [| k]; [lia |]. destruct (decide (k = 0)) as [-> | Hne].
  - simpl. replace (n + 1 - 1) with n by lia. by replace (n + 1) with (Datatypes.S n) by lia.
  - specialize (IH (Datatypes.S n) (sum + white_luminance)%float k Hrest ltac:(lia)).
    replace (Datatypes.S n + k - 1) with (n + Datatypes.S k - 1) in IH by lia.
    replace (Datatypes.S n + k) with (n + Datatypes.S k) in IH by lia.
    by rewrite Nat.iter_succ_r.
Qed.

(** A block of up to 1024 white pixels is white all over under the default
    threshold. *)
Lemma white_block_stays n order :
  0 < n <= 1024 -> order < n ->
  tone_value (whitePixels_of (white_sum n) n ((170 - 170) / 255)) order = 255%Z.
Proof.
  intros Hn Ho.
  assert (Hc : white_blocks 1024 0 0 = true) by (vm_compute; reflexivity).
  pose proof (white_blocks_spec 1024 0 0%float n Hc ltac:(lia)) as H.
  rewrite Nat.add_0_l in H. fold (white_sum n) in H.
  apply tone_value_earlier with (o2 := n - 1); [lia | lia |].
  unfold tone_value. by rewrite H.
Qed.

Lemma black_sum n : Nat.iter n (fun s => (s + luminance 0 0 0)%float) 0%float = 0%float.
Proof. induction n as [| n IH]; simpl; [done |]. rewrite IH. by vm_compute. Qed.

Lemma Leibniz_eqb_eq x y : PrimFloat.Leibniz.eqb x y = true -> x = y.
Proof. apply FloatAxioms.Leibniz.eqb_spec. Qed.

Lemma Z2F_not_negative order : order <= 1024 -> (JS.Z2F (Z.of_nat order) <? 0)%float = false.
Proof.
  intros Ho. destruct (decide (order = 0)) as [-> | Hne]; [by vm_compute |].
  apply leb_ltb_false, ltb_leb. apply (Z2F_lt 0 order); lia.
Qed.

(** A block of up to 1024 black pixels is black all over when the threshold
    is 170 or more. *)
Lemma black_block_stays n limit order :
  0 < n <= 1024 -> (170 <= limit <= 255)%Z -> order <= 1024 ->
  tone_value (whitePixels_of 0 n ((JS.Z2F limit - 170) / 255)) order = 0%Z.
Proof.
  intros Hn Hl Ho. unfold whitePixels_of.
  assert (H1 : check_below 1025 (fun n =>
            (n =? 0)%Z || PrimFloat.Leibniz.eqb (0 / JS.Z2F n / 255) 0) = true)
    by (vm_compute; reflexivity).
  apply check_below_spec with (z := Z.of_nat n) in H1; [| lia].
  apply orb_true_iff in H1 as [H1 | H1]; [lia |]. apply Leibniz_eqb_eq in H1. rewrite H1.
  assert (H2 : check_below 256 (fun l =>
            (l <? 170)%Z || PrimFloat.Leibniz.eqb (clamp01 (0 - (JS.Z2F l - 170) / 255)) 0) = true)
    by (vm_compute; reflexivity).
  apply check_below_spec with (z := limit) in H2; [| lia].
  apply orb_true_iff in H2 as [H2 | H2]; [lia |]. apply Leibniz_eqb_eq in H2. rewrite H2.
  assert (H3 : check_below 1025 (fun n =>
            PrimFloat.Leibniz.eqb (JS.Math_round (0 * JS.Z2F n)) 0) = true)
    by (vm_compute; reflexivity).
  apply check_below_spec with (z := Z.of_nat n) in H3; [| lia].
  apply Leibniz_eqb_eq in H3. rewrite H3.
  unfold tone_value. by rewrite Z2F_not_negative.
Qed.

Lemma flat_block_sum d width height x y bw bh (v : Z) :
  length d = 4 * (width * height) -> x + bw <= width -> y + bh <= height ->
  (forall p c, p < width * height -> c < 3 -> d !! (4 * p + c) = Some v) ->
  block_graySum d width x y bw bh =
  Nat.iter (bw * bh) (fun s => (s + luminance (JS.Z2F v) (JS.Z2F v) (JS.Z2F v))%float) 0%float.
Proof.
  intros Hlen Hx Hy Hflat. apply block_graySum_uniform. intros ox oy Hox Hoy. cbv zeta.
  assert (Hp : (y + oy) * width + (x + ox) < width * height) by nia.
  pose proof (Hflat _ 0 Hp ltac:(lia)) as H0. pose proof (Hflat _ 1 Hp ltac:(lia)) as H1.
  pose proof (Hflat _ 2 Hp ltac:(lia)) as H2.
  replace (4 * ((y + oy) * width + (x + ox)) + 0) with (((y + oy) * width + (x + ox)) * 4)
    in H0 by lia.
  replace (4 * ((y + oy) * width + (x + ox)) + 1) with (((y + oy) * width + (x + ox)) * 4 + 1)
    in H1 by lia.
  replace (4 * ((y + oy) * width + (x + ox)) + 2) with (((y + oy) * width + (x + ox)) * 4 + 2)
    in H2 by lia.
  by rewrite (load_channel _ _ _ H0), (load_channel _ _ _ H1), (load_channel _ _ _ H2).
Qed.

Lemma same_image (img out : ImageData) :
  wf_image img ->
  length (data out) = length (data img) -> width out = width img -> height out = height img ->
  (forall p, data out !! (p * 4 + 3) = data img !! (p * 4 + 3)) ->
  (forall px py c, px < width img -> py < height img -> c < 3 ->
     data out !! ((py * width img + px) * 4 + c) = data img !! ((py * width img + px) * 4 + c)) ->
  out = img.
Proof.
  intros Hwf Hlen Hw Hh Halpha Hcol. destruct out as [d1 w1 h1], img as [d w h].
  cbn [data width height] in *. subst w1 h1. f_equal. unfold wf_image in Hwf. simpl in Hwf.
  apply list_eq. intros j.
  destruct (decide (j < 4 * (w * h))) as [Hj | Hj].
  2: { rewrite !lookup_ge_None_2; [done | lia | lia]. }
  destruct (wf_pixel_split _ j Hj) as (p & c & Hp & Hc & ->).
  replace (4 * p + c) with (p * 4 + c) by lia.
  destruct (decide (c = 3)) as [-> | Hc3]; [apply Halpha |].
  assert (Hwpos : 0 < w) by nia.
  rewrite (pixel_of_index w p Hwpos). apply Hcol; [| | lia].
  - by apply Nat.mod_upper_bound; lia.
  - apply Nat.Div0.div_lt_upper_bound. lia.
Qed.

(** Flat images are fixed points of the sampled halftone: under the default
    threshold (any threshold that rounds to 170) an image whose pixels are
    all white comes back as it is, and so does an image whose pixels are all
    black under any threshold that rounds to 170 or more, whatever the
    density, the size of the image and its alpha entries. *)
Theorem applySampledMonochrome_flat (Math_atan2 : Q -> Q -> Q) (img : ImageData)
    (density threshold : option Q) (cache : gmap string (list nat)) :
  wf_image img -> cache_ok Math_atan2 cache ->
  let out := (applySampledMonochrome Math_atan2 img density threshold cache).1 in
  let limit := threshold_limit (default default_threshold threshold) in
  (limit = 170%Z ->
   (forall p c, p < width img * height img -> c < 3 -> data img !! (4 * p + c) = Some 255%Z) ->
   out = img)
  /\ ((170 <= limit)%Z ->
      (forall p c, p < width img * height img -> c < 3 -> data img !! (4 * p + c) = Some 0%Z) ->
      out = img).
Proof.
  intros Hwf Hok. cbv zeta.
  destruct (applySampledMonochrome_alpha Math_atan2 img density threshold cache Hwf Hok)
    as (Hlen & Hw & Hh & Halpha).
  pose proof (applySampledMonochrome_pixels Math_atan2 img density threshold cache Hwf Hok)
    as Hpix. cbv zeta in Hpix.
  destruct (block_size_range (default default_density density)) as [Hpos Hmax].
  set (bs := block_size (default default_density density)) in *.
  pose proof (threshold_limit_range (default default_threshold threshold)) as Hrange.
  set (limit := threshold_limit (default default_threshold threshold)) in *.
  assert (Hblock : forall px py, px < width img -> py < height img ->
            let x := px / bs * bs in let y := py / bs * bs in
            let bw := bs `min` (width img - x) in let bh := bs `min` (height img - y) in
            x + bw <= width img /\ y + bh <= height img /\ 0 < bw * bh <= 1024 /\
            position ((py - y) * bw + (px - x)) (compute_pattern Math_atan2 bw bh) < bw * bh).
  { intros px py Hpx Hpy. cbv zeta.
    pose proof (block_start bs px Hpos). pose proof (block_start bs py Hpos).
    set (x := px / bs * bs) in *. set (y := py / bs * bs) in *.
    set (bw := bs `min` (width img - x)). set (bh := bs `min` (height img - y)).
    assert (Hsize : (Z.of_nat (bw * bh) <= 65536)%Z) by (unfold bw, bh; nia).
    repeat split; try (unfold bw, bh; nia).
    assert (Hin : (py - y) * bw + (px - x) ∈ compute_pattern Math_atan2 bw bh).
    { rewrite compute_pattern_perm by done. apply elem_of_seq. unfold bw, bh. nia. }
    apply position_lookup, lookup_lt_Some in Hin.
    pose proof (compute_pattern_perm Math_atan2 bw bh Hsize) as Hl%Permutation_length.
    rewrite length_seq in Hl. lia. }
  split.
  - intros Hlimit Hwhite. apply same_image; try done.
    intros px py c Hpx Hpy Hc. rewrite Hpix by done.
    replace ((py * width img + px) * 4 + c) with (4 * (py * width img + px) + c) by lia.
    rewrite Hwhite by (try done; nia). f_equal.
    destruct (Hblock px py Hpx Hpy) as (Hx & Hy & Hn & Hord). cbv zeta in Hx, Hy, Hn, Hord.
    unfold halftone_value, block_value. rewrite block_whitePixels_of.
    rewrite (flat_block_sum _ _ (height img) _ _ _ _ 255%Z Hwf Hx Hy Hwhite).
    rewrite Hlimit. by apply white_block_stays.
  - intros Hlimit Hblack. apply same_image; try done.
    intros px py c Hpx Hpy Hc. rewrite Hpix by done.
    replace ((py * width img + px) * 4 + c) with (4 * (py * width img + px) + c) by lia.
    rewrite Hblack by (try done; nia). f_equal.
    destruct (Hblock px py Hpx Hpy) as (Hx & Hy & Hn & Hord). cbv zeta in Hx, Hy, Hn, Hord.
    unfold halftone_value, block_value. rewrite block_whitePixels_of.
    rewrite (flat_block_sum _ _ (height img) _ _ _ _ 0%Z Hwf Hx Hy Hblack).
    change (JS.Z2F 0) with 0%float. rewrite black_sum.
    apply black_block_stays; lia.
Qed.

Lemma applySampledMonochrome_flat_witness :
  let img := mkImageData [255; 255; 255; 9; 255; 255; 255; 7]%Z 2 1 in
  (applySampledMonochrome diamond_angle img None None ∅).1 = img.
Proof.
  intros img.
  destruct (applySampledMonochrome_flat diamond_angle img None None ∅) as [H _].
  - reflexivity.
  - apply cache_ok_empty.
  - apply H; [reflexivity |].
    intros p c Hp Hc. simpl in Hp.
    assert (p = 0 \/ p = 1) as [-> | ->] by lia;
      assert (c = 0 \/ c = 1 \/ c = 2) as [-> | [-> | ->]] by lia; reflexivity.
Defined.

(** ** More on the ladders *)

(** *** Every way a render fails *)

Lemma steps_split (env : Browser) (base : list Z) (maxBytes : Z) (todo : list float) :
  Forall (fun s => over_budget maxBytes (png_of env base s)) todo \/
  exists before s after blob,
    todo = before ++ s :: after /\
    Forall (fun s => over_budget maxBytes (png_of env base s)) before /\
    png_of env base s = Some blob /\ (size blob <= maxBytes)%Z.
Proof.
  induction todo as [| s todo IH]; [left; constructor |].
  assert (Hs : over_budget maxBytes (png_of env base s) \/
               exists blob, png_of env base s = Some blob /\ (size blob <= maxBytes)%Z).
  { destruct (png_of env base s) as [blob |] eqn:E; [| left; by intros ?].
    destruct (Z.leb_spec (size blob) maxBytes); [right; eauto |].
    left. intros b [= <-]. done. }
  destruct Hs as [Hs | (blob & Hs & Hfit)].
  - destruct IH as [Hall | (before & s' & after & blob' & -> & Hb & Hs' & Hfit)].
    + left. by constructor.
    + right. exists (s :: before), s', after, blob'. repeat split; try done. by constructor.
  - right. exists [], s, todo, blob. repeat split; [constructor | done | done].
Qed.

Lemma exportPng_none (env : Browser) (canvas base : list Z) (maxBytes : Z) :
  (exportPngWithQuantization env canvas base maxBytes).1.1 = None ->
  forall s, s ∈ steps -> over_budget maxBytes (png_of env base s).
Proof.
  intros Hnone. apply Forall_forall.
  destruct (steps_split env base maxBytes steps)
    as [Hall | (before & s & after & blob & Heq & Hb & Hs & Hfit)]; [done | exfalso].
  unfold exportPngWithQuantization in Hnone. rewrite Heq in Hnone.
  by rewrite (quantization_loop_first_fit env base maxBytes before s after blob) in Hnone.
Qed.

Lemma exportWithCompression_throws (env : Browser) (canvas : list Z) (maxBytes : Z) e :
  (exportWithCompression env canvas maxBytes).1 = Throw e ->
  e = ExportFailed /\ forall a, a ∈ attempts -> produced env canvas a = None.
Proof.
  intros He. split.
  - unfold exportWithCompression in He.
    destruct (compression_loop env canvas maxBytes attempts None []) as [[[r |] [c |]] made];
      simpl in He; congruence.
  - unfold exportWithCompression in He.
    destruct (compression_loop env canvas maxBytes attempts None [])
      as [[returned candidate] made] eqn:E.
    destruct returned as [blob |]; [done |]. destruct candidate as [blob |]; [done |].
    apply compression_loop_nothing in E. by apply Forall_forall.
Qed.

Lemma exportWithCompression_nothing (env : Browser) (canvas : list Z) (maxBytes : Z) :
  (forall a, a ∈ attempts -> produced env canvas a = None) ->
  exportWithCompression env canvas maxBytes = (Throw ExportFailed, attempts).
Proof.
  intros Hnone. unfold exportWithCompression.
  rewrite compression_loop_exhausted.
  - rewrite candidate_after_none; [done |]. by apply Forall_forall.
  - apply Forall_forall. intros a Ha blob Hb. by rewrite Hnone in Hb.
Qed.

(** A render throws in exactly three situations: the canvas gives no 2d
    context; the target is PNG and no quantization step gives a blob within
    the budget (the error carries the budget in kilobytes); the target is not
    PNG and the encoder produced no blob at all.  In every other situation
    it returns a blob. *)
Theorem renderToCupCanvas_errors (Math_atan2 : Q -> Q -> Q) (env : Browser) (canvas : list Z)
    (image : HTMLImageElement) (options : RenderOptions) (cache : gmap string (list nat))
    (e : Error) :
  let base := base_pixels Math_atan2 env image options cache in
  outcome (renderToCupCanvas Math_atan2 env canvas image options cache) = Throw e <->
  (context2d env = false /\ e = CanvasUnsupported) \/
  (context2d env = true /\ targetFormat options = Some png /\
   (forall s, s ∈ steps -> over_budget (budget options) (png_of env base s)) /\
   e = PngOverBudget (JS.Math_roundQ (budget options # 1024))) \/
  (context2d env = true /\ targetFormat options <> Some png /\
   (forall a, a ∈ attempts -> produced env base a = None) /\
   e = ExportFailed).
Proof.
  cbv zeta. destruct (context2d env) eqn:Hctx.
  2: { rewrite renderToCupCanvas_no_context by done. split.
       - intros [= <-]. by left.
       - intros [[_ ->] | [(? & _) | (? & _)]]; done. }
  assert (Hcases : targetFormat options = Some png \/ targetFormat options <> Some png).
  { destruct (targetFormat options) as [[|] |]; [by left | by right | by right]. }
  destruct Hcases as [Hpng | Hlossy].
  - rewrite renderToCupCanvas_png by done. cbv zeta.
    destruct (exportPngWithQuantization _ _ _ _).1.1 as [blob |] eqn:E; split.
    + done.
    + intros [[? _] | [(_ & _ & Hall & _) | (_ & ? & _)]]; try done.
      destruct (exportPng_exhausted env _ (budget options)
                  (base_pixels Math_atan2 env image options cache) Hall) as [Hn _].
      rewrite E in Hn. done.
    + intros [= <-]. right. left. repeat split; try done. by eapply exportPng_none.
    + intros [[? _] | [(_ & _ & _ & ->) | (_ & ? & _)]]; done.
  - rewrite renderToCupCanvas_lossy by done. split.
    + intros H. apply exportWithCompression_throws in H as [-> Hnone]. by right; right.
    + intros [[? _] | [(_ & ? & _) | (_ & _ & Hnone & ->)]]; try done.
      by rewrite exportWithCompression_nothing.
Qed.

(** *** A larger budget *)

Section Budgets.
Variable env : Browser.
Variables B B' : Z.
Hypothesis budgets : (B <= B')%Z.

Lemma compression_loop_made canvas maxBytes todo candidate made :
  exists l, (compression_loop env canvas maxBytes todo candidate made).2 = made ++ l.
Proof.
  revert candidate made. induction todo as [| a todo IH]; intros candidate made; simpl.
  - exists []. by rewrite app_nil_r.
  - destruct (toBlob env canvas _ _) as [blob |].
    + destruct (size blob <=? maxBytes)%Z; [by exists [a] |].
      destruct (IH (Some blob) (made ++ [a])) as [l ->]. exists (a :: l). by rewrite <- app_assoc.
    + destruct (IH candidate (made ++ [a])) as [l ->]. exists (a :: l). by rewrite <- app_assoc.
Qed.

Lemma compression_loop_budget canvas todo candidate made :
  (exists rest, (compression_loop env canvas B todo candidate made).2 =
                (compression_loop env canvas B' todo candidate made).2 ++ rest) /\
  ((compression_loop env canvas B todo candidate made).1.1 <> None ->
   (compression_loop env canvas B' todo candidate made).1.1 <> None).
Proof.
  revert candidate made. induction todo as [| a todo IH]; intros candidate made; simpl.
  - split; [by exists []; rewrite app_nil_r | done].
  - destruct (toBlob env canvas _ _) as [blob |]; [| apply IH].
    destruct (Z.leb_spec (size blob) B), (Z.leb_spec (size blob) B'); try lia.
    + split; [by exists []; rewrite app_nil_r | done].
    + split; [| done]. simpl. apply compression_loop_made.
    + apply IH.
Qed.

Lemma quantization_loop_made base maxBytes todo fallback canvas made :
  exists l, (quantization_loop env base maxBytes todo fallback canvas made).2 = made ++ l.
Proof.
  revert fallback canvas made. induction todo as [| s todo IH]; intros fallback canvas made; simpl.
  - exists []. by rewrite app_nil_r.
  - destruct (toBlob env _ _ _) as [blob |].
    + destruct (size blob <=? maxBytes)%Z; [by exists [s] |].
      destruct (IH (Some blob) (working_pixels base s) (made ++ [s])) as [l ->].
      exists (s :: l). by rewrite <- app_assoc.
    + destruct (IH fallback (working_pixels base s) (made ++ [s])) as [l ->].
      exists (s :: l). by rewrite <- app_assoc.
Qed.

Lemma quantization_loop_budget base todo fallback canvas made :
  (exists rest, (quantization_loop env base B todo fallback canvas made).2 =
                (quantization_loop env base B' todo fallback canvas made).2 ++ rest) /\
  ((quantization_loop env base B todo fallback canvas made).1.1.1 <> None ->
   (quantization_loop env base B' todo fallback canvas made).1.1.1 <> None).
Proof.
  revert fallback canvas made.
  induction todo as [| s todo IH]; intros fallback canvas made; simpl.
  - split; [by exists []; rewrite app_nil_r | done].
  - destruct (toBlob env _ _ _) as [blob |]; [| apply IH].
    destruct (Z.leb_spec (size blob) B), (Z.leb_spec (size blob) B'); try lia.
    + split; [by exists []; rewrite app_nil_r | done].
    + split; [| done]. simpl. apply quantization_loop_made.
    + apply IH.
Qed.

End Budgets.

Lemma exportPng_returned (env : Browser) (canvas base : list Z) (maxBytes : Z) :
  (exportPngWithQuantization env canvas base maxBytes).1.1 =
  (quantization_loop env base maxBytes steps None canvas []).1.1.1.
Proof.
  unfold exportPngWithQuantization.
  destruct (steps_split env base maxBytes steps)
    as [Hall | (before & s & after & blob & -> & Hb & Hs & Hfit)].
  - destruct (quantization_loop_exhausted env base maxBytes steps None canvas [] Hall)
      as (fb & cv & -> & Hover); [by intros ? |].
    simpl. destruct fb as [b |]; [| done].
    pose proof (Hover b eq_refl). by destruct (Z.leb_spec (size b) maxBytes); [lia |].
  - by rewrite (quantization_loop_first_fit env base maxBytes before s after blob).
Qed.

Lemma exportPng_made (env : Browser) (canvas base : list Z) (maxBytes : Z) :
  (exportPngWithQuantization env canvas base maxBytes).2 =
  (quantization_loop env base maxBytes steps None canvas []).2.
Proof.
  unfold exportPngWithQuantization.
  by destruct (quantization_loop env base maxBytes steps None canvas [])
    as [[[[r |] fb] cv] made].
Qed.

Lemma exportWithCompression_made (env : Browser) (canvas : list Z) (maxBytes : Z) :
  (exportWithCompression env canvas maxBytes).2 =
  (compression_loop env canvas maxBytes attempts None []).2.
Proof.
  unfold exportWithCompression.
  by destruct (compression_loop env canvas maxBytes attempts None [])
    as [[[r |] [c |]] made].
Qed.

(** The lossless export returns a blob only from inside its loop: the test
    of the fallback after the loop never lets a blob through, since every
    blob the loop went past is over the budget. *)
Theorem exportPngWithQuantization_fallback (env : Browser) (canvas base : list Z)
    (maxBytes : Z) :
  (exportPngWithQuantization env canvas base maxBytes).1.1 =
  (quantization_loop env base maxBytes steps None canvas []).1.1.1
  /\ ((quantization_loop env base maxBytes steps None canvas []).1.1.1 = None ->
      forall blob, (quantization_loop env base maxBytes steps None canvas []).1.1.2 = Some blob ->
        (maxBytes < size blob)%Z).
Proof.
  split; [apply exportPng_returned |].
  intros Hnone blob Hfb.
  destruct (steps_split env base maxBytes steps)
    as [Hall | (before & s & after & blob' & Heq & Hb & Hs & Hfit)].
  - destruct (quantization_loop_exhausted env base maxBytes steps None canvas [] Hall)
      as (fb & cv & E & Hover); [by intros ? |].
    rewrite E in Hfb. simpl in Hfb. by apply Hover.
  - rewrite Heq in Hnone.
    by rewrite (quantization_loop_first_fit env base maxBytes before s after blob') in Hnone.
Qed.

(** Raising the budget never costs encodings and never loses a result: with
    a larger budget either ladder makes a prefix of the attempts it made with
    the smaller one; a lossless export that succeeded still succeeds; a lossy
    export that returned a blob within the budget still does. *)
Theorem ladders_budget_monotone (env : Browser) (canvas base : list Z) (B B' : Z) :
  (B <= B')%Z ->
  (exists rest, (exportWithCompression env canvas B).2 =
                (exportWithCompression env canvas B').2 ++ rest)
  /\ (forall blob, (exportWithCompression env canvas B).1 = Return blob ->
        (size blob <= B)%Z ->
        exists blob', (exportWithCompression env canvas B').1 = Return blob' /\
                      (size blob' <= B')%Z)
  /\ (exists rest, (exportPngWithQuantization env canvas base B).2 =
                   (exportPngWithQuantization env canvas base B').2 ++ rest)
  /\ (forall blob, (exportPngWithQuantization env canvas base B).1.1 = Some blob ->
        exists blob', (exportPngWithQuantization env canvas base B').1.1 = Some blob' /\
                      (size blob' <= B')%Z).
Proof.
  intros HB. split; [| split; [| split]].
  - rewrite !exportWithCompression_made. apply compression_loop_budget. done.
  - intros blob Hret Hfit.
    destruct (ladder_split env canvas B' attempts)
      as [Hall | (before & a & after & blob' & Heq & Hb & Ha & Hfit')].
    + exists blob. split; [| lia]. destruct (exportWithCompression_returned _ _ _ _ Hret)
        as [_ | [Hall' Hlast]].
      * unfold exportWithCompression in *.
        rewrite compression_loop_exhausted in * by done.
        rewrite compression_loop_exhausted in Hret.
        { done. }
        eapply Forall_impl; [exact Hall |]. intros a Ha b Hb. specialize (Ha b Hb). lia.
      * unfold exportWithCompression. rewrite compression_loop_exhausted by done.
        by rewrite Hlast.
    + exists blob'. split; [| done]. unfold exportWithCompression. rewrite Heq.
      by rewrite (compression_loop_first_fit env canvas B' before a after blob').
  - rewrite !exportPng_made. apply quantization_loop_budget. done.
  - intros blob Hret. rewrite exportPng_returned in Hret.
    destruct (quantization_loop_budget env B B' HB base steps None canvas []) as [_ Hsome].
    rewrite Hret in Hsome. specialize (Hsome ltac:(done)).
    destruct (exportPngWithQuantization env canvas base B').1.1 as [blob' |] eqn:E.
    + exists blob'. split; [done |]. by eapply exportPng_within.
    + by rewrite exportPng_returned in E.
Qed.

Lemma ladders_budget_monotone_witness :
  exists rest, (exportWithCompression (flat_browser 100) [] 50).2 =
               (exportWithCompression (flat_browser 100) [] 200).2 ++ rest.
Proof.
  destruct (ladders_budget_monotone (flat_browser 100) [] [] 50 200) as [H _]; [lia | exact H].
Defined.

(** *** What the lossy ladder returns *)

(** Whatever the encoder does, the attempts the lossy ladder makes are the
    first [k] of its fifteen, [k >= 1]; a blob it returns is the last blob
    the encoder produced among them; and unless that blob is within the
    budget all fifteen attempts were made. *)
Theorem exportWithCompression_shape (env : Browser) (canvas : list Z) (maxBytes : Z) :
  let result := exportWithCompression env canvas maxBytes in
  exists k, 0 < k <= 15 /\ result.2 = take k attempts /\
    (forall blob, result.1 = Return blob ->
       candidate_after env canvas result.2 None = Some blob /\
       ((size blob <= maxBytes)%Z \/ k = 15)) /\
    (forall e, result.1 = Throw e -> k = 15).
Proof.
  cbv zeta. unfold exportWithCompression.
  destruct (ladder_split env canvas maxBytes attempts)
    as [Hall | (before & a & after & blob & Heq & Hb & Ha & Hfit)].
  - rewrite compression_loop_exhausted by done. exists 15.
    split; [lia |]. simpl app.
    destruct (candidate_after env canvas attempts None) as [c |] eqn:E; simpl.
    + split; [done |]. split; [| done]. intros blob [= <-]. split; [done | by right].
    + split; [done |]. split; [done |]. done.
  - rewrite Heq. rewrite (compression_loop_first_fit env canvas maxBytes before a after blob)
      by done.
    exists (Datatypes.S (length before)). simpl.
    assert (Hlen : length (before ++ a :: after) = 15) by (by rewrite <- Heq).
    rewrite length_app in Hlen. simpl in Hlen.
    split; [lia |]. split.
    + rewrite <- (take_app_length (before ++ [a]) after) at 1.
      rewrite <- app_assoc. simpl. f_equal. rewrite length_app. simpl. lia.
    + split; [| done]. intros blob' [= <-]. split; [| by left].
      replace (before ++ [a]) with (before ++ a :: []) by done.
      by apply candidate_after_last.
Qed.

(** *** The two targets agree on a PNG that fits *)

(** When the PNG of the tone-mapped canvas is within the budget, a render
    returns that very blob whatever the target format: the lossless ladder
    at its step 0 and the lossy ladder at its first attempt ask the encoder
    for the same thing. *)
Theorem renderToCupCanvas_png_fits (Math_atan2 : Q -> Q -> Q) (env : Browser) (canvas : list Z)
    (image : HTMLImageElement) (options : RenderOptions) (cache : gmap string (list nat))
    (blob : Blob) :
  context2d env = true ->
  toBlob env (base_pixels Math_atan2 env image options cache) image_png None = Some blob ->
  (size blob <= budget options)%Z ->
  outcome (renderToCupCanvas Math_atan2 env canvas image options cache) = Return blob.
Proof.
  intros Hctx Hpng Hfit.
  assert (Hcases : targetFormat options = Some png \/ targetFormat options <> Some png).
  { destruct (targetFormat options) as [[|] |]; [by left | by right | by right]. }
  destruct Hcases as [Hfmt | Hfmt].
  - rewrite renderToCupCanvas_png by done. cbv zeta.
    unfold exportPngWithQuantization, steps.
    change (0%float :: ?l) with ([] ++ 0%float :: l).
    rewrite (quantization_loop_first_fit env _ (budget options) [] 0%float _ blob); done.
  - rewrite renderToCupCanvas_lossy by done.
    unfold exportWithCompression, attempts.
    change (mkAttempt image_png None :: ?l) with ([] ++ mkAttempt image_png None :: l).
    by rewrite (compression_loop_first_fit env _ (budget options) [] _ _ blob).
Qed.

Lemma renderToCupCanvas_png_fits_witness :
  outcome (renderToCupCanvas diamond_angle (flat_browser 100) [] no_image
             (plain_options (Some png) None) ∅) = Return (mkBlob 100 image_png) /\
  outcome (renderToCupCanvas diamond_angle (flat_browser 100) [] no_image
             (plain_options (Some auto) None) ∅) = Return (mkBlob 100 image_png).
Proof.
  split; apply renderToCupCanvas_png_fits; try reflexivity; simpl; vm_compute; discriminate.
Defined.

(** *** What a render leaves on the canvas *)

Lemma quantization_loop_canvas (env : Browser) (base : list Z) (maxBytes : Z) todo fallback
    canvas made :
  Forall (fun s => over_budget maxBytes (png_of env base s)) todo ->
  (quantization_loop env base maxBytes todo fallback canvas made).1.2 =
  default canvas (working_pixels base <$> last todo).
Proof.
  intros Hall. revert fallback canvas made.
  induction Hall as [| s todo Hs _ IH]; intros fallback canvas made; [done |].
  assert (Hlast : default canvas (working_pixels base <$> last (s :: todo)) =
                  default (working_pixels base s) (working_pixels base <$> last todo)).
  { destruct todo as [| s' todo']; [done |]. rewrite last_cons_cons.
    destruct (last_is_Some (s' :: todo')) as [_ [x ->]]; done. }
  rewrite Hlast. cbn [quantization_loop]. cbv zeta.
  fold (png_of env base s).
  destruct (png_of env base s) as [blob |] eqn:E; [| apply IH].
  pose proof (Hs blob eq_refl). destruct (Z.leb_spec (size blob) maxBytes); [lia | apply IH].
Qed.

Lemma exportPng_canvas (env : Browser) (canvas base : list Z) (maxBytes : Z) :
  (exportPngWithQuantization env canvas base maxBytes).1.2 =
  (quantization_loop env base maxBytes steps None canvas []).1.2.
Proof.
  unfold exportPngWithQuantization.
  by destruct (quantization_loop env base maxBytes steps None canvas [])
    as [[[[r |] fb] cv] made].
Qed.

(** A render without a 2d context leaves the canvas and the pattern cache
    as they were.  A lossy render leaves the tone-mapped image on the canvas.
    A lossless render leaves the canvas showing the pixels of the last step
    it encoded: those of the returned blob when a step fits, and the image
    quantized at the coarsest step, 192, when it fails; the canvas is not put
    back.  The pattern cache changes in sampled mode only. *)
Theorem renderToCupCanvas_leaves (Math_atan2 : Q -> Q -> Q) (env : Browser) (canvas : list Z)
    (image : HTMLImageElement) (options : RenderOptions) (cache : gmap string (list nat)) :
  let rendered := renderToCupCanvas Math_atan2 env canvas image options cache in
  let base := base_pixels Math_atan2 env image options cache in
  (context2d env = false -> final_canvas rendered = canvas /\ final_cache rendered = cache)
  /\ (context2d env = true -> targetFormat options <> Some png ->
      final_canvas rendered = base)
  /\ (context2d env = true -> targetFormat options = Some png ->
      (forall s, s ∈ steps -> over_budget (budget options) (png_of env base s)) ->
      final_canvas rendered = quantizeColors base 192)
  /\ (forall k step blob,
        context2d env = true -> targetFormat options = Some png ->
        steps !! k = Some step ->
        png_of env base step = Some blob -> (size blob <= budget options)%Z ->
        (forall j s, j < k -> steps !! j = Some s ->
                     over_budget (budget options) (png_of env base s)) ->
        final_canvas rendered = working_pixels base step)
  /\ (default binary (toneMode options) <> sampled -> final_cache rendered = cache).
Proof.
  cbv zeta. unfold renderToCupCanvas, base_pixels, budget.
  split; [by intros -> |].
  split; [| split; [| split]].
  - intros -> Hfmt. simpl. destruct (tone_map _ _ _ _) as [toned cache'].
    by destruct (targetFormat options) as [[|] |].
  - intros -> -> Hall. simpl. destruct (tone_map _ _ _ _) as [toned cache']. simpl in *.
    pose proof (exportPng_canvas env (data toned) (data toned)
                  (default MAX_UPLOAD_BYTES (maxBytes options))) as Hcv.
    rewrite quantization_loop_canvas in Hcv by (by apply Forall_forall).
    destruct (exportPngWithQuantization _ _ _ _) as [[result cv] made]. simpl in Hcv.
    subst cv. by destruct result.
  - intros k step blob -> -> Hk Hs Hfit Hbefore. simpl.
    destruct (tone_map _ _ _ _) as [toned cache']. simpl in *.
    unfold exportPngWithQuantization. rewrite (split_at steps k step Hk) at 1.
    rewrite (quantization_loop_first_fit env _ _ _ step _ blob); [done | | done | done].
    by apply Forall_take_lookup.
  - intros Hmode. destruct (negb (context2d env)); [done |].
    unfold tone_map.
    destruct (default binary (toneMode options)); [| done |];
      by destruct (targetFormat options) as [[|] |];
        try destruct (exportPngWithQuantization _ _ _ _) as [[[r |] cv] made].
Qed.

(** ** More on colour quantization *)

Lemma nearest_multiple_channel s v : (0 < s)%Z -> (0 <= v)%Z -> is_channel (nearest_multiple s v).
Proof.
  intros Hs Hv. unfold nearest_multiple, is_channel.
  assert (0 <= (2 * v + s) / (2 * s))%Z by (apply Z.div_pos; lia). nia.
Qed.

Lemma nearest_multiple_idem s v :
  (0 < s)%Z -> (0 <= v <= 255)%Z ->
  nearest_multiple s (nearest_multiple s v) = nearest_multiple s v.
Proof.
  intros Hs Hv. unfold nearest_multiple.
  set (k := ((2 * v + s) / (2 * s))%Z).
  assert (Hk : (0 <= k)%Z) by (apply Z.div_pos; lia).
  destruct (Z.le_gt_cases (k * s) 255) as [Hle | Hgt].
  - rewrite (Z.min_r 255 (k * s)) by lia.
    assert (E : ((2 * (k * s) + s) / (2 * s) = k)%Z).
    { symmetry. apply (Z.div_unique_pos _ _ k s); lia. }
    rewrite E. lia.
  - rewrite (Z.min_l 255 (k * s)) by lia.
    assert (Hmono : (k <= (2 * 255 + s) / (2 * s))%Z).
    { apply Z.div_le_mono; lia. }
    rewrite Z.min_l; [done |]. nia.
Qed.

Lemma quantizeColors_integer (d : list Z) (n : nat) (s : Z) :
  length d = 4 * n -> channels d -> (0 < s <= 255)%Z ->
  let out := quantizeColors d (JS.Z2F s) in
  bytes_of (4 * n) out /\
  (forall p c v, p < n -> c < 3 -> d !! (4 * p + c) = Some v ->
     out !! (4 * p + c) = Some (nearest_multiple s v)) /\
  (forall p, out !! (4 * p + 3) = d !! (4 * p + 3)).
Proof.
  intros Hlen Hch Hs. cbv zeta.
  destruct (quantizeColors_pixels d n Hlen (JS.Z2F s)) as (H1 & H2 & H3).
  split; [by apply quantizeColors_bytes |]. split; [| done].
  intros p c v Hp Hc Hv. rewrite H2 by done. rewrite step_positive by done.
  rewrite (load_channel _ _ _ Hv). f_equal. apply quantized_integer; [done |].
  eapply Forall_lookup_1; eauto.
Qed.

(** Quantizing twice with the same step is quantizing once: the buffer
    [quantizeColors] returns is left as it is by a second pass with the same
    integer step of 1..255. *)
Theorem quantizeColors_idempotent (d : list Z) (n : nat) (s : Z) :
  length d = 4 * n -> channels d -> (0 < s <= 255)%Z ->
  quantizeColors (quantizeColors d (JS.Z2F s)) (JS.Z2F s) = quantizeColors d (JS.Z2F s).
Proof.
  intros Hlen Hch Hs.
  destruct (quantizeColors_integer d n s Hlen Hch Hs) as ([L1 C1] & P1 & A1).
  destruct (quantizeColors_integer _ n s L1 C1 Hs) as ([L2 C2] & P2 & A2).
  apply list_eq. intros j.
  destruct (decide (j < 4 * n)) as [Hj | Hj].
  2: { rewrite !lookup_ge_None_2; [done | lia | lia]. }
  destruct (wf_pixel_split _ j Hj) as (p & c & Hp & Hc & ->).
  destruct (decide (c = 3)) as [-> | Hc3]; [apply A2 |].
  destruct (lookup_lt_is_Some_2 d (4 * p + c) ltac:(lia)) as [v Hv].
  assert (Hcv : is_channel v) by exact (Forall_lookup_1 _ _ _ _ Hch Hv).
  rewrite (P2 p c (nearest_multiple s v)), (P1 p c v); try done; try lia.
  - f_equal. apply nearest_multiple_idem; [lia | done].
  - apply P1; [done | lia | done].
Qed.

Lemma quantizeColors_idempotent_witness :
  quantizeColors (quantizeColors [20; 130; 250; 255]%Z (JS.Z2F 16)) (JS.Z2F 16) =
  quantizeColors [20; 130; 250; 255]%Z (JS.Z2F 16).
Proof.
  apply (quantizeColors_idempotent _ 1); [reflexivity | | lia].
  repeat constructor; unfold is_channel; lia.
Defined.

(** *** Order *)

Lemma nearest_multiple_mono s v v' :
  (0 < s)%Z -> (v <= v')%Z -> (nearest_multiple s v <= nearest_multiple s v')%Z.
Proof.
  intros Hs Hv. unfold nearest_multiple.
  assert ((2 * v + s) / (2 * s) <= (2 * v' + s) / (2 * s))%Z by (apply Z.div_le_mono; lia).
  nia.
Qed.

(** Quantization keeps the order of the entries: of two colour entries the
    one that was not larger before a pass with an integer step of 1..255 is
    not larger after it, so a gradient stays a gradient. *)
Theorem quantizeColors_monotone (d : list Z) (n : nat) (s : Z) :
  length d = 4 * n -> channels d -> (0 < s <= 255)%Z ->
  forall p c p' c' v v',
    p < n -> c < 3 -> p' < n -> c' < 3 ->
    d !! (4 * p + c) = Some v -> d !! (4 * p' + c') = Some v' -> (v <= v')%Z ->
    exists q q', quantizeColors d (JS.Z2F s) !! (4 * p + c) = Some q /\
                 quantizeColors d (JS.Z2F s) !! (4 * p' + c') = Some q' /\ (q <= q')%Z.
Proof.
  intros Hlen Hch Hs p c p' c' v v' Hp Hc Hp' Hc' Hv Hv' Hle.
  destruct (quantizeColors_integer d n s Hlen Hch Hs) as (_ & P & _).
  exists (nearest_multiple s v), (nearest_multiple s v').
  split; [by apply P |]. split; [by apply P |]. apply nearest_multiple_mono; lia.
Qed.

Lemma quantizeColors_monotone_witness :
  exists q q', quantizeColors [20; 130; 250; 255]%Z (JS.Z2F 16) !! 0 = Some q /\
               quantizeColors [20; 130; 250; 255]%Z (JS.Z2F 16) !! 1 = Some q' /\ (q <= q')%Z.
Proof.
  apply (quantizeColors_monotone [20; 130; 250; 255]%Z 1 16 eq_refl) with
    (p := 0) (c := 0) (p' := 0) (c' := 1) (v := 20%Z) (v' := 130%Z);
    try lia; try reflexivity.
  repeat constructor; unfold is_channel; lia.
Defined.

(** *** The ladder on a black-and-white image *)

Lemma nearest_multiple_zero s : (0 < s)%Z -> nearest_multiple s 0 = 0%Z.
Proof.
  intros Hs. unfold nearest_multiple. rewrite Z.mul_0_r, Z.add_0_l.
  rewrite Z.div_small by lia. lia.
Qed.

Lemma working_pixels_integer (d : list Z) (n : nat) (s : Z) :
  length d = 4 * n -> channels d -> (0 < s <= 255)%Z ->
  let out := working_pixels d (JS.Z2F s) in
  length out = length d /\
  (forall p c v, p < n -> c < 3 -> d !! (4 * p + c) = Some v ->
     out !! (4 * p + c) = Some (nearest_multiple s v)) /\
  (forall p, out !! (4 * p + 3) = d !! (4 * p + 3)) /\
  white_after (JS.Z2F s) = nearest_multiple s 255.
Proof.
  intros Hlen Hch Hs. cbv zeta. unfold working_pixels, white_after.
  assert (Hpos : (0 <? JS.Z2F s)%float = true).
  { assert (H : check_below 256 (fun s => (s =? 0)%Z || (0 <? JS.Z2F s)%float) = true)
      by (vm_compute; reflexivity).
    apply check_below_spec with (z := s) in H; [| lia].
    apply orb_true_iff in H as [H | H]; [lia | done]. }
  rewrite Hpos.
  destruct (quantizeColors_integer d n s Hlen Hch Hs) as ([L _] & P & A).
  repeat split; try done; [lia |].
  change 255%float with (JS.Z2F 255). apply quantized_integer; [done |]. unfold is_channel. lia.
Qed.

Lemma two_tone_kept (d out : list Z) (n : nat) :
  length d = 4 * n -> two_tone d n -> length out = length d ->
  (forall p c v, p < n -> c < 3 -> d !! (4 * p + c) = Some v ->
     (v = 0%Z \/ v = 255%Z) -> out !! (4 * p + c) = Some v) ->
  (forall p, out !! (4 * p + 3) = d !! (4 * p + 3)) ->
  out = d.
Proof.
  intros Hlen Htt Hl Hcol Halpha. apply list_eq. intros j.
  destruct (decide (j < 4 * n)) as [Hj | Hj].
  2: { rewrite !lookup_ge_None_2; [done | lia | lia]. }
  destruct (wf_pixel_split _ j Hj) as (p & c & Hp & Hc & ->).
  destruct (decide (c = 3)) as [-> | Hc3]; [apply Halpha |].
  destruct (Htt p c Hp ltac:(lia)) as [H | H]; rewrite H; apply Hcol; auto; lia.
Qed.

(** The lossless ladder on a black-and-white image.  Black stays black at
    every step.  White stays white at the steps 0, 8, 16, 24, 32, 64, 96, 128
    and 160, where the buffer is not changed at all, so that these steps
    encode the very pixels of step 0 again; it becomes 240 at the steps 40,
    48 and 80, 224 at the step 112 and 192 at the step 192. *)
Theorem ladder_on_two_tone (d : list Z) (n : nat) :
  length d = 4 * n -> channels d -> two_tone d n ->
  white_after <$> steps =
    [255; 255; 255; 255; 255; 240; 240; 255; 240; 255; 224; 255; 255; 192]%Z
  /\ (forall step p c, step ∈ steps -> p < n -> c < 3 ->
        (d !! (4 * p + c) = Some 0%Z -> working_pixels d step !! (4 * p + c) = Some 0%Z) /\
        (d !! (4 * p + c) = Some 255%Z ->
         working_pixels d step !! (4 * p + c) = Some (white_after step)))
  /\ (forall step, step ∈ steps -> white_after step = 255%Z -> working_pixels d step = d).
Proof.
  intros Hlen Hch Htt.
  assert (Hsteps : forall step, step ∈ steps ->
            step = 0%float \/ exists s, (0 < s <= 255)%Z /\ step = JS.Z2F s).
  { intros step Hin. unfold steps in Hin. repeat (apply elem_of_cons in Hin as [-> | Hin]).
    1: by left.
    14: by apply elem_of_nil in Hin.
    all: right.
    - exists 8%Z. by split; [lia |].
    - exists 16%Z. by split; [lia |].
    - exists 24%Z. by split; [lia |].
    - exists 32%Z. by split; [lia |].
    - exists 40%Z. by split; [lia |].
    - exists 48%Z. by split; [lia |].
    - exists 64%Z. by split; [lia |].
    - exists 80%Z. by split; [lia |].
    - exists 96%Z. by split; [lia |].
    - exists 112%Z. by split; [lia |].
    - exists 128%Z. by split; [lia |].
    - exists 160%Z. by split; [lia |].
    - exists 192%Z. by split; [lia |]. }
  split; [by vm_compute |]. split.
  - intros step p c Hin Hp Hc. destruct (Hsteps step Hin) as [-> | (s & Hs & ->)]; [done |].
    destruct (working_pixels_integer d n s Hlen Hch Hs) as (_ & P & _ & ->).
    split; intros Hv; rewrite (P p c _ Hp Hc Hv); [| done].
    by rewrite nearest_multiple_zero by lia.
  - intros step Hin Hw. destruct (Hsteps step Hin) as [-> | (s & Hs & ->)]; [done |].
    destruct (working_pixels_integer d n s Hlen Hch Hs) as (L & P & A & E).
    apply (two_tone_kept d _ n); try done.
    intros p c v Hp Hc Hv [-> | ->]; rewrite (P p c _ Hp Hc Hv).
    + by rewrite nearest_multiple_zero by lia.
    + by rewrite <- E, Hw.
Qed.

Lemma ladder_on_two_tone_witness :
  working_pixels [255; 0; 255; 77]%Z 192 = [192; 0; 192; 77]%Z /\
  working_pixels [255; 0; 255; 77]%Z 160 = [255; 0; 255; 77]%Z.
Proof.
  destruct (ladder_on_two_tone [255; 0; 255; 77]%Z 1) as (_ & _ & H).
  - reflexivity.
  - repeat constructor; unfold is_channel; lia.
  - intros p c Hp Hc. assert (p = 0) as -> by lia.
    assert (c = 0 \/ c = 1 \/ c = 2) as [-> | [-> | ->]] by lia; auto.
  - split; [by vm_compute |]. apply H; [| by vm_compute].
    unfold steps. repeat (first [apply list_elem_of_here | apply list_elem_of_further]).
Defined.

(** *** The lossless ladder on a black-and-white image *)

Lemma steps_first_fit (env : Browser) (canvas base : list Z) (maxBytes : Z) (blob : Blob) :
  (exportPngWithQuantization env canvas base maxBytes).1.1 = Some blob ->
  exists k step,
    steps !! k = Some step /\ png_of env base step = Some blob /\
    (forall j s, j < k -> steps !! j = Some s -> over_budget maxBytes (png_of env base s)) /\
    exportPngWithQuantization env canvas base maxBytes =
      (Some blob, working_pixels base step, take (Datatypes.S k) steps).
Proof.
  intros Hret.
  destruct (steps_split env base maxBytes steps)
    as [Hall | (before & s & after & blob' & Heq & Hb & Hs & Hfit)].
  - destruct (exportPng_exhausted env base maxBytes canvas) as [Hn _].
    { by apply Forall_forall. }
    by rewrite Hn in Hret.
  - assert (Hres : exportPngWithQuantization env canvas base maxBytes =
                   (Some blob', working_pixels base s, before ++ [s])).
    { unfold exportPngWithQuantization. rewrite Heq.
      by rewrite (quantization_loop_first_fit env base maxBytes before s after blob'). }
    rewrite Hres in Hret. injection Hret as ->.
    exists (length before), s. rewrite Hres, Heq.
    split; [by rewrite list_lookup_middle |]. split; [done |]. split.
    + intros j s' Hj Hs'. rewrite lookup_app_l in Hs' by done.
      exact (Forall_lookup_1 _ _ _ _ Hb Hs').
    + f_equal. rewrite (take_S_r _ _ s) by (by rewrite list_lookup_middle).
      by rewrite take_app_length.
Qed.

Lemma working_pixels_same (d : list Z) (n : nat) (s s' : Z) :
  length d = 4 * n -> channels d -> two_tone d n ->
  (0 < s <= 255)%Z -> (0 < s' <= 255)%Z ->
  nearest_multiple s 255 = nearest_multiple s' 255 ->
  working_pixels d (JS.Z2F s) = working_pixels d (JS.Z2F s').
Proof.
  intros Hlen Hch Htt Hs Hs' Heq.
  destruct (working_pixels_integer d n s Hlen Hch Hs) as (L & P & A & _).
  destruct (working_pixels_integer d n s' Hlen Hch Hs') as (L' & P' & A' & _).
  apply list_eq. intros j.
  destruct (decide (j < 4 * n)) as [Hj | Hj].
  2: { rewrite !lookup_ge_None_2; [done | lia | lia]. }
  destruct (wf_pixel_split _ j Hj) as (p & c & Hp & Hc & ->).
  destruct (decide (c = 3)) as [-> | Hc3]; [by rewrite A, A' |].
  destruct (Htt p c Hp ltac:(lia)) as [H | H];
    rewrite (P p c _ Hp ltac:(lia) H), (P' p c _ Hp ltac:(lia) H); [| by rewrite Heq].
  by rewrite !nearest_multiple_zero by lia.
Qed.

Lemma working_pixels_unchanged (d : list Z) (n : nat) (s : Z) :
  length d = 4 * n -> channels d -> two_tone d n ->
  (0 < s <= 255)%Z -> nearest_multiple s 255 = 255%Z ->
  working_pixels d (JS.Z2F s) = working_pixels d 0.
Proof.
  intros Hlen Hch Htt Hs Heq.
  destruct (working_pixels_integer d n s Hlen Hch Hs) as (L & P & A & _).
  change (working_pixels d 0) with d. apply (two_tone_kept d _ n); try done.
  intros p c v Hp Hc Hv [-> | ->]; rewrite (P p c _ Hp Hc Hv).
  - by rewrite nearest_multiple_zero by lia.
  - by rewrite Heq.
Qed.

(** On a black-and-white image ten of the fourteen steps of the lossless
    ladder put pixels on the canvas that an earlier step has put there
    already, so the encoder is asked the same question again: a blob is only
    ever returned at the step 0, 40, 112 or 192. *)
Theorem exportPngWithQuantization_two_tone (env : Browser) (canvas base : list Z) (n : nat)
    (maxBytes : Z) (blob : Blob) :
  length base = 4 * n -> channels base -> two_tone base n ->
  (exportPngWithQuantization env canvas base maxBytes).1.1 = Some blob ->
  exists step, step ∈ [0; 40; 112; 192]%float /\
    png_of env base step = Some blob /\
    (exportPngWithQuantization env canvas base maxBytes).1.2 = working_pixels base step /\
    last (exportPngWithQuantization env canvas base maxBytes).2 = Some step.
Proof.
  intros Hlen Hch Htt Hret.
  destruct (steps_first_fit env canvas base maxBytes blob Hret)
    as (k & step & Hk & Hs & Hbefore & Hres).
  assert (Hfit : (size blob <= maxBytes)%Z) by (by eapply exportPng_within).
  assert (Hsame : forall j s, j < k -> steps !! j = Some s ->
            working_pixels base step = working_pixels base s -> False).
  { intros j s Hj Hsj Heq. specialize (Hbefore j s Hj Hsj blob).
    unfold png_of in Hbefore, Hs. rewrite <- Heq in Hbefore. specialize (Hbefore Hs). lia. }
  assert (Hunch : forall s : Z, (0 < s <= 255)%Z -> nearest_multiple s 255 = 255%Z ->
            working_pixels base (JS.Z2F s) = working_pixels base 0).
  { intros s Hs0 Hnm. by apply (working_pixels_unchanged base n). }
  assert (Hsm : forall s s' : Z, (0 < s <= 255)%Z -> (0 < s' <= 255)%Z ->
            nearest_multiple s 255 = nearest_multiple s' 255 ->
            working_pixels base (JS.Z2F s) = working_pixels base (JS.Z2F s')).
  { intros s s' Hs0 Hs0' Hnm. by apply (working_pixels_same base n). }
  exists step. rewrite Hres. cbn [fst snd].
  rewrite (take_S_r _ _ step) by done. rewrite last_snoc.
  split; [| done].
  destruct k as [| [| [| [| [| [| [| [| [| [| [| [| [| [| k]]]]]]]]]]]]]];
    [injection Hk as <- .. | by apply lookup_lt_Some in Hk; simpl in Hk; lia].
  - apply list_elem_of_here.
  - exfalso. apply (Hsame 0 0%float); [lia | done |]. by apply (Hunch 8%Z).
  - exfalso. apply (Hsame 0 0%float); [lia | done |]. by apply (Hunch 16%Z).
  - exfalso. apply (Hsame 0 0%float); [lia | done |]. by apply (Hunch 24%Z).
  - exfalso. apply (Hsame 0 0%float); [lia | done |]. by apply (Hunch 32%Z).
  - apply list_elem_of_further, list_elem_of_here.
  - exfalso. apply (Hsame 5 40%float); [lia | done |]. by apply (Hsm 48%Z 40%Z).
  - exfalso. apply (Hsame 0 0%float); [lia | done |]. by apply (Hunch 64%Z).
  - exfalso. apply (Hsame 5 40%float); [lia | done |]. by apply (Hsm 80%Z 40%Z).
  - exfalso. apply (Hsame 0 0%float); [lia | done |]. by apply (Hunch 96%Z).
  - do 2 apply list_elem_of_further. apply list_elem_of_here.
  - exfalso. apply (Hsame 0 0%float); [lia | done |]. by apply (Hunch 128%Z).
  - exfalso. apply (Hsame 0 0%float); [lia | done |]. by apply (Hunch 160%Z).
  - do 3 apply list_elem_of_further. apply list_elem_of_here.
Qed.

Lemma exportPngWithQuantization_two_tone_witness :
  exists step, step ∈ [0; 40; 112; 192]%float /\
    png_of (flat_browser 100) [255; 0; 255; 7]%Z step = Some (mkBlob 100 image_png) /\
    (exportPngWithQuantization (flat_browser 100) [] [255; 0; 255; 7]%Z 1000).1.2 =
      working_pixels [255; 0; 255; 7]%Z step /\
    last (exportPngWithQuantization (flat_browser 100) [] [255; 0; 255; 7]%Z 1000).2 =
      Some step.
Proof.
  apply (exportPngWithQuantization_two_tone (flat_browser 100) [] [255; 0; 255; 7]%Z 1 1000).
  - reflexivity.
  - repeat constructor; unfold is_channel; lia.
  - intros p c Hp Hc. assert (p = 0) as -> by lia.
    assert (c = 0 \/ c = 1 \/ c = 2) as [-> | [-> | ->]] by lia; auto.
  - by vm_compute.
Defined.

(** ** More on the binary threshold *)

Lemma Z2F_le a b :
  (0 <= a <= b)%Z -> (b <= 1024)%Z -> (JS.Z2F a <=? JS.Z2F b)%float = true.
Proof.
  intros Hab Hb. destruct (decide (a = b)) as [-> | Hne].
  - assert (H : check_below 1025 (fun z => (JS.Z2F z <=? JS.Z2F z)%float) = true)
      by (vm_compute; reflexivity).
    apply check_below_spec with (z := b) in H; [done | lia].
  - apply ltb_leb. pose proof (Z2F_lt (Z.to_nat a) (Z.to_nat b) ltac:(lia) ltac:(lia)) as H.
    by rewrite !Z2Nat.id in H by lia.
Qed.

Lemma threshold_limit_mono t t' : (t <= t')%Q -> (threshold_limit t <= threshold_limit t')%Z.
Proof.
  intros H. unfold threshold_limit, JS.Math_roundQ.
  assert (Qfloor (t + (1 # 2)) <= Qfloor (t' + (1 # 2)))%Z.
  { apply Qfloor_resp_le. apply Qplus_le_compat; [done | apply Qle_refl]. }
  lia.
Qed.

Lemma threshold_value_mono l l' r g b :
  (0 <= l <= l')%Z -> (l' <= 255)%Z ->
  threshold_value l' r g b = 255%Z -> threshold_value l r g b = 255%Z.
Proof.
  intros Hl Hl'. unfold threshold_value.
  destruct (JS.Z2F l' <=? luminance r g b)%float eqn:E; [| done]. intros _.
  by rewrite (leb_trans _ _ _ (Z2F_le l l' Hl ltac:(lia)) E).
Qed.

(** The threshold orders the outputs of the binary threshold: a pixel that
    is white under a threshold is white under every lower one, so raising
    the threshold can only turn pixels black.  Under a threshold below one
    half, the default apart, every pixel of an 8-bit buffer turns white. *)
Theorem applyBinaryThreshold_monotone (img : ImageData) (t t' : Q) :
  wf_image img -> (t <= t')%Q ->
  (forall p c, p < width img * height img -> c < 3 ->
     data (applyBinaryThreshold img (Some t')) !! (4 * p + c) = Some 255%Z ->
     data (applyBinaryThreshold img (Some t)) !! (4 * p + c) = Some 255%Z)
  /\ ((t < 1 # 2)%Q -> channels (data img) ->
      forall p c, p < width img * height img -> c < 3 ->
        data (applyBinaryThreshold img (Some t)) !! (4 * p + c) = Some 255%Z).
Proof.
  intros Hwf Ht.
  destruct (applyBinaryThreshold_pixels img (Some t) Hwf) as [_ P].
  destruct (applyBinaryThreshold_pixels img (Some t') Hwf) as [_ P'].
  cbv zeta in P, P'. simpl default in *.
  pose proof (threshold_limit_range t) as R. pose proof (threshold_limit_range t') as R'.
  pose proof (threshold_limit_mono t t' Ht) as M.
  assert (Hent : forall (out : ImageData) p c v, c < 3 ->
            out.(data) !! (4 * p) = Some v /\ out.(data) !! (4 * p + 1) = Some v /\
            out.(data) !! (4 * p + 2) = Some v /\
            out.(data) !! (4 * p + 3) = data img !! (4 * p + 3) ->
            out.(data) !! (4 * p + c) = Some v).
  { intros out p c v Hc (H0 & H1 & H2 & _).
    assert (c = 0 \/ c = 1 \/ c = 2) as [-> | [-> | ->]] by lia; by rewrite ?Nat.add_0_r. }
  split.
  - intros p c Hp Hc H'. rewrite (Hent _ p c _ Hc (P' p Hp)) in H'. injection H' as H'.
    rewrite (Hent _ p c _ Hc (P p Hp)). f_equal.
    eapply threshold_value_mono; [| | exact H']; lia.
  - intros Hlow Hch p c Hp Hc. rewrite (Hent _ p c _ Hc (P p Hp)). f_equal.
    assert (Hzero : threshold_limit t = 0%Z).
    { unfold threshold_limit, JS.Math_roundQ.
      assert (Qfloor (t + (1 # 2)) <= 0)%Z; [| lia].
      assert (Hlt : (t + (1 # 2) < 1)%Q) by lra.
      destruct (Z_le_gt_dec (Qfloor (t + (1 # 2))) 0) as [H | H]; [done | exfalso].
      pose proof (Qfloor_le (t + (1 # 2))) as Hle.
      assert (H1 : (inject_Z 1 <= inject_Z (Qfloor (t + (1 # 2))))%Q).
      { rewrite <- Zle_Qle. lia. }
      assert (inject_Z 1 == 1)%Q by reflexivity. lra. }
    rewrite Hzero. unfold wf_image in Hwf.
    destruct (lookup_lt_is_Some_2 (data img) (4 * p) ltac:(lia)) as [r Hr].
    destruct (lookup_lt_is_Some_2 (data img) (4 * p + 1) ltac:(lia)) as [g Hg].
    destruct (lookup_lt_is_Some_2 (data img) (4 * p + 2) ltac:(lia)) as [b Hb].
    rewrite (load_channel _ _ _ Hr), (load_channel _ _ _ Hg), (load_channel _ _ _ Hb).
    unfold threshold_value. change (JS.Z2F 0) with 0%float.
    rewrite luminance_nonneg; [done | | |]; eapply Forall_lookup_1; eauto.
Qed.

Lemma applyBinaryThreshold_monotone_witness :
  data (applyBinaryThreshold (mkImageData [200; 200; 200; 9]%Z 1 1) (Some 100%Q)) !! 0 =
  Some 255%Z.
Proof.
  destruct (applyBinaryThreshold_monotone (mkImageData [200; 200; 200; 9]%Z 1 1) 100 170)
    as [H _].
  - reflexivity.
  - by vm_compute.
  - apply (H 0 0); [simpl; lia | lia | by vm_compute].
Defined.

(** *** Grey pixels *)

Lemma ltb_leb_false x y : (x <? y)%float = true -> (y <=? x)%float = false.
Proof.
  rewrite FloatAxioms.ltb_spec, FloatAxioms.leb_spec. unfold SFltb, SFleb.
  rewrite (SFcompare_antisym (Prim2SF x) (Prim2SF y)).
  by destruct (SFcompare _ _) as [[] |].
Qed.

Lemma grey_luminance v :
  is_channel v ->
  (v = 0%Z \/ (JS.Z2F (v - 1) <=? luminance (JS.Z2F v) (JS.Z2F v) (JS.Z2F v))%float = true) /\
  (luminance (JS.Z2F v) (JS.Z2F v) (JS.Z2F v) <? JS.Z2F (v + 1))%float = true /\
  (JS.Z2F v <=? luminance (JS.Z2F v) (JS.Z2F v) (JS.Z2F v))%float = negb (luminance_short v).
Proof.
  intros Hv.
  assert (H : check_below 256 (fun v =>
            ((v =? 0)%Z || (JS.Z2F (v - 1) <=? luminance (JS.Z2F v) (JS.Z2F v) (JS.Z2F v))%float) &&
            (luminance (JS.Z2F v) (JS.Z2F v) (JS.Z2F v) <? JS.Z2F (v + 1))%float &&
            Bool.eqb (JS.Z2F v <=? luminance (JS.Z2F v) (JS.Z2F v) (JS.Z2F v))%float
                     (negb (luminance_short v))) = true) by (vm_compute; reflexivity).
  apply check_channel with (z := v) in H; [| done].
  apply andb_true_iff in H as [[H1 H2]%andb_true_iff H3].
  apply orb_true_iff in H1. apply Bool.eqb_prop in H3.
  split; [| done]. destruct H1 as [H1 | H1]; [left; lia | by right].
Qed.

Lemma threshold_value_grey T v :
  (0 <= T <= 255)%Z -> is_channel v ->
  threshold_value T (JS.Z2F v) (JS.Z2F v) (JS.Z2F v) = if grey_passes T v then 255%Z else 0%Z.
Proof.
  intros HT Hv. destruct (grey_luminance v Hv) as (Hlow & Hhigh & Hat).
  unfold threshold_value, grey_passes. unfold is_channel in Hv.
  destruct (Z.ltb_spec T v) as [Hlt | Hge]; simpl.
  - destruct Hlow as [-> | Hlow]; [lia |].
    by rewrite (leb_trans _ _ _ (Z2F_le T (v - 1) ltac:(lia) ltac:(lia)) Hlow).
  - destruct (Z.eqb_spec T v) as [-> | Hne]; simpl.
    + rewrite Hat. by destruct (luminance_short v).
    + by rewrite (ltb_leb_false _ _
                    (ltb_leb_trans _ _ _ Hhigh (Z2F_le (v + 1) T ltac:(lia) ltac:(lia)))).
Qed.

(** Binary threshold on a grey pixel.  A pixel whose three colour entries
    are the grey level [v] turns white when [v] is above the limit and black
    when it is below.  At the limit itself the rounding of the luminance
    decides: for 65 of the 256 grey levels the computed luminance is just
    below the level, and a pixel of such a level turns black under the
    threshold that equals it. *)
Theorem applyBinaryThreshold_grey (img : ImageData) (threshold : option Q) :
  wf_image img ->
  let T := threshold_limit (default default_threshold threshold) in
  (forall p v, p < width img * height img -> is_channel v ->
     data img !! (4 * p) = Some v -> data img !! (4 * p + 1) = Some v ->
     data img !! (4 * p + 2) = Some v ->
     forall c, c < 3 ->
       data (applyBinaryThreshold img threshold) !! (4 * p + c) =
       Some (if grey_passes T v then 255%Z else 0%Z))
  /\ (forall v, (T < v)%Z -> grey_passes T v = true)
  /\ (forall v, (v < T)%Z -> grey_passes T v = false)
  /\ filter (fun v => luminance_short v) (Z.of_nat <$> seq 0 256) =
     [1; 2; 4; 8; 11; 13; 16; 22; 26; 27; 32; 39; 44; 51; 52; 54; 57; 59; 61; 64; 78; 81; 88;
      91; 95; 101; 102; 104; 108; 114; 115; 118; 122; 127; 128; 143; 149; 156; 157; 162; 169;
      175; 176; 182; 183; 190; 195; 202; 203; 204; 208; 209; 216; 223; 225; 228; 230; 235;
      236; 239; 241; 244; 249; 251; 254]%Z.
Proof.
  intros Hwf. cbv zeta.
  pose proof (threshold_limit_range (default default_threshold threshold)) as R.
  split; [| split; [| split]].
  - intros p v Hp Hv H0 H1 H2 c Hc.
    destruct (applyBinaryThreshold_pixels img threshold Hwf) as [_ P].
    destruct (P p Hp) as (G0 & G1 & G2 & _).
    rewrite (load_channel _ _ _ H0), (load_channel _ _ _ H1), (load_channel _ _ _ H2) in *.
    rewrite threshold_value_grey in * by done.
    assert (c = 0 \/ c = 1 \/ c = 2) as [-> | [-> | ->]] by lia; by rewrite ?Nat.add_0_r.
  - intros v Hlt. unfold grey_passes. by destruct (Z.ltb_spec
      (threshold_limit (default default_threshold threshold)) v); [| lia].
  - intros v Hlt. unfold grey_passes.
    destruct (Z.ltb_spec (threshold_limit (default default_threshold threshold)) v); [lia |].
    by destruct (Z.eqb_spec (threshold_limit (default default_threshold threshold)) v); [lia |].
  - by vm_compute.
Qed.

Lemma applyBinaryThreshold_grey_witness :
  data (applyBinaryThreshold (mkImageData [1; 1; 1; 255]%Z 1 1) (Some 1%Q)) !! 0 = Some 0%Z.
Proof.
  destruct (applyBinaryThreshold_grey (mkImageData [1; 1; 1; 255]%Z 1 1) (Some 1%Q) eq_refl)
    as [H _].
  apply (H 0 1%Z ltac:(simpl; lia) ltac:(unfold is_channel; lia) eq_refl eq_refl eq_refl 0).
  lia.
Defined.

(** *** Black-and-white images *)






(** ** More on the pattern cache *)

(** The cache of patterns: different shapes have different keys; a request
    leaves the entries of all other shapes as they are and never removes an
    entry; after it the cache holds the pattern returned under the key of
    the shape; a shape found in the cache is answered with the cached
    sequence, which is not checked, and the cache is not touched; a shape
    not found is computed. *)
Theorem getHalftonePattern_cache (Math_atan2 : Q -> Q -> Q) (w h : nat)
    (cache : gmap string (list nat)) :
  let result := getHalftonePattern Math_atan2 w h cache in
  (forall w' h', cache_key w h = cache_key w' h' -> w = w' /\ h = h')
  /\ result.2 !! cache_key w h = Some result.1
  /\ (forall w' h', (w', h') <> (w, h) ->
        result.2 !! cache_key w' h' = cache !! cache_key w' h')
  /\ cache ⊆ result.2
  /\ (forall cached, cache !! cache_key w h = Some cached -> result = (cached, cache))
  /\ (cache !! cache_key w h = None ->
      result = (compute_pattern Math_atan2 w h,
                <[cache_key w h := compute_pattern Math_atan2 w h]> cache)).
Proof.
  cbv zeta. split; [apply cache_key_inj |].
  split; [| split; [| split; [apply getHalftonePattern_grows | split]]].
  - unfold getHalftonePattern. destruct (cache !! cache_key w h) eqn:E; simpl; [done |].
    by rewrite lookup_insert_eq.
  - intros w' h' Hne. unfold getHalftonePattern.
    destruct (cache !! cache_key w h) eqn:E; simpl; [done |].
    apply lookup_insert_ne. intros Heq. apply cache_key_inj in Heq as [-> ->]. done.
  - intros cached Hc. unfold getHalftonePattern. by rewrite Hc.
  - intros Hc. unfold getHalftonePattern. by rewrite Hc.
Qed.

(** ** More on the fit *)



(** ** The address of the backend *)

Lemma trim_start_spaces ws s :
  forallb is_white_space ws = true -> trim_start (ws ++ s) = trim_start s.
Proof.
  induction ws as [| c ws IH]; simpl; [done |].
  intros [Hc Hws]%andb_true_iff. rewrite Hc. by apply IH.
Qed.

Lemma trim_start_kept c s : is_white_space c = false -> trim_start (c :: s) = c :: s.
Proof. intros H. simpl. by rewrite H. Qed.

Lemma forallb_rev {A} (f : A -> bool) l : forallb f (rev l) = forallb f l.
Proof.
  induction l as [| a l IH]; simpl; [done |].
  rewrite forallb_app, IH. simpl. rewrite andb_true_r. apply andb_comm.
Qed.

(** Trimming removes the white space around a text that neither begins nor
    ends with white space. *)
Lemma String_trim_spec ws1 ws2 c1 core c2 :
  forallb is_white_space ws1 = true -> forallb is_white_space ws2 = true ->
  is_white_space c1 = false -> is_white_space c2 = false ->
  String_trim (ws1 ++ (c1 :: core ++ [c2]) ++ ws2) = c1 :: core ++ [c2].
Proof.
  intros H1 H2 Hc1 Hc2. unfold String_trim.
  assert (E1 : trim_start (ws1 ++ (c1 :: core ++ [c2]) ++ ws2) = (c1 :: core ++ [c2]) ++ ws2).
  { rewrite trim_start_spaces by done. simpl. by rewrite Hc1. }
  assert (E2 : rev (c1 :: core ++ [c2]) = c2 :: rev (c1 :: core)).
  { change (c1 :: core ++ [c2]) with ((c1 :: core) ++ [c2]). by rewrite rev_app_distr. }
  rewrite E1, rev_app_distr, E2.
  rewrite trim_start_spaces by (by rewrite forallb_rev).
  rewrite trim_start_kept by done.
  change (rev (c2 :: rev (c1 :: core))) with (rev (rev (c1 :: core)) ++ [c2]).
  by rewrite rev_involutive.
Qed.

Lemma String_trim_single ws1 ws2 c :
  forallb is_white_space ws1 = true -> forallb is_white_space ws2 = true ->
  is_white_space c = false ->
  String_trim (ws1 ++ [c] ++ ws2) = [c].
Proof.
  intros H1 H2 Hc. unfold String_trim.
  rewrite trim_start_spaces by done. simpl app. rewrite trim_start_kept by done.
  change (c :: ws2) with ([c] ++ ws2). rewrite rev_app_distr.
  rewrite trim_start_spaces by (by rewrite forallb_rev). simpl. by rewrite Hc.
Qed.

Lemma String_trim_blank ws : forallb is_white_space ws = true -> String_trim ws = [].
Proof.
  intros H. unfold String_trim.
  rewrite <- (app_nil_r ws) at 1. by rewrite trim_start_spaces.
Qed.

Lemma strip_slash_snoc s : strip_slash (s ++ [slash]) = s.
Proof. unfold strip_slash. rewrite last_snoc. simpl. by rewrite removelast_last. Qed.

Lemma strip_slash_other s c : c <> slash -> strip_slash (s ++ [c]) = s ++ [c].
Proof.
  intros H. unfold strip_slash. rewrite last_snoc.
  by destruct (N.eqb_spec c slash).
Qed.

Lemma trimmed_cases m :
  trimmed m ->
  (exists c, m = [c] /\ is_white_space c = false) \/
  (exists c1 core c2, m = c1 :: core ++ [c2] /\
     is_white_space c1 = false /\ is_white_space c2 = false).
Proof.
  unfold trimmed. destruct m as [| c1 m']; [done |]. simpl head.
  destruct (decide (m' = [])) as [-> | Hne].
  - simpl. intros [H _]. left. eauto.
  - destruct (last_is_Some m') as [_ [c Hc]]; [done |].
    apply last_Some in Hc as [core ->].
    rewrite app_comm_cons, last_snoc. intros [H1 H2]. right. eauto 6.
Qed.

Lemma String_trim_trimmed ws1 ws2 m :
  blank ws1 -> blank ws2 -> trimmed m -> String_trim (ws1 ++ m ++ ws2) = m.
Proof.
  intros H1 H2 Hm.
  destruct (trimmed_cases m Hm) as [(c & -> & Hc) | (c1 & core & c2 & -> & Hc1 & Hc2)].
  - by apply String_trim_single.
  - by apply String_trim_spec.
Qed.

Lemma trimmed_snoc m c : trimmed m -> is_white_space c = false -> trimmed (m ++ [c]).
Proof.
  unfold trimmed. destruct m as [| a m']; [done |].
  rewrite last_snoc. simpl head. destruct (last (a :: m')); [| done]. by intros [? _].
Qed.

Lemma trimmed_truthy m : trimmed m -> truthy m = true.
Proof. by destruct m. Qed.

Lemma strip_slash_kept m : last m <> Some slash -> strip_slash m = m.
Proof.
  intros H. unfold strip_slash. destruct (last m) as [c |]; [| done].
  destruct (N.eqb_spec c slash) as [-> | Hne]; done.
Qed.

Lemma or_empty_blank (s : code_units) : blank s -> blank (if truthy s then s else []).
Proof. by destruct s. Qed.

(** The address of the backend.  It is the root followed by [/api].  A
    configured base wins over the page origin and is used without the white
    space around it and without a slash at its end.  When no base is
    configured, or only white space, or only a slash, the root is the origin
    of the page without a slash at its end, and empty where there is no
    window.  Only one slash is taken off the end. *)
Theorem BACKEND_API_BASE_spec (e : Environment) :
  BACKEND_API_BASE e = resolveApiRoot e ++ api_path
  /\ (forall ws1 ws2 m,
        blank ws1 -> blank ws2 -> trimmed m -> last m <> Some slash ->
        VITE_API_BASE e = Some (ws1 ++ m ++ ws2) \/
        VITE_API_BASE e = Some (ws1 ++ (m ++ [slash]) ++ ws2) ->
        resolveApiRoot e = m)
  /\ (forall ws1 ws2,
        blank ws1 -> blank ws2 ->
        VITE_API_BASE e = None \/ VITE_API_BASE e = Some ws1 \/
        VITE_API_BASE e = Some (ws1 ++ [slash] ++ ws2) ->
        resolveApiRoot e =
        match window_origin e with Some origin => strip_slash origin | None => [] end)
  /\ (forall s, strip_slash (s ++ [slash; slash]) = s ++ [slash]).
Proof.
  split; [| split; [| split]].
  - unfold BACKEND_API_BASE. by destruct (resolveApiRoot e).
  - intros ws1 ws2 m H1 H2 Hm Hlast Hbase. unfold resolveApiRoot.
    assert (Hslash : is_white_space slash = false) by reflexivity.
    destruct Hbase as [-> | ->].
    + assert (Ht : truthy (ws1 ++ m ++ ws2) = true).
      { destruct m; [done |]. by destruct ws1. }
      rewrite Ht, String_trim_trimmed by done.
      rewrite strip_slash_kept by done. by rewrite trimmed_truthy.
    + assert (Ht : truthy (ws1 ++ (m ++ [slash]) ++ ws2) = true).
      { destruct m; [done |]. by destruct ws1. }
      rewrite Ht, String_trim_trimmed by (try done; by apply trimmed_snoc).
      rewrite strip_slash_snoc. by rewrite trimmed_truthy.
  - intros ws1 ws2 H1 H2 Hbase. unfold resolveApiRoot.
    assert (Hslash : is_white_space slash = false) by reflexivity.
    assert (E : strip_slash (String_trim (if VITE_API_BASE e is Some s
                                           then (if truthy s then s else []) else [])) = []).
    { destruct Hbase as [-> | [-> | ->]]; [done | |].
      - by rewrite String_trim_blank by (by apply or_empty_blank).
      - assert (Ht : truthy (ws1 ++ [slash] ++ ws2) = true) by (by destruct ws1).
        rewrite Ht, String_trim_single by done. done. }
    by rewrite E.
  - intros s. change (s ++ [slash; slash]) with (s ++ [slash] ++ [slash]).
    rewrite app_assoc. apply strip_slash_snoc.
Qed.

(** ** Examples *)

(** A lossless render with a budget of one byte fails after all fourteen
    steps; the error carries the budget in kilobytes, rounded. *)
Example png_budget_of_one_byte :
  outcome (renderToCupCanvas diamond_angle (flat_browser 67) [] no_image
             (plain_options (Some png) (Some 1%Z)) ∅) = Throw (PngOverBudget 0) /\
  (exportPngWithQuantization (flat_browser 67) [] [] 1%Z).2 = steps /\
  outcome (renderToCupCanvas diamond_angle (flat_browser 300000) [] no_image
             (plain_options (Some png) None) ∅) = Throw (PngOverBudget 200).
Proof. repeat split; vm_compute; reflexivity. Qed.

(** An opaque red canvas turns black under the default threshold: the
    luminance of red, about 76, is below 170. *)
Example red_turns_black :
  data (applyBinaryThreshold (mkImageData [255; 0; 0; 255; 255; 0; 0; 255]%Z 2 1) None) =
  [0; 0; 0; 255; 0; 0; 0; 255]%Z.
Proof. vm_compute. reflexivity. Qed.

(** The address of the backend for a base given with white space and a slash
    around it, and for none. *)
Example api_base_examples :
  BACKEND_API_BASE (mkEnvironment (Some [32; 104; 47; 97; 47; 10]%N) None) =
    [104; 47; 97; 47; 97; 112; 105]%N /\
  BACKEND_API_BASE (mkEnvironment None None) = api_path.
Proof. split; reflexivity. Qed.

(** The cover fit of a square source fills the canvas height and overflows
    its width symmetrically. *)
Example cover_of_a_square :
  placement (num := float) cover 1000 1000 = mkPlacement 832%float 832%float (-118)%float 0%float.
Proof. vm_compute. reflexivity. Qed.
